(** * RAGService: knowledge-base registry, search orchestration and cache

    A shallow embedding of [src/RAGService.ts] (classes [SearchCache] and
    [RAGService]) together with the properties stated about it.

    Conventions of the embedding.
    - A JavaScript [number] that counts things (sizes, capacities, ordinals)
      is a [nat]; one that may be negative or is a time in milliseconds
      (the integer [k], [maxSize], [ttl], [Date.now()]) is a [Z]; distances,
      scores and averages are exact rationals [Q], so rounding of IEEE
      doubles, [NaN] and the infinities are outside the model.
    - A JavaScript [Map] whose iteration order matters (the cache) is an
      association list in insertion order; the other maps and plain
      objects used as dictionaries are [gmap]s.
    - An [async] method is a function from the state before the call to an
      outcome and the state after it; a thrown exception keeps the state
      reached when it was thrown. Calls are not interleaved.
    - The embedding provider, the nearest-neighbour query of the vector
      index and the outcome of every write to a file are external: they are
      parameters of the development. A write may fail, and may then leave
      a damaged file behind. A read fails on a missing or malformed file,
      and [unlink] on a missing file.
    - Files are named by the string that [path.join] returns on a POSIX
      system; two such strings name two files.
    - [Date.now()] is a parameter of every operation that reads the clock.
    - [this.log] only prints and is left out. *)

From Stdlib Require Import QArith ZArith Qround Lqa Ascii.
From stdpp Require Import gmap strings list fin_maps pretty sorting.

Local Open Scope Z_scope.

(** ** Outcomes of fallible operations *)

Inductive JsError :=
  | EmbeddingApiError   (* [throw new Error(`Embedding API error: ...`)] *)
  | TypeError           (* property access on [undefined], hashing [undefined] *)
  | IndexError          (* an exception raised by the vector index *)
  | ENOENT              (* a file that does not exist *)
  | SyntaxError         (* [JSON.parse] or [readIndex] on malformed data *)
  | WriteError.         (* [writeIndex], [JSON.stringify] or [fs.writeFile] failing *)

Inductive Outcome (A : Type) :=
  | Ok (a : A)
  | Throw (e : JsError).
Arguments Ok {A} a.
Arguments Throw {A} e.

(** ** Data model *)

(** [number[]]: an embedding or query vector. *)
Definition Vec := list Q.

Global Instance Q_eq_dec : EqDecision Q.
Proof. solve_decision. Defined.

(** Values of the free-form [metadata] object of a document. *)
Inductive MetaVal :=
  | MStr (s : string)
  | MNum (z : Z).

Global Instance MetaVal_eq_dec : EqDecision MetaVal.
Proof. solve_decision. Defined.

(** JavaScript truthiness, as used by [||] and [if]. *)
Definition truthy_string (s : string) : bool :=
  if decide (s = "") then false else true.

Definition truthy_meta (v : MetaVal) : bool :=
  match v with
  | MStr s => truthy_string s
  | MNum z => negb (z =? 0)
  end.

(** [x || d] on an optional value. *)
Definition or_else {A} (t : A -> bool) (o : option A) (d : A) : A :=
  match o with
  | Some a => if t a then a else d
  | None => d
  end.

Record RAGDocument := {
  doc_id : option string;
  doc_content : string;
  doc_knowledgeBase : string;
  doc_metadata : option (gmap string MetaVal)
}.

(** [Partial<RAGDocument>], the second argument of [updateDocument]. *)
Record PartialDocument := {
  pd_content : option string;
  pd_knowledgeBase : option string;
  pd_metadata : option (gmap string MetaVal)
}.

(** One entry of a chunk map (the object literal built in
    [addDocumentsToKB]). *)
Record Chunk := {
  chunk_id : string;
  chunk_text : string;
  chunk_source : option MetaVal;
  chunk_timestamp : MetaVal;
  chunk_metadata : option (gmap string MetaVal)
}.

Record RAGResult := {
  res_id : string;
  res_content : string;
  res_score : Q;
  res_metadata : gmap string MetaVal
}.

Record RAGSearchOptions := {
  opt_query : string;
  opt_knowledgeBase : string;
  opt_k : option Z;
  opt_similarityThreshold : option Q
}.

(** ** JavaScript [Map] in insertion order *)

Module JsMap.
Section JsMap.
Context {K V : Type} `{EqDecision K}.

Fixpoint get (k : K) (m : list (K * V)) : option V :=
  match m with
  | [] => None
  | (k', v) :: rest => if decide (k' = k) then Some v else get k rest
  end.

(** [Map.prototype.delete]: the entry of [k], if any, disappears and the
    order of the others is kept. *)
Fixpoint delete (k : K) (m : list (K * V)) : list (K * V) :=
  match m with
  | [] => []
  | (k', v) :: rest =>
      if decide (k' = k) then delete k rest else (k', v) :: delete k rest
  end.

(** [Map.prototype.set]: an existing key keeps its place, a new key goes
    last. *)
Fixpoint set (k : K) (v : V) (m : list (K * V)) : list (K * V) :=
  match m with
  | [] => [(k, v)]
  | (k', v') :: rest =>
      if decide (k' = k) then (k, v) :: rest else (k', v') :: set k v rest
  end.

Definition keys (m : list (K * V)) : list K := map fst m.

(** [map.keys().next().value] *)
Definition first_key (m : list (K * V)) : option K := head (keys m).

Definition size (m : list (K * V)) : nat := length m.
End JsMap.
End JsMap.

(** ** SearchCache *)

(** The cache key is the string [`${knowledgeBase}-${md5(JSON.stringify(
    queryVector))}-${k}`]. The digest is taken to be injective on the
    numbers of the vector, so the key is the triple itself, each rational
    in lowest terms. Such a string is never empty. *)
Definition CacheKey : Type := string * list Q * Z.

Definition getCacheKey (knowledgeBase : string) (queryVector : Vec) (k : Z)
  : CacheKey := (knowledgeBase, map Qred queryVector, k).

Record CacheEntry := {
  ce_result : list RAGResult;
  ce_timestamp : Z
}.

Record SearchCache := {
  cache : list (CacheKey * CacheEntry);
  hits : nat;
  misses : nat;
  maxSize : Z;
  ttl : Z
}.

Definition SearchCache_new (maxSize ttl : Z) : SearchCache :=
  {| cache := []; hits := 0; misses := 0; maxSize := maxSize; ttl := ttl |}.

Definition SearchCache_get (c : SearchCache) (knowledgeBase : string)
    (queryVector : Vec) (k : Z) (now : Z)
  : option (list RAGResult) * SearchCache :=
  let key := getCacheKey knowledgeBase queryVector k in
  match JsMap.get key (cache c) with
  | Some entry =>
      if now - ce_timestamp entry <? ttl c then
        (Some (ce_result entry),
         {| cache := cache c; hits := S (hits c); misses := misses c;
            maxSize := maxSize c; ttl := ttl c |})
      else
        (None,
         {| cache := JsMap.delete key (cache c); hits := hits c;
            misses := S (misses c); maxSize := maxSize c; ttl := ttl c |})
  | None =>
      (None,
       {| cache := JsMap.delete key (cache c); hits := hits c;
          misses := S (misses c); maxSize := maxSize c; ttl := ttl c |})
  end.

Definition SearchCache_set (c : SearchCache) (knowledgeBase : string)
    (queryVector : Vec) (k : Z) (result : list RAGResult) (now : Z)
  : SearchCache :=
  let key := getCacheKey knowledgeBase queryVector k in
  let evicted :=
    if maxSize c <=? Z.of_nat (JsMap.size (cache c)) then
      match JsMap.first_key (cache c) with
      | Some firstKey => JsMap.delete firstKey (cache c)
      | None => cache c
      end
    else cache c in
  {| cache := JsMap.set key {| ce_result := result; ce_timestamp := now |} evicted;
     hits := hits c; misses := misses c; maxSize := maxSize c; ttl := ttl c |}.

(** [getStats().hitRateNumber] and [getStats().size]. *)
Definition SearchCache_hitRateNumber (c : SearchCache) : Q :=
  let total := (hits c + misses c)%nat in
  if (0 <? total)%nat
  then (inject_Z (Z.of_nat (hits c)) / inject_Z (Z.of_nat total) * 100)%Q
  else 0%Q.

Definition SearchCache_clear (c : SearchCache) : SearchCache :=
  {| cache := []; hits := 0; misses := 0; maxSize := maxSize c; ttl := ttl c |}.

(** ** The vector index (hnswlib-node's [HierarchicalNSW]) *)

(** Modelled from the spec: the vector-index library is an external
    dependency whose source is not part of the repository. The model
    follows the capability interface of the specification (section 4.1):
    an index has a fixed dimension and a capacity, stores points in
    insertion order under caller-chosen ordinals, and [insert] fails when
    the ordinal is not below the capacity. The nearest-neighbour query
    itself is a parameter ([searchKnn] below). *)
Record Index := {
  idx_dim : nat;
  idx_maxElements : nat;
  idx_points : list (nat * Vec);
  idx_ef : nat
}.

Definition getCurrentCount (index : Index) : nat := length (idx_points index).
Definition getMaxElements (index : Index) : nat := idx_maxElements index.

(** [new HierarchicalNSW('cosine', dim)] followed by
    [initIndex(capacity, 16, 200, 100)]. *)
Definition initIndex (dim capacity : nat) : Index :=
  {| idx_dim := dim; idx_maxElements := capacity; idx_points := []; idx_ef := 0 |}.

Definition setEf (index : Index) (ef : nat) : Index :=
  {| idx_dim := idx_dim index; idx_maxElements := idx_maxElements index;
     idx_points := idx_points index; idx_ef := ef |}.

(** Modelled from the spec: [grow(newCapacity)] "reallocates to a larger
    fixed capacity"; the stored points are kept. *)
Definition resizeIndex (index : Index) (newCapacity : nat) : Index :=
  {| idx_dim := idx_dim index; idx_maxElements := newCapacity;
     idx_points := idx_points index; idx_ef := idx_ef index |}.

(** Modelled from the spec: [insert(vector, ordinal)] "fails with
    CapacityExceeded if ordinal >= capacity"; otherwise the point is stored.
    [addDocumentsToKB] always passes the current count as ordinal, so the
    test is also the one on the number of stored points. *)
Definition addPoint (index : Index) (point : Vec) (label : nat) : Outcome Index :=
  if (idx_maxElements index <=? label)%nat then Throw IndexError
  else Ok {| idx_dim := idx_dim index; idx_maxElements := idx_maxElements index;
             idx_points := idx_points index ++ [(label, point)];
             idx_ef := idx_ef index |}.

(** The two parallel arrays returned by [searchKnn]. *)
Record KnnResult := {
  neighbors : list nat;
  distances : list Q
}.

(** ** Service state *)

Record Config := {
  workDir : string;
  dimensions : nat;      (* [config.vectorizer.dimensions] *)
  efSearch : nat
}.

Record Stats := {
  totalSearches : nat;
  avgSearchTime : Q
}.

(** What a file of the working directory decodes to: a serialized index, a
    chunk map in JSON, or bytes that neither [readIndex] nor [JSON.parse]
    accepts. *)
Inductive FileData :=
  | FIndex (index : Index)
  | FChunks (chunkMap : gmap nat Chunk)
  | FCorrupt.

(** Calls made on the vector index, in the order they happen. The trace is
    a ghost field: no operation reads it. *)
Inductive Event :=
  | EvInitIndex (knowledgeBase : string) (capacity : nat)
  | EvResizeIndex (knowledgeBase : string) (newCapacity : nat)
  | EvAddPoint (knowledgeBase : string) (label : nat)
  | EvSearchKnn (knowledgeBase : string) (currentCount : nat) (k : nat).

Record State := {
  config : Config;
  indices : gmap string Index;
  chunkMaps : gmap string (gmap nat Chunk);
  searchCache : SearchCache;
  stats : Stats;
  disk : gmap string FileData;
  trace : list Event
}.

Definition set_indices (f : gmap string Index -> gmap string Index) (st : State) :=
  {| config := config st; indices := f (indices st); chunkMaps := chunkMaps st;
     searchCache := searchCache st; stats := stats st; disk := disk st;
     trace := trace st |}.

Definition set_chunkMaps
    (f : gmap string (gmap nat Chunk) -> gmap string (gmap nat Chunk)) (st : State) :=
  {| config := config st; indices := indices st; chunkMaps := f (chunkMaps st);
     searchCache := searchCache st; stats := stats st; disk := disk st;
     trace := trace st |}.

Definition set_searchCache (f : SearchCache -> SearchCache) (st : State) :=
  {| config := config st; indices := indices st; chunkMaps := chunkMaps st;
     searchCache := f (searchCache st); stats := stats st; disk := disk st;
     trace := trace st |}.

Definition set_stats (f : Stats -> Stats) (st : State) :=
  {| config := config st; indices := indices st; chunkMaps := chunkMaps st;
     searchCache := searchCache st; stats := f (stats st); disk := disk st;
     trace := trace st |}.

Definition set_disk (f : gmap string FileData -> gmap string FileData) (st : State) :=
  {| config := config st; indices := indices st; chunkMaps := chunkMaps st;
     searchCache := searchCache st; stats := stats st; disk := f (disk st);
     trace := trace st |}.

Definition set_trace (f : list Event -> list Event) (st : State) :=
  {| config := config st; indices := indices st; chunkMaps := chunkMaps st;
     searchCache := searchCache st; stats := stats st; disk := disk st;
     trace := f (trace st) |}.

(** The state built by the constructor, over a given disk. *)
Definition RAGService_new (cfg : Config) (files : gmap string FileData) : State :=
  {| config := cfg; indices := ∅; chunkMaps := ∅;
     searchCache := SearchCache_new 100 60000;
     stats := {| totalSearches := 0; avgSearchTime := 0 |};
     disk := files; trace := [] |}.

(** [this.config.vectorizer.dimensions || 1536] *)
Definition getDimensions (cfg : Config) : nat :=
  if (dimensions cfg =? 0)%nat then 1536%nat else dimensions cfg.

(** ** Paths *)

(** Node's [path.join] on a POSIX system. The arguments that are not empty
    are joined by ["/"] and the result is normalised: it is cut into
    segments at every ["/"], empty segments and ["."] are dropped, [".."]
    removes the segment before it (above the start of a relative path it
    is kept, above the root it is dropped), and the segments left are
    joined again. So ['b'] and ['./b'] name the same file. *)
Fixpoint segments (s : string) : list string :=
  match s with
  | EmptyString => [EmptyString]
  | String c rest =>
      if Ascii.eqb c "/"%char then EmptyString :: segments rest
      else match segments rest with
           | seg :: more => String c seg :: more
           | [] => [String c EmptyString]
           end
  end.

(** One step of [normalizeString]: the segments kept so far, the last one
    first, and the next segment. *)
Definition normalizeStep (allowAboveRoot : bool) (kept : list string)
    (seg : string) : list string :=
  if decide (seg = "" ∨ seg = ".") then kept
  else if decide (seg = "..") then
    match kept with
    | top :: below =>
        if decide (top = "..") then (if allowAboveRoot then ".." :: kept else kept)
        else below
    | [] => if allowAboveRoot then [".."] else []
    end
  else seg :: kept.

Fixpoint joinSegments (segs : list string) : string :=
  match segs with
  | [] => ""
  | [seg] => seg
  | seg :: rest => seg +:+ "/" +:+ joinSegments rest
  end.

Definition startsWithSlash (s : string) : bool :=
  match s with
  | String c _ => Ascii.eqb c "/"%char
  | EmptyString => false
  end.

Fixpoint endsWithSlash (s : string) : bool :=
  match s with
  | EmptyString => false
  | String c EmptyString => Ascii.eqb c "/"%char
  | String _ rest => endsWithSlash rest
  end.

(** [path.posix.normalize] *)
Definition normalize (path : string) : string :=
  if decide (path = "") then "."
  else
    let isAbsolute := startsWithSlash path in
    let trailingSeparator := endsWithSlash path in
    let kept := fold_left (normalizeStep (negb isAbsolute)) (segments path) [] in
    match kept with
    | [] => if isAbsolute then "/" else if trailingSeparator then "./" else "."
    | _ =>
        (if isAbsolute then "/" else "") +:+ joinSegments (rev kept)
          +:+ (if trailingSeparator then "/" else "")
    end.

(** [path.join(a, b)] *)
Definition path_join (a b : string) : string :=
  if decide (a = "") then normalize b
  else if decide (b = "") then normalize a
  else normalize (a +:+ "/" +:+ b).

(** [path.join(workDir, `${name}.hnsw`)] and [`${name}.chunks.json`]. *)
Definition indexPath (cfg : Config) (name : string) : string :=
  path_join (workDir cfg) (name +:+ ".hnsw").
Definition chunkPath (cfg : Config) (name : string) : string :=
  path_join (workDir cfg) (name +:+ ".chunks.json").

(** What a write to a file does: it succeeds, or it throws and leaves the
    file as it was, or damaged (a write that stopped half-way). *)
Inductive WriteResult :=
  | Written
  | WriteFailed (e : JsError) (damaged : bool).

(** ** The monad of service operations *)

Definition M (A : Type) : Type := State -> Outcome A * State.

Global Instance M_ret : MRet M := fun A a st => (Ok a, st).
Global Instance M_bind : MBind M := fun A B f m st =>
  match m st with
  | (Ok a, st') => f a st'
  | (Throw e, st') => (Throw e, st')
  end.

Definition throw {A} (e : JsError) : M A := fun st => (Throw e, st).
Definition gets {A} (f : State -> A) : M A := fun st => (Ok (f st), st).
Definition modify (f : State -> State) : M unit := fun st => (Ok tt, f st).
Definition lift {A} (o : Outcome A) : M A := fun st => (o, st).
Definition emit (ev : Event) : M unit := modify (set_trace (fun t => t ++ [ev])).

(** ** RAGService *)

(** [const similarity = 1 / (1 + distance)] *)
Definition similarity (distance : Q) : Q := (1 / (1 + distance))%Q.

(** The object built for one neighbour by the callback of
    [result.neighbors.map] in [search]. *)
Definition toResult (chunkMap : gmap nat Chunk) (neighborIdx : nat) (distance : Q)
  : RAGResult :=
  let chunk := chunkMap !! neighborIdx in
  {| res_id :=
       or_else truthy_string (chunk_id <$> chunk) ("chunk-" +:+ pretty neighborIdx);
     res_content := or_else truthy_string (chunk_text <$> chunk) "";
     res_score := similarity distance;
     res_metadata :=
       match chunk with
       | Some c =>
           default ∅ (chunk_metadata c) ∪
           <["timestamp" := chunk_timestamp c]>
             (match chunk_source c with
              | Some s => {["source" := s]}
              | None => ∅
              end)
       | None => ∅
       end |}.

(** [neighbors.map(...).filter(r => r.score >= similarityThreshold)]. The
    callback reads [result.distances[i]]; a neighbour without a distance
    would get the score [NaN] and be filtered out, which [combine] gives
    by stopping at the shorter array. *)
Definition scoreAndFilter (chunkMap : gmap nat Chunk) (result : KnnResult)
    (similarityThreshold : Q) : list RAGResult :=
  List.filter (fun r => Qle_bool similarityThreshold (res_score r))
    (map (fun nd => toResult chunkMap (fst nd) (snd nd))
       (combine (neighbors result) (distances result))).

(** The immediately-invoked function that computes [effectiveK]. *)
Definition effectiveK (kInput : Z) (currentCount maxElements : nat) : Z :=
  let value :=
    Z.min kInput (if (currentCount =? 0)%nat then 1 else Z.of_nat currentCount) in
  let value :=
    if negb (maxElements =? 0)%nat && (Z.of_nat maxElements <? value)
    then Z.of_nat maxElements else value in
  Z.max 1 value.

(** [options.k || 10] *)
Definition kInputOf (options : RAGSearchOptions) : Z :=
  or_else (fun z => negb (z =? 0)) (opt_k options) 10.

(** [options.similarityThreshold || 0.0] *)
Definition thresholdOf (options : RAGSearchOptions) : Q :=
  or_else (fun q => negb (Qeq_bool q 0)) (opt_similarityThreshold options) 0%Q.

(** The chunk stored for [docs[i]] at ordinal [currentIdx]; [now] stands
    for [new Date()]. *)
Definition mkChunk (doc : RAGDocument) (currentIdx : nat) (now : Z) : Chunk :=
  {| chunk_id := or_else truthy_string (doc_id doc) ("doc-" +:+ pretty currentIdx);
     chunk_text := doc_content doc;
     chunk_source := doc_metadata doc ≫= (.!! "source");
     chunk_timestamp :=
       or_else truthy_meta (doc_metadata doc ≫= (.!! "timestamp")) (MNum now);
     chunk_metadata := doc_metadata doc |}.

(** The [for] loop of [addDocumentsToKB] over the embeddings that are left,
    at loop index [i] and ordinal [currentIdx]. It returns the index and
    the chunk map as mutated when the loop ended or threw, and the
    ordinals given to [addPoint]. *)
Fixpoint addPoints (docs : list RAGDocument) (now : Z) (embeddings : list Vec)
    (i currentIdx : nat) (index : Index) (chunkMap : gmap nat Chunk)
  : Outcome unit * Index * gmap nat Chunk * list nat :=
  match embeddings with
  | [] => (Ok tt, index, chunkMap, [])
  | e :: rest =>
      match addPoint index e currentIdx with
      | Throw err => (Throw err, index, chunkMap, [])
      | Ok index' =>
          match docs !! i with
          | None => (Throw TypeError, index', chunkMap, [currentIdx])
          | Some doc =>
              let chunkMap' := <[currentIdx := mkChunk doc currentIdx now]> chunkMap in
              let '(o, index'', chunkMap'', labels) :=
                addPoints docs now rest (S i) (S currentIdx) index' chunkMap' in
              (o, index'', chunkMap'', currentIdx :: labels)
          end
      end
  end.

(** The grouping loop of [addDocuments]: a [Map] from knowledge base to the
    documents pushed for it, in the order the knowledge bases first
    appear. *)
Definition groupDocs (docs : list RAGDocument)
  : list (string * list RAGDocument) :=
  fold_left
    (fun grouped doc =>
       let existing := default [] (JsMap.get (doc_knowledgeBase doc) grouped) in
       JsMap.set (doc_knowledgeBase doc) (existing ++ [doc]) grouped)
    docs [].

(** The clock readings of one [search] call, in program order. *)
Record SearchClock := {
  t_start : Z;    (* [const startTime = Date.now()] *)
  t_get : Z;      (* inside [searchCache.get] *)
  t_set : Z;      (* inside [searchCache.set] *)
  t_end : Z       (* [Date.now() - startTime] *)
}.

Record StatusMetrics := {
  m_totalSearches : nat;
  m_avgSearchTime : Q;
  m_cacheHitRate : Q;
  m_cacheSize : nat
}.

Section Service.
(** The embedding provider ([getEmbeddings]: one HTTP call). *)
Variable getEmbeddings : list string -> Outcome (list Vec).
(** The nearest-neighbour query of the index library. *)
Variable searchKnn : Index -> Vec -> nat -> Outcome KnnResult.
(** The outcome of writing the given content to the file at a path
    ([index.writeIndex], and [JSON.stringify] followed by
    [fs.writeFile]). *)
Variable tryWrite : string -> FileData -> WriteResult.

Definition writeTo (path : string) (data : FileData) : M unit :=
  fun st =>
    match tryWrite path data with
    | Written => (Ok tt, set_disk <[path := data]> st)
    | WriteFailed e damaged =>
        (Throw e, if damaged then set_disk <[path := FCorrupt]> st else st)
    end.

(** [saveIndex]: [index.writeIndex(path.join(workDir, `${name}.hnsw`))]. *)
Definition saveIndex (name : string) (index : Index) : M unit :=
  fun st => writeTo (indexPath (config st) name) (FIndex index) st.

(** [saveChunkMap]: [fs.writeFile(path.join(workDir,
    `${name}.chunks.json`), JSON.stringify(chunkMap, null, 2))]. *)
Definition saveChunkMap (name : string) (chunkMap : gmap nat Chunk) : M unit :=
  fun st => writeTo (chunkPath (config st) name) (FChunks chunkMap) st.

(** [embeddings[0]]; with an empty answer the query vector is
    [undefined], and hashing it for the cache key throws. *)
Definition getEmbedding (text : string) : M Vec :=
  embeddings ← lift (getEmbeddings [text]);
  match embeddings with
  | v :: _ => mret v
  | [] => throw TypeError
  end.

Definition getOrLoadIndex (knowledgeBase : string) : M (option Index) :=
  fun st =>
    match indices st !! knowledgeBase with
    | Some index => (Ok (Some index), st)
    | None =>
        (* [try { ... } catch (error) { return null; }] *)
        match disk st !! indexPath (config st) knowledgeBase with
        | Some (FIndex stored) =>
            let index := setEf stored (efSearch (config st)) in
            match disk st !! chunkPath (config st) knowledgeBase with
            | Some (FChunks chunkMap) =>
                (Ok (Some index),
                 set_chunkMaps <[knowledgeBase := chunkMap]>
                   (set_indices <[knowledgeBase := index]> st))
            | _ => (Ok None, st)
            end
        | _ => (Ok None, st)
        end
    end.

Definition recordMetric (type : string) (duration : Z) : M unit :=
  if decide (type = "search") then
    modify (set_stats (fun s =>
      let n := S (totalSearches s) in
      {| totalSearches := n;
         avgSearchTime :=
           ((avgSearchTime s * inject_Z (Z.of_nat (n - 1)) + inject_Z duration)
            / inject_Z (Z.of_nat n))%Q |}))
  else mret tt.

Definition search (options : RAGSearchOptions) (clock : SearchClock)
  : M (list RAGResult) :=
  let kInput := kInputOf options in
  let similarityThreshold := thresholdOf options in
  let knowledgeBase := opt_knowledgeBase options in
  queryVector ← getEmbedding (opt_query options);
  cached ← (fun st =>
    let '(r, c) :=
      SearchCache_get (searchCache st) knowledgeBase queryVector kInput
        (t_get clock) in
    (Ok r, set_searchCache (fun _ => c) st));
  match cached with
  | Some results => mret results
  | None =>
      index ← getOrLoadIndex knowledgeBase;
      match index with
      | None => mret []
      | Some index =>
          let currentCount := getCurrentCount index in
          let k := Z.to_nat
            (effectiveK kInput currentCount (getMaxElements index)) in
          _ ← emit (EvSearchKnn knowledgeBase currentCount k);
          result ← lift (searchKnn index queryVector k);
          chunkMap ← gets (fun st => default ∅ (chunkMaps st !! knowledgeBase));
          let results := scoreAndFilter chunkMap result similarityThreshold in
          _ ← modify (set_searchCache (fun c =>
                 SearchCache_set c knowledgeBase queryVector kInput results
                   (t_set clock)));
          _ ← recordMetric "search" (t_end clock - t_start clock);
          mret results
      end
  end.

(** [getMaxElements] and [resizeIndex] are methods of every
    [HierarchicalNSW], so the [typeof ... === 'function'] test holds.
    [Math.floor(maxElements * 1.5)] is [3 * maxElements / 2] in integer
    division. *)
Definition addDocumentsToKB (knowledgeBase : string) (docs : list RAGDocument)
    (now : Z) : M unit :=
  fun st =>
  match getEmbeddings (map doc_content docs) with
  | Throw err => (Throw err, st)
  | Ok embeddings =>
    let cfg := config st in
    let stored := chunkMaps st !! knowledgeBase in
    let chunkMap := default ∅ stored in
    let '(index, events) :=
      match indices st !! knowledgeBase with
      | None =>
          let initialCapacity := (length docs + 256) `max` 1024 in
          (setEf (initIndex (getDimensions cfg) initialCapacity) (efSearch cfg),
           [EvInitIndex knowledgeBase initialCapacity])
      | Some index =>
          let currentCount := getCurrentCount index in
          let maxElements := getMaxElements index in
          let required := (currentCount + length embeddings)%nat in
          if (maxElements <? required)%nat then
            let newCapacity := (required + 256) `max` (3 * maxElements / 2) in
            (resizeIndex index newCapacity,
             [EvResizeIndex knowledgeBase newCapacity])
          else (index, [])
      end%nat in
    let '(o, index', chunkMap', labels) :=
      addPoints docs now embeddings 0 (getCurrentCount index) index chunkMap in
    let st1 :=
      set_trace (fun t => t ++ events ++ map (EvAddPoint knowledgeBase) labels)
        (set_indices <[knowledgeBase := index']> st) in
    match o with
    | Throw err =>
        (* the chunk map object is shared with [chunkMaps] only when it
           was found there *)
        (Throw err,
         match stored with
         | Some _ => set_chunkMaps <[knowledgeBase := chunkMap']> st1
         | None => st1
         end)
    | Ok _ =>
        (_ ← saveIndex knowledgeBase index';
         saveChunkMap knowledgeBase chunkMap')
          (set_chunkMaps <[knowledgeBase := chunkMap']> st1)
    end
  end.

Fixpoint addGroups (groups : list (string * list RAGDocument)) (now : Z)
  : M unit :=
  match groups with
  | [] => mret tt
  | (knowledgeBase, kbDocs) :: rest =>
      _ ← addDocumentsToKB knowledgeBase kbDocs now;
      addGroups rest now
  end.

Definition addDocuments (docs : list RAGDocument) (now : Z) : M unit :=
  match docs with
  | [] => mret tt
  | _ => addGroups (groupDocs docs) now
  end.

Definition addDocument (doc : RAGDocument) (now : Z) : M unit :=
  addDocuments [doc] now.

(** Only [this.log(...)]. *)
Definition removeDocument (id : string) : M unit := mret tt.

Definition updateDocument (id : string) (doc : PartialDocument) (now : Z)
  : M unit :=
  match pd_knowledgeBase doc with
  | Some knowledgeBase =>
      if truthy_string knowledgeBase then
        _ ← removeDocument id;
        match pd_content doc with
        | Some content =>
            if truthy_string content then
              addDocument {| doc_id := Some id; doc_content := content;
                             doc_knowledgeBase := knowledgeBase;
                             doc_metadata := pd_metadata doc |} now
            else mret tt
        | None => mret tt
        end
      else mret tt
  | None => mret tt
  end.

(** [fs.unlink]: fails with [ENOENT] when there is no such file. *)
Definition unlink (path : string) : M unit :=
  fun st =>
    match disk st !! path with
    | Some _ => (Ok tt, set_disk (delete path) st)
    | None => (Throw ENOENT, st)
    end.

Definition removeKnowledgeBase (name : string) : M unit :=
  fun st =>
    let st1 := set_chunkMaps (delete name) (set_indices (delete name) st) in
    (* [try { unlink; unlink } catch (error) { }] *)
    match (_ ← unlink (indexPath (config st1) name);
           unlink (chunkPath (config st1) name)) st1 with
    | (_, st2) => (Ok tt, st2)
    end.

Definition getStatus_metrics (st : State) : StatusMetrics :=
  {| m_totalSearches := totalSearches (stats st);
     m_avgSearchTime := avgSearchTime (stats st);
     m_cacheHitRate := SearchCache_hitRateNumber (searchCache st);
     m_cacheSize := JsMap.size (cache (searchCache st)) |}.

Definition getStatus_knowledgeBases (st : State) : list (string * nat) :=
  map_to_list (getCurrentCount <$> indices st).

End Service.

(** ** The rest of the two classes *)

(** [SearchCache.getStats()]; the field [hitRate], the same number printed
    with two decimals and a percent sign, is left out. *)
Record CacheStats := {
  cs_hits : nat;
  cs_misses : nat;
  cs_hitRateNumber : Q;
  cs_size : nat;
  cs_maxSize : Z
}.

Definition SearchCache_getStats (c : SearchCache) : CacheStats :=
  {| cs_hits := hits c; cs_misses := misses c;
     cs_hitRateNumber := SearchCache_hitRateNumber c;
     cs_size := JsMap.size (cache c); cs_maxSize := maxSize c |}.

(** The object returned by [getStatus]; [status] is always ['healthy'] and
    [lastUpdate] is the time of the call. The entries of [knowledgeBases]
    come in the order of the [indices] map, which a [gmap] does not keep:
    only membership in the list is meaningful. *)
Record RAGServiceStatus := {
  rs_knowledgeBases : list (string * nat);
  rs_metrics : StatusMetrics
}.

Definition getStatus : M RAGServiceStatus :=
  gets (fun st =>
    {| rs_knowledgeBases := getStatus_knowledgeBases st;
       rs_metrics := getStatus_metrics st |}).

Section Shutdown.
Variable tryWrite : string -> FileData -> WriteResult.

(** The loop of [shutdown]: [saveIndex] for every entry of [this.indices]
    in turn; the first write that fails ends it. *)
Fixpoint saveAll (names : list string) : M unit :=
  match names with
  | [] => mret tt
  | name :: rest =>
      fun st =>
        match indices st !! name with
        | Some index => (_ ← saveIndex tryWrite name index; saveAll rest) st
        | None => saveAll rest st
        end
  end.

(** [shutdown]: every open index is written to its file, then the cache and
    the two maps are cleared. [names] are the keys of [this.indices] in the
    order of that [Map], which a [gmap] does not keep. Neither the chunk
    maps nor the statistics are touched on the way. *)
Definition shutdown (names : list string) : M unit :=
  _ ← saveAll names;
  modify (fun st =>
    set_chunkMaps (fun _ => ∅)
      (set_indices (fun _ => ∅) (set_searchCache SearchCache_clear st))).

End Shutdown.

(** *** Configuration *)

(** [config.vectorizer] and [Required<RAGConfig>], with the fields of the
    object literal in the constructor. *)
Record VectorizerConfig := {
  v_apiUrl : string;
  v_apiKey : string;
  v_model : string;
  v_dimensions : nat
}.

Record RequiredRAGConfig := {
  rc_workDir : string;
  rc_vectorizer : VectorizerConfig;
  rc_changeThreshold : Q;
  rc_maxMemoryUsage : nat;
  rc_cacheSize : Z;
  rc_cacheTTL : Z;
  rc_efSearch : nat;
  rc_debug : bool
}.

(** [RAGConfig], the argument of [initialize]: every property may be
    missing, also inside [vectorizer]. *)
Record VectorizerOptions := {
  vo_apiUrl : option string;
  vo_apiKey : option string;
  vo_model : option string;
  vo_dimensions : option nat
}.

Record RAGConfig := {
  o_workDir : option string;
  o_vectorizer : option VectorizerOptions;
  o_changeThreshold : option Q;
  o_maxMemoryUsage : option nat;
  o_cacheSize : option Z;
  o_cacheTTL : option Z;
  o_efSearch : option nat;
  o_debug : option bool
}.

(** [{ ...this.config.vectorizer, ...config.vectorizer }] *)
Definition mergeVectorizer (old : VectorizerConfig) (new : VectorizerOptions)
  : VectorizerConfig :=
  {| v_apiUrl := default (v_apiUrl old) (vo_apiUrl new);
     v_apiKey := default (v_apiKey old) (vo_apiKey new);
     v_model := default (v_model old) (vo_model new);
     v_dimensions := default (v_dimensions old) (vo_dimensions new) |}.

(** [{ ...this.config, ...config, vectorizer: config.vectorizer ? {...} :
    this.config.vectorizer }] *)
Definition mergeConfig (old : RequiredRAGConfig) (new : RAGConfig)
  : RequiredRAGConfig :=
  {| rc_workDir := default (rc_workDir old) (o_workDir new);
     rc_vectorizer :=
       match o_vectorizer new with
       | Some v => mergeVectorizer (rc_vectorizer old) v
       | None => rc_vectorizer old
       end;
     rc_changeThreshold := default (rc_changeThreshold old) (o_changeThreshold new);
     rc_maxMemoryUsage := default (rc_maxMemoryUsage old) (o_maxMemoryUsage new);
     rc_cacheSize := default (rc_cacheSize old) (o_cacheSize new);
     rc_cacheTTL := default (rc_cacheTTL old) (o_cacheTTL new);
     rc_efSearch := default (rc_efSearch old) (o_efSearch new);
     rc_debug := default (rc_debug old) (o_debug new) |}.

(** The three configuration fields that the operations read. *)
Definition configView (rc : RequiredRAGConfig) : Config :=
  {| workDir := rc_workDir rc; dimensions := v_dimensions (rc_vectorizer rc);
     efSearch := rc_efSearch rc |}.

Definition set_config (cfg : Config) (st : State) : State :=
  {| config := cfg; indices := indices st; chunkMaps := chunkMaps st;
     searchCache := searchCache st; stats := stats st; disk := disk st;
     trace := trace st |}.

(** The service object: [State] holds the configuration fields that the
    operations read, and the whole [this.config] is kept beside it. *)
Record Service := {
  this_config : RequiredRAGConfig;
  this_state : State
}.

(** The constructor, for the working directory and the vectorizer settings
    that it takes from the environment; the other fields are the literals
    of the source. The cache is built here, from [cacheSize] and
    [cacheTTL]. *)
Definition Service_new (workDir : string) (vectorizer : VectorizerConfig)
    (files : gmap string FileData) : Service :=
  let cfg :=
    {| rc_workDir := workDir; rc_vectorizer := vectorizer;
       rc_changeThreshold := 1 # 2; rc_maxMemoryUsage := 500 * 1024 * 1024;
       rc_cacheSize := 100; rc_cacheTTL := 60000; rc_efSearch := 150;
       rc_debug := false |} in
  {| this_config := cfg;
     this_state :=
       {| config := configView cfg; indices := ∅; chunkMaps := ∅;
          searchCache := SearchCache_new (rc_cacheSize cfg) (rc_cacheTTL cfg);
          stats := {| totalSearches := 0; avgSearchTime := 0 |};
          disk := files; trace := [] |} |}.

(** [initialize(config?)]: the configuration is merged and the working
    directory created (directories are not part of the disk model). *)
Definition initialize (config : option RAGConfig) (s : Service) : Service :=
  let cfg :=
    match config with
    | Some c => mergeConfig (this_config s) c
    | None => this_config s
    end in
  {| this_config := cfg; this_state := set_config (configView cfg) (this_state s) |}.

(** * Specification-level definitions *)

(** ** Order on scores and distances *)

Global Instance Qle_decision (x y : Q) : Decision (x <= y)%Q :=
  match Qlt_le_dec y x with
  | left Hlt => right (Qlt_not_le y x Hlt)
  | right Hle => left Hle
  end.

(** Results in non-increasing order of score. *)
Definition score_ge (r1 r2 : RAGResult) : Prop := (res_score r2 <= res_score r1)%Q.
Definition sorted_by_score (results : list RAGResult) : Prop :=
  StronglySorted score_ge results.

(** What the index library promises about a query for [k] neighbours: at
    most [k] of them, nearest first, at distances above -1 (a cosine
    distance lies between 0 and 2, up to rounding). *)
Definition knn_answer_ok (k : nat) (r : KnnResult) : Prop :=
  (length (neighbors r) <= k)%nat ∧
  StronglySorted Qle (distances r) ∧
  Forall (Qlt (-1)) (distances r).

Definition knn_contract (searchKnn : Index -> Vec -> nat -> Outcome KnnResult)
  : Prop :=
  ∀ index q k r, searchKnn index q k = Ok r -> knn_answer_ok k r.

(** ** A reference index and provider, used to run the model *)

Definition sqdist (a b : Vec) : Q :=
  fold_right Qplus 0%Q (zip_with (fun x y => ((x - y) * (x - y))%Q) a b).

Definition dot (a b : Vec) : Q := fold_right Qplus 0%Q (zip_with Qmult a b).

Definition isUnit (v : Vec) : bool := Qeq_bool (dot v v) 1.

(** The distance of the ['cosine'] space between two vectors of norm 1. *)
Definition cosineDistance (a b : Vec) : Q := (1 - dot a b)%Q.

Definition nearer (a b : nat * Q) : Prop := (snd a <= snd b)%Q.

Global Instance nearer_decision (a b : nat * Q) : Decision (nearer a b).
Proof. unfold nearer. apply _. Defined.

(** Exhaustive search by cosine distance, for vectors of norm 1 and of the
    dimension of the index. The ['cosine'] space of the library divides
    every vector by its norm, which is not a rational number in general;
    on a vector of norm 1 this changes nothing, and the reference index
    answers for such vectors only: for any other query or stored point it
    fails. *)
Definition exactKnn (index : Index) (q : Vec) (k : nat) : Outcome KnnResult :=
  if forallb (fun v => isUnit v && (length v =? idx_dim index)%nat)
       (q :: map snd (idx_points index))
  then
    let ranked :=
      take k (merge_sort nearer
                (map (fun p => (fst p, cosineDistance q (snd p))) (idx_points index))) in
    Ok {| neighbors := map fst ranked; distances := map snd ranked |}
  else Throw IndexError.

(** The vector of norm 1 at the angle whose half has tangent [n]. *)
Definition unitOfLength (n : nat) : Vec :=
  let t := inject_Z (Z.of_nat n) in
  [((1 - t * t) / (1 + t * t))%Q; (2 * t / (1 + t * t))%Q].

(** A provider that embeds a text as the unit vector of its length. *)
Definition lengthEmbeddings (texts : list string) : Outcome (list Vec) :=
  Ok (map (fun s => unitOfLength (String.length s)) texts).

(** File writes that always succeed. *)
Definition alwaysWritten (path : string) (data : FileData) : WriteResult := Written.

Definition demoConfig : Config :=
  {| workDir := "./VectorStore"; dimensions := 2; efSearch := 150 |}.

Definition demoClock (t : Z) : SearchClock :=
  {| t_start := t; t_get := t + 1; t_set := t + 2; t_end := t + 3 |}.

Definition mkDoc (kb content : string) : RAGDocument :=
  {| doc_id := None; doc_content := content; doc_knowledgeBase := kb;
     doc_metadata := None |}.

Definition mkOptions (kb query : string) (k : option Z) (t : option Q)
  : RAGSearchOptions :=
  {| opt_query := query; opt_knowledgeBase := kb; opt_k := k;
     opt_similarityThreshold := t |}.

(** State after the call, whatever its outcome. *)
Definition exec {A} (m : M A) (st : State) : State := snd (m st).

(** ** Vocabulary of the statements *)

(** The statistics after [recordMetric('search', duration)]. *)
Definition recorded (s : Stats) (duration : Z) : Stats :=
  {| totalSearches := S (totalSearches s);
     avgSearchTime :=
       ((avgSearchTime s * inject_Z (Z.of_nat (S (totalSearches s) - 1))
         + inject_Z duration) / inject_Z (Z.of_nat (S (totalSearches s))))%Q |}.

(** [clamp(x, lo, hi)], the lower bound taking precedence. *)
Definition clamp (x lo hi : Z) : Z := Z.max lo (Z.min x hi).

(** A result list that can be the answer to a request for [kInput]
    results. *)
Definition results_ok (kInput : Z) (results : list RAGResult) : Prop :=
  (length results <= Z.to_nat (Z.max 1 kInput))%nat ∧ sorted_by_score results.

(** Every cached list is an acceptable answer to the request it is filed
    under. *)
Definition cache_ok (c : SearchCache) : Prop :=
  ∀ key entry, (key, entry) ∈ cache c -> results_ok key.2 (ce_result entry).

(** The chunk map of a knowledge base has exactly the ordinals below the
    point count of its index; a knowledge base without an index has no
    chunk map. *)
Definition kb_consistent (st : State) (kb : string) : Prop :=
  match indices st !! kb with
  | Some index =>
      ∃ chunkMap, chunkMaps st !! kb = Some chunkMap ∧
        dom chunkMap = (set_seq 0 (getCurrentCount index) : gset nat)
  | None => chunkMaps st !! kb = None
  end.

(** An index after more points were stored under the given ordinals. *)
Definition withPoints (index : Index) (new : list (nat * Vec)) : Index :=
  {| idx_dim := idx_dim index; idx_maxElements := idx_maxElements index;
     idx_points := idx_points index ++ new; idx_ef := idx_ef index |}.

(** The documents of a batch that go to one knowledge base. *)
Definition docsOf (kb : string) (docs : list RAGDocument) : list RAGDocument :=
  List.filter (fun d => bool_decide (doc_knowledgeBase d = kb)) docs.

(** The provider answers with one vector per text. *)
Definition one_vector_per_text
    (getEmbeddings : list string -> Outcome (list Vec)) : Prop :=
  ∀ texts embeddings,
    getEmbeddings texts = Ok embeddings -> length embeddings = length texts.

(** The index that [addDocumentsToKB] inserts into, once created or
    resized, for a batch of [nDocs] documents and [nEmb] embeddings, and
    the calls that made it so. *)
Definition startIndex (st : State) (kb : string) (nDocs nEmb : nat) : Index :=
  match indices st !! kb with
  | None =>
      setEf (initIndex (getDimensions (config st)) ((nDocs + 256) `max` 1024))
        (efSearch (config st))
  | Some index =>
      if (getMaxElements index <? getCurrentCount index + nEmb)%nat then
        resizeIndex index
          ((getCurrentCount index + nEmb + 256) `max` (3 * getMaxElements index / 2))
      else index
  end%nat.

Definition startEvents (st : State) (kb : string) (nDocs nEmb : nat) : list Event :=
  match indices st !! kb with
  | None => [EvInitIndex kb ((nDocs + 256) `max` 1024)]
  | Some index =>
      if (getMaxElements index <? getCurrentCount index + nEmb)%nat then
        [EvResizeIndex kb
           ((getCurrentCount index + nEmb + 256) `max` (3 * getMaxElements index / 2))]
      else []
  end%nat.

(** The state after a successful [addDocumentsToKB] that stored the given
    index and chunk map and made the given calls. *)
Definition stored (st : State) (kb : string) (index : Index)
    (chunkMap : gmap nat Chunk) (events : list Event) : State :=
  set_disk (fun d =>
      <[chunkPath (config st) kb := FChunks chunkMap]>
        (<[indexPath (config st) kb := FIndex index]> d))
    (set_chunkMaps <[kb := chunkMap]>
       (set_trace (fun t => t ++ events)
          (set_indices <[kb := index]> st))).

(** The state in which [addDocumentsToKB] turns to the files: the index
    and the chunk map are registered and the calls on the index made. *)
Definition registered (st : State) (kb : string) (index : Index)
    (chunkMap : gmap nat Chunk) (events : list Event) : State :=
  set_chunkMaps <[kb := chunkMap]>
    (set_trace (fun t => t ++ events) (set_indices <[kb := index]> st)).

(** The state that a failed write to [path] leaves. *)
Definition afterFailedWrite (damaged : bool) (path : string) (st : State) : State :=
  if damaged then set_disk <[path := FCorrupt]> st else st.

(** Every write to a file succeeds. *)
Definition writes_succeed (tryWrite : string -> FileData -> WriteResult) : Prop :=
  ∀ path data, tryWrite path data = Written.

(** What the chunk stored for a document at an ordinal holds: the text, the
    id (or [doc-<ordinal>] for a missing or empty id), the metadata, its
    [source], and its [timestamp] or else the time of the call. *)
Definition chunk_of (doc : RAGDocument) (ordinal : nat) (now : Z) (chunk : Chunk)
  : Prop :=
  chunk_text chunk = doc_content doc ∧
  chunk_id chunk
    = match doc_id doc with
      | Some id => if decide (id = "") then "doc-" +:+ pretty ordinal else id
      | None => "doc-" +:+ pretty ordinal
      end ∧
  chunk_metadata chunk = doc_metadata doc ∧
  chunk_source chunk
    = match doc_metadata doc with
      | Some metadata => metadata !! "source"
      | None => None
      end ∧
  chunk_timestamp chunk
    = match doc_metadata doc with
      | Some metadata =>
          match metadata !! "timestamp" with
          | Some (MStr s) => if decide (s = "") then MNum now else MStr s
          | Some (MNum z) => if decide (z = 0) then MNum now else MNum z
          | None => MNum now
          end
      | None => MNum now
      end.

(** [groups] is the batch [docs] split by knowledge base: one group per
    knowledge base that occurs, holding its documents in batch order. *)
Definition grouped_as (groups : list (string * list RAGDocument))
    (docs : list RAGDocument) : Prop :=
  NoDup (JsMap.keys groups) ∧
  ∀ kb, JsMap.get kb groups
        = match docsOf kb docs with [] => None | kbDocs => Some kbDocs end.

(** ** Concrete states *)

(** A provider whose answer carries no vector at all. *)
Definition noEmbeddings (texts : list string) : Outcome (list Vec) := Ok [].

Definition threeDocs : list RAGDocument :=
  [mkDoc "docs" "a"; mkDoc "docs" "bb"; mkDoc "docs" "cccc"].

(** A new service over an empty working directory. *)
Definition stEmpty : State := RAGService_new demoConfig ∅.

(** After [addDocuments(threeDocs)]. *)
Definition stDocs : State :=
  exec (addDocuments lengthEmbeddings alwaysWritten threeDocs 1000) stEmpty.

(** Requests for the neighbours of ["bb"]: two of them, two of them with a
    score of at least [t], none, and five of them. *)
Definition askTwo : RAGSearchOptions := mkOptions "docs" "bb" (Some 2) None.
Definition askTwoAbove (t : Q) : RAGSearchOptions :=
  mkOptions "docs" "bb" (Some 2) (Some t).
Definition askZero : RAGSearchOptions := mkOptions "docs" "bb" (Some 0) None.
Definition askFive : RAGSearchOptions := mkOptions "docs" "bb" (Some 5) None.

(** After a first search for the two neighbours of ["bb"], which fills the
    cache. *)
Definition stSearched : State :=
  exec (search lengthEmbeddings exactKnn askTwo (demoClock 2000)) stDocs.

(** After a batch for which the provider returned no vector: the knowledge
    base exists and holds no point. *)
Definition stNoPoints : State :=
  exec (addDocuments noEmbeddings alwaysWritten [mkDoc "docs" "a"] 1000) stEmpty.

(** A new service over a directory where the index file of ["docs"] is fine
    and its chunk-map file is not JSON. *)
Definition stCorrupt : State :=
  RAGService_new demoConfig
    (<[chunkPath demoConfig "docs" := FCorrupt]>
       (<[indexPath demoConfig "docs" :=
            FIndex (withPoints (initIndex 2 1024) [(0%nat, unitOfLength 1)])]> ∅)).

(** A new service over a directory that holds the chunk-map file of
    ["docs"] and no index file. *)
Definition stOnlyChunks : State :=
  RAGService_new demoConfig (<[chunkPath demoConfig "docs" := FChunks ∅]> ∅).

(** A full cache of two entries, the older one first. *)
Definition cacheFull : SearchCache :=
  {| cache :=
       [(getCacheKey "docs" [1%Q; 1%Q] 2, {| ce_result := []; ce_timestamp := 100 |});
        (getCacheKey "docs" [3%Q; 1%Q] 2, {| ce_result := []; ce_timestamp := 200 |})];
     hits := 0; misses := 2; maxSize := 2; ttl := 60000 |}.

(** The list a call returned, empty if it threw. *)
Definition okResults (o : Outcome (list RAGResult)) : list RAGResult :=
  match o with Ok results => results | Throw _ => [] end.

(** A knowledge base of two chunks whose index is full. *)
Definition stFull : State :=
  set_chunkMaps
    <["docs" := <[1%nat := mkChunk (mkDoc "docs" "bb") 1 1000]>
                 (<[0%nat := mkChunk (mkDoc "docs" "a") 0 1000]> ∅)]>
    (set_indices
       <["docs" := withPoints (setEf (initIndex 2 2) 150)
                     [(0%nat, unitOfLength 1); (1%nat, unitOfLength 2)]]>
       stEmpty).

(** [n] calls of [addDocument], one document each. *)
Fixpoint addOneByOne (n : nat) (st : State) : State :=
  match n with
  | O => st
  | S n' =>
      exec (addDocument lengthEmbeddings alwaysWritten (mkDoc "docs" "a") 1000)
        (addOneByOne n' st)
  end.

(** The capacities to which the index of a knowledge base was resized. *)
Definition resizes (kb : string) (events : list Event) : list nat :=
  omap (fun ev =>
          match ev with
          | EvResizeIndex kb' capacity =>
              if decide (kb' = kb) then Some capacity else None
          | _ => None
          end) events.

(** ** Files of a knowledge base *)

(** The path of the files of a knowledge base without their extension:
    the normalised working directory and name, the last segment of the name
    kept as it is written. *)
Definition basePath (cfg : Config) (name : string) : string :=
  let joined :=
    if decide (workDir cfg = "") then name else workDir cfg +:+ "/" +:+ name in
  let segs := segments joined in
  let kept :=
    fold_left (normalizeStep (negb (startsWithSlash joined))) (List.removelast segs) [] in
  (if startsWithSlash joined then "/" else "")
    +:+ joinSegments (rev (List.last segs "" :: kept)).

(** Two names for the same pair of files. *)
Definition sameFiles (cfg : Config) (a b : string) : Prop :=
  basePath cfg a = basePath cfg b.

(** ** Runs of the service *)

(** The last character of a string. *)
Fixpoint lastChar (s : string) : option Ascii.ascii :=
  match s with
  | EmptyString => None
  | String c rest =>
      match rest with
      | EmptyString => Some c
      | _ => lastChar rest
      end
  end.

(** The two files of a knowledge base, when both decode, agree in the same
    way as its index and chunk map in memory. *)
Definition disk_consistent (st : State) (kb : string) : Prop :=
  ∀ index chunkMap,
    disk st !! indexPath (config st) kb = Some (FIndex index) ->
    disk st !! chunkPath (config st) kb = Some (FChunks chunkMap) ->
    dom chunkMap = (set_seq 0 (getCurrentCount index) : gset nat).

Definition consistent (st : State) : Prop :=
  ∀ kb, kb_consistent st kb ∧ disk_consistent st kb.

(** One call of a public operation, whatever its outcome. *)
Inductive step (getEmbeddings : list string -> Outcome (list Vec))
    (searchKnn : Index -> Vec -> nat -> Outcome KnnResult)
    (tryWrite : string -> FileData -> WriteResult) : State -> State -> Prop :=
  | step_search options clock st :
      step getEmbeddings searchKnn tryWrite st
        (exec (search getEmbeddings searchKnn options clock) st)
  | step_addDocuments docs now st :
      step getEmbeddings searchKnn tryWrite st
        (exec (addDocuments getEmbeddings tryWrite docs now) st)
  | step_updateDocument id doc now st :
      step getEmbeddings searchKnn tryWrite st
        (exec (updateDocument getEmbeddings tryWrite id doc now) st)
  | step_removeDocument id st :
      step getEmbeddings searchKnn tryWrite st (exec (removeDocument id) st)
  | step_removeKnowledgeBase name st :
      step getEmbeddings searchKnn tryWrite st (exec (removeKnowledgeBase name) st).

(** The states of a service started over a working directory whose files
    agree, an empty one for instance. *)
Inductive reachable (getEmbeddings : list string -> Outcome (list Vec))
    (searchKnn : Index -> Vec -> nat -> Outcome KnnResult)
    (tryWrite : string -> FileData -> WriteResult) : State -> Prop :=
  | reachable_new cfg files :
      (∀ kb, disk_consistent (RAGService_new cfg files) kb) ->
      reachable getEmbeddings searchKnn tryWrite (RAGService_new cfg files)
  | reachable_step st st' :
      reachable getEmbeddings searchKnn tryWrite st ->
      step getEmbeddings searchKnn tryWrite st st' ->
      reachable getEmbeddings searchKnn tryWrite st'.

(** ** Vocabulary of the further properties *)

(** The bound that the cache keeps on its number of entries. *)
Definition cacheBound (c : SearchCache) : nat := Z.to_nat (Z.max 1 (maxSize c)).

(** [recordMetric('search', d)] for each duration of a list, in order. *)
Definition recordAll (durations : list Z) (st : State) : State :=
  fold_left (fun acc d => exec (recordMetric "search" d) acc) durations st.

(** The sum of a list of durations. *)
Definition total (durations : list Z) : Z := fold_right Z.add 0 durations.

(** One call on the service object: a public operation, with whatever the
    provider, the index and the file system answer during that call,
    [shutdown] with the indices visited in any order, or [initialize] with
    any configuration. *)
Inductive serviceStep : Service -> Service -> Prop :=
  | serviceStep_operation getEmbeddings searchKnn tryWrite s st' :
      step getEmbeddings searchKnn tryWrite (this_state s) st' ->
      serviceStep s {| this_config := this_config s; this_state := st' |}
  | serviceStep_shutdown tryWrite names s :
      names ≡ₚ (map_to_list (indices (this_state s))).*1 ->
      serviceStep s
        {| this_config := this_config s;
           this_state := exec (shutdown tryWrite names) (this_state s) |}
  | serviceStep_initialize config s :
      serviceStep s (initialize config s).

(** A provider that fails on a batch containing an empty text. *)
Definition strictEmbeddings (texts : list string) : Outcome (list Vec) :=
  if bool_decide ("" ∈ texts) then Throw EmbeddingApiError else lengthEmbeddings texts.

(** A provider that answers every batch with two vectors. *)
Definition twoEmbeddings (texts : list string) : Outcome (list Vec) :=
  Ok [unitOfLength 1; unitOfLength 2].

(** ** Further concrete states *)

(** A new service over the directory that [stDocs] left. *)
Definition stReopened : State := RAGService_new demoConfig (disk stDocs).

(** The index and the chunk map that the files of a knowledge base hold. *)
Definition indexFile (st : State) (kb : string) : Index :=
  match disk st !! indexPath (config st) kb with
  | Some (FIndex index) => index
  | _ => initIndex 0 0
  end.

Definition chunkFile (st : State) (kb : string) : gmap nat Chunk :=
  match disk st !! chunkPath (config st) kb with
  | Some (FChunks chunkMap) => chunkMap
  | _ => ∅
  end.

(** Documents for three knowledge bases, the second with an empty text. *)
Definition mixedDocs : list RAGDocument :=
  [mkDoc "a" "x"; mkDoc "b" ""; mkDoc "c" "y"].

(** After the first group of [mixedDocs] was stored. *)
Definition stFirstGroup : State :=
  exec (addGroups strictEmbeddings alwaysWritten [("a", [mkDoc "a" "x"])] 1000) stEmpty.

(** After [addDocumentsToKB] with a provider that returned two vectors for
    one document. *)
Definition stOverrun : State :=
  exec (addDocumentsToKB twoEmbeddings alwaysWritten "docs" [mkDoc "docs" "a"] 1000) stEmpty.

Definition demoVectorizer : VectorizerConfig :=
  {| v_apiUrl := "http://localhost/v1"; v_apiKey := "key";
     v_model := "text-embedding-3-small"; v_dimensions := 1536 |}.

(** A configuration that names a model, a cache size and a cache TTL. *)
Definition demoOptions : RAGConfig :=
  {| o_workDir := None;
     o_vectorizer :=
       Some {| vo_apiUrl := None; vo_apiKey := None;
               vo_model := Some "text-embedding-3-large"; vo_dimensions := None |};
     o_changeThreshold := None; o_maxMemoryUsage := None;
     o_cacheSize := Some 5; o_cacheTTL := Some 1000;
     o_efSearch := None; o_debug := None |}.

(** A provider that answers the batch [["a"]] with two vectors and every
    other batch with one vector per text. *)
Definition overrunEmbeddings (texts : list string) : Outcome (list Vec) :=
  if decide (texts = ["a"]) then twoEmbeddings texts else lengthEmbeddings texts.

(** File writes that fail, leaving the file as it was, for a chunk map of
    two entries, and succeed otherwise. *)
Definition failsOnTwoChunks (path : string) (data : FileData) : WriteResult :=
  match data with
  | FChunks chunkMap =>
      if decide (size chunkMap = 2%nat) then WriteFailed WriteError false else Written
  | _ => Written
  end.

(** After one document was stored in ["docs"]. *)
Definition stOneDoc : State :=
  exec (addDocuments lengthEmbeddings failsOnTwoChunks [mkDoc "docs" "a"] 1000) stEmpty.

(** A new service over a directory where the index file of ["docs"] holds
    two points and its chunk-map file one chunk. *)
Definition stMismatch : State :=
  RAGService_new demoConfig
    (<[chunkPath demoConfig "docs" :=
         FChunks (<[0%nat := mkChunk (mkDoc "docs" "a") 0 1000]> ∅)]>
       (<[indexPath demoConfig "docs" :=
            FIndex (withPoints (setEf (initIndex 2 1024) 150)
                      [(0%nat, unitOfLength 1); (1%nat, unitOfLength 2)])]> ∅)).

(** The ordinals of a chunk map in increasing order, and its chunks in
    that order as ordinal, id and text. *)
Definition ordinalsOf (chunkMap : gmap nat Chunk) : list nat :=
  merge_sort Nat.le (map fst (map_to_list chunkMap)).

Definition listing (chunkMap : gmap nat Chunk) : list (nat * string * string) :=
  omap (fun ordinal =>
          (fun chunk => (ordinal, chunk_id chunk, chunk_text chunk))
            <$> chunkMap !! ordinal)
    (ordinalsOf chunkMap).

(** The number of points and the ordinals of the chunks that a knowledge
    base has in memory. *)
Definition countAndKeys (st : State) (kb : string) : option nat * option (list nat) :=
  (getCurrentCount <$> indices st !! kb, ordinalsOf <$> chunkMaps st !! kb).

(** An index library whose queries all fail. *)
Definition throwingKnn (index : Index) (q : Vec) (k : nat) : Outcome KnnResult :=
  Throw IndexError.

(** * Properties *)

(** ** JavaScript maps *)

Module JsMapFacts.
Section JsMapFacts.
Context {K V : Type} `{EqDecision K}.
Implicit Types (m : list (K * V)) (k : K) (v : V).

Lemma get_notin k m : k ∉ JsMap.keys m -> JsMap.get k m = None.
Proof.
  induction m as [|[k' v'] m IH]; [done|].
  cbn. intros Hk. apply not_elem_of_cons in Hk as [Hne Hk].
  destruct (decide (k' = k)); [congruence | by apply IH].
Qed.

Lemma get_Some_elem_of k v m : JsMap.get k m = Some v -> (k, v) ∈ m.
Proof.
  induction m as [|[k' v'] m IH]; [done|].
  cbn. destruct (decide (k' = k)) as [->|].
  - intros [= ->]. apply list_elem_of_here.
  - intros Hg. apply list_elem_of_further. by apply IH.
Qed.

Lemma delete_notin k m : k ∉ JsMap.keys m -> JsMap.delete k m = m.
Proof.
  induction m as [|[k' v'] m IH]; [done|].
  cbn. intros Hk. apply not_elem_of_cons in Hk as [Hne Hk].
  destruct (decide (k' = k)); [congruence | by rewrite IH].
Qed.

Lemma delete_head k v m :
  k ∉ JsMap.keys m -> JsMap.delete k ((k, v) :: m) = m.
Proof.
  intros Hk. cbn. rewrite decide_True by done. by apply delete_notin.
Qed.

Lemma set_notin k v m : k ∉ JsMap.keys m -> JsMap.set k v m = m ++ [(k, v)].
Proof.
  induction m as [|[k' v'] m IH]; [done|].
  cbn. intros Hk. apply not_elem_of_cons in Hk as [Hne Hk].
  destruct (decide (k' = k)); [congruence | by rewrite IH].
Qed.

Lemma elem_of_delete k kv m : kv ∈ JsMap.delete k m -> kv ∈ m.
Proof.
  induction m as [|[k' v'] m IH]; [done|].
  cbn. destruct (decide (k' = k)).
  - intros Hin. apply list_elem_of_further. by apply IH.
  - intros [->|Hin]%elem_of_cons; [apply list_elem_of_here|].
    apply list_elem_of_further. by apply IH.
Qed.

Lemma elem_of_set k v kv m : kv ∈ JsMap.set k v m -> kv = (k, v) ∨ kv ∈ m.
Proof.
  induction m as [|[k' v'] m IH]; cbn.
  - intros ->%list_elem_of_singleton. by left.
  - destruct (decide (k' = k)).
    + intros [->|Hin]%elem_of_cons; [by left|].
      right. by apply list_elem_of_further.
    + intros [->|Hin]%elem_of_cons; [right; apply list_elem_of_here|].
      destruct (IH Hin); [by left|]. right. by apply list_elem_of_further.
Qed.

Lemma get_set_eq k v m : JsMap.get k (JsMap.set k v m) = Some v.
Proof.
induction m as [|[k' v'] m IH]; cbn.
- by rewrite decide_True.
- destruct (decide (k' = k)) as [->|Hne]; cbn.
  + by rewrite decide_True.
  + by rewrite decide_False.
Qed.

Lemma get_set_ne k k' v m : k ≠ k' -> JsMap.get k' (JsMap.set k v m) = JsMap.get k' m.
Proof.
intros Hne. induction m as [|[k'' v''] m IH]; cbn.
- by rewrite decide_False.
- destruct (decide (k'' = k)) as [->|Hne']; cbn.
  + by rewrite !decide_False.
  + by rewrite IH.
Qed.

Lemma keys_set k v m :
JsMap.keys (JsMap.set k v m)
  = if decide (k ∈ JsMap.keys m) then JsMap.keys m else JsMap.keys m ++ [k].
Proof.
unfold JsMap.keys. induction m as [|[k' v'] m IH]; cbn.
{ rewrite decide_False; [done|]. apply not_elem_of_nil. }
destruct (decide (k' = k)) as [->|Hne]; cbn.
- rewrite decide_True; [done|]. apply list_elem_of_here.
- rewrite IH. destruct (decide (k ∈ map fst m)) as [Hin|Hnin].
  + rewrite decide_True; [done|]. by apply list_elem_of_further.
  + rewrite decide_False; [done|]. intros [?|?]%elem_of_cons; congruence.
Qed.

Lemma NoDup_keys_set k v m : NoDup (JsMap.keys m) -> NoDup (JsMap.keys (JsMap.set k v m)).
Proof.
intros Hnd. rewrite keys_set. destruct (decide _); [done|].
apply NoDup_app. split; [done|]. split; [|apply NoDup_singleton].
intros x Hx ->%list_elem_of_singleton. done.
Qed.

Lemma keys_delete_sublist k m : sublist (JsMap.keys (JsMap.delete k m)) (JsMap.keys m).
Proof.
  unfold JsMap.keys. induction m as [|[k' v'] m IH]; cbn; [done|].
  destruct (decide (k' = k)); cbn.
  - by apply sublist_cons.
  - by apply sublist_skip.
Qed.

Lemma NoDup_keys_delete k m :
  NoDup (JsMap.keys m) -> NoDup (JsMap.keys (JsMap.delete k m)).
Proof. intros Hnd. eapply sublist_NoDup; [exact Hnd|]. apply keys_delete_sublist. Qed.

Lemma get_None_notin k m : JsMap.get k m = None -> k ∉ JsMap.keys m.
Proof.
induction m as [|[k' v'] m IH]; cbn; [intros _; apply not_elem_of_nil|].
destruct (decide (k' = k)); [done|]. intros Hg.
apply not_elem_of_cons. split; [done | by apply IH].
Qed.
End JsMapFacts.
End JsMapFacts.

(** ** SearchCache: eviction in insertion order *)

(** C5. When the cache holds [maxSize] entries, [set] with a key that is not
    in the cache drops exactly the entry that was inserted first and appends
    the new one. This is so even when the first entry has just been
    returned by a successful [get]: the read leaves the order of the
    entries as it was, and the entry read is the one evicted. *)
Theorem SearchCache_set_evicts_first_inserted
    (c : SearchCache) (key1 : CacheKey) (e1 : CacheEntry)
    (rest : list (CacheKey * CacheEntry))
    (kb : string) (qv : Vec) (k : Z) (result : list RAGResult) (now : Z) :
  cache c = (key1, e1) :: rest ->
  NoDup (JsMap.keys (cache c)) ->
  Z.of_nat (JsMap.size (cache c)) = maxSize c ->
  getCacheKey kb qv k ∉ JsMap.keys (cache c) ->
  let entry := {| ce_result := result; ce_timestamp := now |} in
  cache (SearchCache_set c kb qv k result now)
    = rest ++ [(getCacheKey kb qv k, entry)] ∧
  ∀ (kb1 : string) (qv1 : Vec) (k1 tget : Z),
    getCacheKey kb1 qv1 k1 = key1 ->
    tget - ce_timestamp e1 < ttl c ->
    let read := SearchCache_get c kb1 qv1 k1 tget in
    read.1 = Some (ce_result e1) ∧
    cache read.2 = cache c ∧
    cache (SearchCache_set read.2 kb qv k result now)
      = rest ++ [(getCacheKey kb qv k, entry)] ∧
    JsMap.get key1 (cache (SearchCache_set read.2 kb qv k result now)) = None.
Proof.
  intros Hc Hnd Hfull Hnew entry.
  rewrite Hc in Hnd, Hnew. unfold JsMap.keys in Hnd, Hnew.
  rewrite map_cons in Hnd, Hnew. apply NoDup_cons in Hnd as [Hk1 Hnd].
  apply not_elem_of_cons in Hnew as [Hne Hnew]. cbn in Hne.
  assert (Hset : ∀ c', cache c' = cache c -> maxSize c' = maxSize c ->
            cache (SearchCache_set c' kb qv k result now)
              = rest ++ [(getCacheKey kb qv k, entry)]).
  { intros c' Hc' Hm. unfold SearchCache_set. rewrite Hc', Hm, Hc. cbn [cache].
    rewrite Hc in Hfull. rewrite <- Hfull, Z.leb_refl.
    cbn [JsMap.first_key JsMap.keys map head fst].
    rewrite JsMapFacts.delete_head by done.
    by rewrite JsMapFacts.set_notin. }
  split; [by apply Hset|].
  intros kb1 qv1 k1 tget Hkey1 Hfresh read.
  assert (Hread : read = (Some (ce_result e1),
            {| cache := cache c; hits := S (hits c); misses := misses c;
               maxSize := maxSize c; ttl := ttl c |})).
  { unfold read, SearchCache_get. rewrite Hkey1, Hc. cbn [JsMap.get].
    rewrite decide_True by done.
    by destruct (Z.ltb_spec (tget - ce_timestamp e1) (ttl c)); [|lia]. }
  rewrite Hread. cbn [fst snd].
  split; [done|]. split; [done|].
  rewrite (Hset (Build_SearchCache (cache c) (S (hits c)) (misses c) (maxSize c) (ttl c))
             eq_refl eq_refl).
  split; [done|].
  apply JsMapFacts.get_notin. unfold JsMap.keys. rewrite map_app.
  cbn. rewrite elem_of_app, list_elem_of_singleton. intros [?|?]; [done|].
  congruence.
Qed.

(** The keys of the cache stay distinct, as those of a [Map] are. *)
Lemma SearchCache_keys_NoDup (c : SearchCache) (kb : string) (qv : Vec)
    (k now : Z) (result : list RAGResult) :
  NoDup (JsMap.keys (cache (SearchCache_new (maxSize c) (ttl c)))) ∧
  (NoDup (JsMap.keys (cache c)) ->
   NoDup (JsMap.keys (cache (SearchCache_get c kb qv k now).2)) ∧
   NoDup (JsMap.keys (cache (SearchCache_set c kb qv k result now)))).
Proof.
  split; [constructor|]. intros Hnd. split.
  - unfold SearchCache_get. destruct (JsMap.get _ _) as [entry|]; cbn.
    + destruct (_ <? _); cbn; [done|]. by apply JsMapFacts.NoDup_keys_delete.
    + by apply JsMapFacts.NoDup_keys_delete.
  - unfold SearchCache_set. cbn. apply JsMapFacts.NoDup_keys_set.
    destruct (_ <=? _); [|done]. destruct (JsMap.first_key _); [|done].
    by apply JsMapFacts.NoDup_keys_delete.
Qed.

(** ** Paths *)

Lemma append_inv_head (p a b : string) : p +:+ a = p +:+ b -> a = b.
Proof. induction p as [|c p IH]; cbn; [done|]. intros [= H]. by apply IH. Qed.

Lemma append_length (a b : string) :
  String.length (a +:+ b) = (String.length a + String.length b)%nat.
Proof. induction a as [|c a IH]; simpl; [done | by f_equal]. Qed.

Lemma append_inv_tail (a b s : string) : a +:+ s = b +:+ s -> a = b.
Proof.
  revert b. induction a as [|c a IH]; intros [|c' b] Heq; [done| | |].
  - apply (f_equal String.length) in Heq.
    rewrite !append_length in Heq. simpl in Heq. lia.
  - apply (f_equal String.length) in Heq.
    rewrite !append_length in Heq. simpl in Heq. lia.
  - simpl in Heq. injection Heq as -> Heq. f_equal. by apply IH.
Qed.

Lemma lastChar_append (a s : string) : s ≠ "" -> lastChar (a +:+ s) = lastChar s.
Proof.
  intros Hs. induction a as [|c a IH]; [done|].
  simpl. destruct (a +:+ s) eqn:Has; [|done].
  destruct a; [done | discriminate].
Qed.

Lemma append_cons (x : ascii) (a b : string) :
  String x a +:+ b = String x (a +:+ b).
Proof. reflexivity. Qed.

Lemma append_assoc (a b c : string) : (a +:+ b) +:+ c = a +:+ (b +:+ c).
Proof. induction a as [|x a IH]; [done|]. rewrite !append_cons. by f_equal. Qed.

Lemma append_empty_r (a : string) : a +:+ "" = a.
Proof. induction a as [|x a IH]; [done|]. rewrite append_cons. by f_equal. Qed.

(** *** Segments of a path that ends in an extension *)

Lemma segments_not_nil (s : string) : segments s ≠ [].
Proof.
  induction s as [|c s IH]; simpl; [done|].
  destruct (Ascii.eqb c "/"); [done|]. by destruct (segments s).
Qed.

Lemma segments_ext (joined ext : string) :
  segments ext = [ext] ->
  segments (joined +:+ ext)
    = List.removelast (segments joined) ++ [List.last (segments joined) "" +:+ ext].
Proof.
  intros Hext. induction joined as [|c joined IH]; [done|].
  rewrite append_cons. simpl.
  pose proof (segments_not_nil joined) as Hne.
  destruct (Ascii.eqb c "/").
  - rewrite IH. by destruct (segments joined) as [|seg [|seg' more]].
  - rewrite IH. by destruct (segments joined) as [|seg [|seg' more]].
Qed.

Lemma startsWithSlash_ext (joined ext : string) :
  segments ext = [ext] ->
  startsWithSlash (joined +:+ ext) = startsWithSlash joined.
Proof.
  intros Hext. destruct joined as [|c joined]; [|done]. simpl.
  destruct ext as [|c ext]; [done|]. simpl in *.
  by destruct (Ascii.eqb c "/").
Qed.

Lemma endsWithSlash_no_slash (ext : string) :
  segments ext = [ext] -> endsWithSlash ext = false.
Proof.
  induction ext as [|c ext IH]; [done|]. simpl.
  destruct (Ascii.eqb c "/") eqn:Hc; [done|].
  destruct (segments ext) as [|seg more] eqn:Hsegs; [by destruct ext|].
  intros [= -> ->]. destruct ext as [|c' ext]; [done|]. by apply IH.
Qed.

Lemma endsWithSlash_ext (joined ext : string) :
  ext ≠ "" -> endsWithSlash (joined +:+ ext) = endsWithSlash ext.
Proof.
  intros Hext. induction joined as [|c joined IH]; [done|].
  rewrite append_cons. simpl. destruct (joined +:+ ext) eqn:Happ; [|done].
  destruct joined; [done | discriminate].
Qed.

Lemma normalizeStep_long (allowAboveRoot : bool) (kept : list string) (seg : string) :
  (3 <= String.length seg)%nat ->
  normalizeStep allowAboveRoot kept seg = seg :: kept.
Proof.
  intros Hlen. unfold normalizeStep.
  destruct (decide (seg = "" ∨ seg = ".")) as [[->| ->]|_]; [simpl in Hlen; lia..|].
  destruct (decide (seg = "..")) as [->|_]; [simpl in Hlen; lia|done].
Qed.

Lemma joinSegments_ext (segs : list string) (seg ext : string) :
  joinSegments (segs ++ [seg +:+ ext]) = joinSegments (segs ++ [seg]) +:+ ext.
Proof.
  induction segs as [|s0 segs IH]; [done|].
  destruct segs as [|s1 segs]; simpl in *.
  - by rewrite !append_assoc.
  - rewrite IH. by rewrite !append_assoc.
Qed.

(** The path of a file whose name ends in an extension of three
    characters or more, without a separator, is the path of the name
    followed by the extension. *)
Lemma path_join_ext (cfg : Config) (name ext : string) :
  segments ext = [ext] -> (3 <= String.length ext)%nat ->
  path_join (workDir cfg) (name +:+ ext) = basePath cfg name +:+ ext.
Proof.
  intros Hext Hlen.
  assert (Hne : ext ≠ "") by (intros ->; simpl in Hlen; lia).
  unfold path_join, basePath.
  set (joined := if decide (workDir cfg = "") then name
                 else workDir cfg +:+ "/" +:+ name).
  assert (Hjoined :
    (if decide (workDir cfg = "") then normalize (name +:+ ext)
     else if decide (name +:+ ext = "") then normalize (workDir cfg)
     else normalize (workDir cfg +:+ "/" +:+ (name +:+ ext)))
    = normalize (joined +:+ ext)).
  { unfold joined. destruct (decide (workDir cfg = "")); [done|].
    destruct (decide (name +:+ ext = "")) as [Hempty|_].
    - apply (f_equal String.length) in Hempty. rewrite append_length in Hempty.
      simpl in Hempty. lia.
    - by rewrite !append_assoc. }
  rewrite Hjoined. unfold normalize.
  destruct (decide (joined +:+ ext = "")) as [Hempty|_].
  { apply (f_equal String.length) in Hempty. rewrite append_length in Hempty.
    simpl in Hempty. lia. }
  rewrite startsWithSlash_ext, endsWithSlash_ext, endsWithSlash_no_slash by done.
  rewrite (segments_ext joined ext Hext), fold_left_app. simpl.
  rewrite normalizeStep_long by (rewrite append_length; lia).
  simpl. rewrite append_empty_r, joinSegments_ext. by rewrite append_assoc.
Qed.

Lemma indexPath_base (cfg : Config) (name : string) :
  indexPath cfg name = basePath cfg name +:+ ".hnsw".
Proof. apply path_join_ext; [done | simpl; lia]. Qed.

Lemma chunkPath_base (cfg : Config) (name : string) :
  chunkPath cfg name = basePath cfg name +:+ ".chunks.json".
Proof. apply path_join_ext; [done | simpl; lia]. Qed.

Lemma indexPath_ne_chunkPath_any (cfg : Config) (a b : string) :
  indexPath cfg a ≠ chunkPath cfg b.
Proof.
  rewrite indexPath_base, chunkPath_base. intros H.
  apply (f_equal lastChar) in H. rewrite !lastChar_append in H by done.
  discriminate.
Qed.

Lemma indexPath_ne_chunkPath (cfg : Config) (name : string) :
  indexPath cfg name ≠ chunkPath cfg name.
Proof. apply indexPath_ne_chunkPath_any. Qed.

Lemma chunkPath_ne_indexPath (cfg : Config) (name : string) :
  chunkPath cfg name ≠ indexPath cfg name.
Proof. intros H. by apply (indexPath_ne_chunkPath cfg name). Qed.

(** Two names share their index file exactly when they share their
    chunk-map file. *)
Lemma indexPath_eq_iff (cfg : Config) (a b : string) :
  indexPath cfg a = indexPath cfg b <-> sameFiles cfg a b.
Proof.
  rewrite !indexPath_base. unfold sameFiles. split; [|by intros ->].
  apply append_inv_tail.
Qed.

Lemma chunkPath_eq_iff (cfg : Config) (a b : string) :
  chunkPath cfg a = chunkPath cfg b <-> sameFiles cfg a b.
Proof.
  rewrite !chunkPath_base. unfold sameFiles. split; [|by intros ->].
  apply append_inv_tail.
Qed.

Global Instance sameFiles_dec (cfg : Config) (a b : string) :
  Decision (sameFiles cfg a b).
Proof. unfold sameFiles. apply _. Defined.

(** ** search: the shape of a call *)

Section SearchFacts.
Variable getEmbeddings : list string -> Outcome (list Vec).
Variable searchKnn : Index -> Vec -> nat -> Outcome KnnResult.

(** One call of [search], stage by stage. *)
Lemma search_eq (options : RAGSearchOptions) (clock : SearchClock) (st : State) :
  search getEmbeddings searchKnn options clock st =
  match getEmbeddings [opt_query options] with
  | Throw e => (Throw e, st)
  | Ok [] => (Throw TypeError, st)
  | Ok (queryVector :: _) =>
      let kb := opt_knowledgeBase options in
      let kInput := kInputOf options in
      let got :=
        SearchCache_get (searchCache st) kb queryVector kInput (t_get clock) in
      let st1 := set_searchCache (fun _ => got.2) st in
      match got.1 with
      | Some results => (Ok results, st1)
      | None =>
          match getOrLoadIndex kb st1 with
          | (Throw e, st2) => (Throw e, st2)
          | (Ok None, st2) => (Ok [], st2)
          | (Ok (Some index), st2) =>
              let count := getCurrentCount index in
              let k := Z.to_nat (effectiveK kInput count (getMaxElements index)) in
              let st3 := set_trace (fun t => t ++ [EvSearchKnn kb count k]) st2 in
              match searchKnn index queryVector k with
              | Throw e => (Throw e, st3)
              | Ok result =>
                  let results :=
                    scoreAndFilter (default ∅ (chunkMaps st3 !! kb)) result
                      (thresholdOf options) in
                  (Ok results,
                   set_stats (fun s => recorded s (t_end clock - t_start clock))
                     (set_searchCache (fun c =>
                        SearchCache_set c kb queryVector kInput results (t_set clock))
                        st3))
              end
          end
      end
  end.
Proof.
  unfold search, getEmbedding, mbind, M_bind, lift, mret, M_ret, throw.
  destruct (getEmbeddings [opt_query options]) as [[|queryVector rest]|e]; try done.
  cbn zeta.
  destruct (SearchCache_get _ _ _ _ _) as [[results|] c]; cbn [fst snd]; [done|].
  destruct (getOrLoadIndex _ _) as [[[index|]|e] st2]; try done.
Qed.

(** [getOrLoadIndex] never throws, and leaves the cache, the statistics,
    the disk and the trace alone. *)
Lemma getOrLoadIndex_frame (kb : string) (st : State) :
  let r := getOrLoadIndex kb st in
  searchCache r.2 = searchCache st ∧ stats r.2 = stats st ∧
  disk r.2 = disk st ∧ trace r.2 = trace st ∧ config r.2 = config st ∧
  ∃ found, r.1 = Ok found ∧
    match found with
    | Some index => indices r.2 !! kb = Some index
    | None => r.2 = st ∧ indices st !! kb = None
    end.
Proof.
  unfold getOrLoadIndex.
  destruct (indices st !! kb) as [index|] eqn:Hi; cbn.
  { repeat split; eauto. }
  assert (Habsent : searchCache st = searchCache st ∧ stats st = stats st ∧
            disk st = disk st ∧ trace st = trace st ∧ config st = config st ∧
            ∃ found : option Index, Ok (@None Index) = Ok found ∧
              match found with
              | Some index => indices st !! kb = Some index
              | None => st = st ∧ @None Index = None
              end).
  { repeat split; try done. by exists None. }
  destruct (disk st !! indexPath (config st) kb) as [[stored| |]|]; cbn; try done.
  destruct (disk st !! chunkPath (config st) kb) as [[|chunkMap|]|]; cbn; try done.
  repeat split; try done. eexists; split; [done|].
  unfold set_chunkMaps, set_indices. cbn. apply lookup_insert_eq.
Qed.

(** ** Scores *)

Lemma similarity_pos (d : Q) : (-1 < d)%Q -> (0 < similarity d)%Q.
Proof.
  intros Hd. unfold similarity, Qdiv. rewrite Qmult_1_l.
  apply Qinv_lt_0_compat. lra.
Qed.

Lemma similarity_le_1 (d : Q) : (0 <= d)%Q -> (similarity d <= 1)%Q.
Proof.
  intros Hd. unfold similarity. apply Qle_shift_div_r; [|rewrite Qmult_1_l]; lra.
Qed.

Lemma similarity_0 : similarity 0 = 1%Q.
Proof. reflexivity. Qed.

Lemma similarity_lt (d d' : Q) :
  (-1 < d)%Q -> (d < d')%Q -> (similarity d' < similarity d)%Q.
Proof.
  intros Hd Hlt. unfold similarity, Qdiv. rewrite !Qmult_1_l.
  apply -> Qinv_lt_contravar; lra.
Qed.

Lemma similarity_le (d d' : Q) :
  (-1 < d)%Q -> (d <= d')%Q -> (similarity d' <= similarity d)%Q.
Proof.
  intros Hd Hle. destruct (Qlt_le_dec d d') as [Hlt|Hge].
  - apply Qlt_le_weak. by apply similarity_lt.
  - assert (Heq : (d == d')%Q) by lra.
    unfold similarity. rewrite Heq. apply Qle_refl.
Qed.

Lemma similarity_proper (d d' : Q) : (d == d')%Q -> (similarity d == similarity d')%Q.
Proof. intros Heq. unfold similarity. by rewrite Heq. Qed.

Lemma scoreAndFilter_elem (chunkMap : gmap nat Chunk) (answer : KnnResult)
    (threshold : Q) (r : RAGResult) :
  r ∈ scoreAndFilter chunkMap answer threshold <->
  (threshold <= res_score r)%Q ∧
  ∃ n d, (n, d) ∈ combine (neighbors answer) (distances answer) ∧
         r = toResult chunkMap n d.
Proof.
  unfold scoreAndFilter. rewrite list_elem_of_In, filter_In, <- list_elem_of_In.
  rewrite list_elem_of_fmap, Qle_bool_iff. split.
  - intros [([n d] & -> & Hin) Hle]. eauto.
  - intros [Hle (n & d & Hin & ->)]. split; [|done]. by exists (n, d).
Qed.

(** C7. When [search] has queried the index, the list it returns is the
    answer of the index mapped and filtered, and for every neighbour of that
    answer at a distance [d >= 0] the result built for it has the score
    [1 / (1 + d)]: it is returned exactly when that score reaches the
    threshold, it lies in (0, 1], it is 1 at distance 0, and a neighbour
    that is strictly farther scores strictly less. *)
Theorem search_score_is_similarity
    (options : RAGSearchOptions) (clock : SearchClock) (st st' : State)
    (results : list RAGResult) (count k : nat) :
  search getEmbeddings searchKnn options clock st = (Ok results, st') ->
  trace st' = trace st ++ [EvSearchKnn (opt_knowledgeBase options) count k] ->
  ∃ index queryVector answer chunkMap,
    searchKnn index queryVector k = Ok answer ∧
    results = scoreAndFilter chunkMap answer (thresholdOf options) ∧
    ∀ n d, (n, d) ∈ combine (neighbors answer) (distances answer) ->
      (0 <= d)%Q ->
      let r := toResult chunkMap n d in
      res_score r = (1 / (1 + d))%Q ∧
      (r ∈ results <-> (thresholdOf options <= res_score r)%Q) ∧
      (0 < res_score r)%Q ∧ (res_score r <= 1)%Q ∧
      ((d == 0)%Q -> (res_score r == 1)%Q) ∧
      ∀ n' d', (d < d')%Q ->
        (res_score (toResult chunkMap n' d') < res_score r)%Q.
Proof.
  rewrite search_eq. intros Hs Htrace.
  destruct (getEmbeddings _) as [[|queryVector rest]|e]; try done.
  cbn zeta in Hs.
  destruct (SearchCache_get _ _ _ _ _) as [cached c] eqn:Hget. cbn [fst snd] in Hs.
  destruct cached as [cachedResults|].
  { injection Hs as <- <-. cbn in Htrace.
    apply (f_equal length) in Htrace. rewrite length_app in Htrace. cbn in Htrace. lia. }
  pose proof (getOrLoadIndex_frame (opt_knowledgeBase options)
                (set_searchCache (fun _ => c) st)) as Hload.
  destruct (getOrLoadIndex _ _) as [[[index|]|e] st2]; try done;
    cbn [fst snd] in Hload; destruct Hload as (_ & _ & _ & Htr & _).
  2:{ injection Hs as <- <-. rewrite Htr in Htrace. cbn in Htrace.
      apply (f_equal length) in Htrace. rewrite length_app in Htrace. cbn in Htrace. lia. }
  destruct (searchKnn _ _ _) as [answer|e] eqn:Hknn; [|done].
  injection Hs as <- <-. cbn in Htrace. rewrite Htr in Htrace. cbn in Htrace.
  apply app_inv_head in Htrace. injection Htrace as <- <-.
  eexists index, queryVector, answer, _. split; [exact Hknn|]. split; [reflexivity|].
  intros n d Hin Hd r. split; [done|]. split.
  { rewrite scoreAndFilter_elem. split; [tauto|]. intros Hle. split; [done|]. eauto. }
  split; [apply similarity_pos; lra|]. split; [by apply similarity_le_1|].
  split.
  { intros Heq. unfold r. cbn. by rewrite (similarity_proper _ _ Heq). }
  intros n' d' Hlt. apply similarity_lt; [lra | done].
Qed.

(** ** The count passed to the index *)

Lemma effectiveK_ge_1 (kInput : Z) (count cap : nat) : 1 <= effectiveK kInput count cap.
Proof. unfold effectiveK. lia. Qed.

Lemma effectiveK_clamp (kInput : Z) (count cap : nat) :
  (count <= cap)%nat ->
  effectiveK kInput count cap
    = clamp kInput 1 (Z.min (Z.of_nat count) (Z.of_nat cap)).
Proof.
  intros Hle. unfold effectiveK, clamp.
  destruct (negb _ && _) eqn:Hb.
  - apply andb_true_iff in Hb as [_ Hb%Z.ltb_lt].
    destruct (Nat.eqb_spec count 0); lia.
  - apply andb_false_iff in Hb as [Hb%negb_false_iff%Nat.eqb_eq|Hb%Z.ltb_ge];
      destruct (Nat.eqb_spec count 0); lia.
Qed.

Lemma effectiveK_empty (kInput : Z) (cap : nat) : effectiveK kInput 0 cap = 1.
Proof.
  unfold effectiveK. cbn [Nat.eqb].
  destruct (negb _ && _) eqn:Hb; [|lia].
  apply andb_true_iff in Hb as [Hm%negb_true_iff%Nat.eqb_neq Hb%Z.ltb_lt]. lia.
Qed.

Lemma effectiveK_le_kInput (kInput : Z) (count cap : nat) :
  effectiveK kInput count cap <= Z.max 1 kInput.
Proof.
  unfold effectiveK.
  destruct (Nat.eqb_spec count 0), (negb _ && _) eqn:Hb; try lia;
    apply andb_true_iff in Hb as [_ Hb%Z.ltb_lt]; lia.
Qed.

Lemma kInputOf_eq (options : RAGSearchOptions) :
  kInputOf options
  = match opt_k options with
    | Some k => if k =? 0 then 10 else k
    | None => 10
    end.
Proof.
  unfold kInputOf, or_else. destruct (opt_k options) as [k|]; [|done].
  by destruct (k =? 0).
Qed.

Lemma thresholdOf_le (options : RAGSearchOptions) (t x : Q) :
  opt_similarityThreshold options = Some t ->
  (thresholdOf options <= x)%Q -> (t <= x)%Q.
Proof.
  unfold thresholdOf, or_else. intros ->.
  destruct (Qeq_bool t 0) eqn:Ht; cbn; [|done].
  apply Qeq_bool_iff in Ht. intros Hx. lra.
Qed.

Lemma getOrLoadIndex_searchCache (kb : string) (f : SearchCache -> SearchCache)
    (st : State) :
  getOrLoadIndex kb (set_searchCache f st)
  = ((getOrLoadIndex kb st).1, set_searchCache f (getOrLoadIndex kb st).2).
Proof.
  unfold getOrLoadIndex. cbn.
  destruct (indices st !! kb) as [index|]; [done|].
  destruct (disk st !! _) as [[stored| |]|]; try done.
  by destruct (disk st !! _) as [[| chunkMap |]|].
Qed.

(** C8, as the code has it. Let [requested] be the requested [k], or 10
    when [k] is absent or 0. A search that misses the cache looks for the
    index of the knowledge base, in memory or else on disk. When there is
    none, the result is the empty list and no query is made. When there
    is one, with [count] points and capacity [capacity], exactly one query
    is made, for [n = max(1, min(requested, count or 1))] neighbours,
    capped by the capacity: what the index answers to that query decides
    the outcome of the search, an index with zero points included, which
    is queried for 1 neighbour. For [count <= capacity] this [n] is
    [clamp(requested, 1, min(count, capacity))], the lower bound taking
    precedence. *)
Theorem search_query_count
    (options : RAGSearchOptions) (clock : SearchClock) (st : State)
    (queryVector : Vec) (rest : list Vec) :
  let kb := opt_knowledgeBase options in
  let requested :=
    match opt_k options with
    | Some k => if k =? 0 then 10 else k
    | None => 10
    end in
  getEmbeddings [opt_query options] = Ok (queryVector :: rest) ->
  (SearchCache_get (searchCache st) kb queryVector requested (t_get clock)).1 = None ->
  let r := search getEmbeddings searchKnn options clock st in
  match (getOrLoadIndex kb st).1 with
  | Ok (Some index) =>
      let count := getCurrentCount index in
      let capacity := getMaxElements index in
      let wanted :=
        Z.min requested (if (count =? 0)%nat then 1 else Z.of_nat count) in
      let n :=
        Z.to_nat
          (Z.max 1
             (if negb (capacity =? 0)%nat && (Z.of_nat capacity <? wanted)
              then Z.of_nat capacity else wanted)) in
      match searchKnn index queryVector n with
      | Ok answer =>
          r.1 = Ok (scoreAndFilter (default ∅ (chunkMaps r.2 !! kb)) answer
                      (thresholdOf options))
      | Throw e => r.1 = Throw e
      end ∧
      indices r.2 !! kb = Some index ∧
      trace r.2 = trace st ++ [EvSearchKnn kb count n] ∧
      ((count <= capacity)%nat ->
       Z.of_nat n
         = clamp requested 1 (Z.min (Z.of_nat count) (Z.of_nat capacity))) ∧
      (count = 0%nat -> n = 1%nat)
  | _ => r.1 = Ok [] ∧ trace r.2 = trace st
  end.
Proof.
  intros kb requested Hemb Hmiss r. unfold r. rewrite search_eq, Hemb. cbn zeta.
  fold kb. rewrite kInputOf_eq. fold requested.
  destruct (SearchCache_get _ _ _ _ _) as [cached c]. cbn [fst snd] in *.
  subst cached. rewrite getOrLoadIndex_searchCache.
  pose proof (getOrLoadIndex_frame kb st) as Hload.
  destruct (getOrLoadIndex kb st) as [[[index|]|e] st2]; cbn [fst snd] in Hload |- *;
    destruct Hload as (_ & _ & _ & Htr & _ & found & Hfound & Hidx);
    try injection Hfound as <-; try done.
  set (count := getCurrentCount index). set (capacity := getMaxElements index).
  change (effectiveK requested count capacity)
    with (Z.max 1
            (if negb (capacity =? 0)%nat
                && (Z.of_nat capacity
                    <? Z.min requested (if (count =? 0)%nat then 1 else Z.of_nat count))
             then Z.of_nat capacity
             else Z.min requested (if (count =? 0)%nat then 1 else Z.of_nat count))).
  set (n := Z.to_nat _).
  assert (Hn : Z.of_nat n = effectiveK requested count capacity).
  { unfold n. change (Z.max 1 _) with (effectiveK requested count capacity).
    pose proof (effectiveK_ge_1 requested count capacity). lia. }
  assert (Hrest :
    ((count <= capacity)%nat ->
     Z.of_nat n = clamp requested 1 (Z.min (Z.of_nat count) (Z.of_nat capacity))) ∧
    (count = 0%nat -> n = 1%nat)).
  { split.
    - intros Hle. by rewrite Hn, effectiveK_clamp.
    - intros H0. rewrite H0, effectiveK_empty in Hn. lia. }
  destruct (searchKnn index queryVector n) as [answer|e]; cbn.
  - rewrite Htr. done.
  - rewrite Htr. done.
Qed.

(** ** Metrics and the cache *)

(** C10. A [search] that finds its answer in the cache returns that answer
    and leaves [totalSearches] and [avgSearchTime] as they were, so the
    metrics of [getStatus] do not count it. *)
Theorem search_cache_hit_leaves_metrics
    (options : RAGSearchOptions) (clock : SearchClock) (st : State)
    (queryVector : Vec) (rest : list Vec) (results : list RAGResult) :
  getEmbeddings [opt_query options] = Ok (queryVector :: rest) ->
  (SearchCache_get (searchCache st) (opt_knowledgeBase options) queryVector
     (kInputOf options) (t_get clock)).1 = Some results ->
  let r := search getEmbeddings searchKnn options clock st in
  r.1 = Ok results ∧
  stats r.2 = stats st ∧
  m_totalSearches (getStatus_metrics r.2) = m_totalSearches (getStatus_metrics st) ∧
  m_avgSearchTime (getStatus_metrics r.2) = m_avgSearchTime (getStatus_metrics st) ∧
  hits (searchCache r.2) = S (hits (searchCache st)).
Proof.
  intros Hemb Hhit r. unfold r. rewrite search_eq, Hemb. cbn zeta.
  rewrite Hhit. cbn [fst snd]. unfold getStatus_metrics. cbn.
  repeat split; try done.
  revert Hhit. unfold SearchCache_get.
  destruct (JsMap.get _ _) as [entry|]; [|done].
  by destruct (_ <? _).
Qed.

(** The other direction: a call that changes the statistics missed the
    cache, and is counted once. *)
Lemma search_counted_missed
    (options : RAGSearchOptions) (clock : SearchClock) (st : State) :
  let r := search getEmbeddings searchKnn options clock st in
  stats r.2 = stats st ∨
  (stats r.2 = recorded (stats st) (t_end clock - t_start clock) ∧
   misses (searchCache r.2) = S (misses (searchCache st)) ∧
   hits (searchCache r.2) = hits (searchCache st)).
Proof.
  intros r. unfold r. rewrite search_eq.
  destruct (getEmbeddings _) as [[|queryVector rest]|e]; try by left.
  cbn zeta.
  destruct (SearchCache_get _ _ _ _ _) as [cached c] eqn:Hget. cbn [fst snd].
  destruct cached as [cachedResults|]; [by left|].
  assert (Hc : misses c = S (misses (searchCache st)) ∧ hits c = hits (searchCache st)).
  { revert Hget. unfold SearchCache_get.
    destruct (JsMap.get _ _) as [entry|]; [destruct (_ <? _)|]; by intros [= <-]. }
  pose proof (getOrLoadIndex_frame (opt_knowledgeBase options)
                (set_searchCache (fun _ => c) st)) as Hload.
  destruct (getOrLoadIndex _ _) as [[[index|]|e] st2]; cbn [fst snd] in Hload;
    destruct Hload as (Hsc & Hst & _); try by left.
  destruct (searchKnn _ _ _) as [answer|e]; [|by left].
  right. cbn. rewrite Hst, Hsc. cbn. done.
Qed.

(** ** Ranking of the results *)

Lemma StronglySorted_list_filter {A} (R : relation A) (f : A -> bool) (l : list A) :
  StronglySorted R l -> StronglySorted R (List.filter f l).
Proof.
  induction 1 as [|x l Hl IH Hx]; cbn; [constructor|].
  destruct (f x); [|done]. constructor; [done|].
  rewrite Forall_forall in Hx |- *. intros y Hy.
  apply Hx. rewrite list_elem_of_In in Hy |- *. apply filter_In in Hy. tauto.
Qed.

Lemma toResult_sorted (chunkMap : gmap nat Chunk) (ns : list nat) (ds : list Q) :
  StronglySorted Qle ds -> Forall (Qlt (-1)) ds ->
  sorted_by_score (map (fun nd => toResult chunkMap nd.1 nd.2) (combine ns ds)).
Proof.
  intros Hsorted. revert ns.
  induction Hsorted as [|d ds Hds IH Hd]; intros ns Hpos.
  { destruct ns; constructor. }
  destruct ns as [|n ns]; [constructor|].
  apply Forall_cons in Hpos as [Hd0 Hpos]. cbn.
  constructor; [by apply IH|].
  rewrite Forall_forall. intros r [[n' d'] [-> Hin]]%list_elem_of_fmap.
  unfold score_ge. cbn. apply similarity_le; [done|].
  rewrite Forall_forall in Hd. apply Hd.
  apply list_elem_of_In, in_combine_r in Hin. by apply list_elem_of_In.
Qed.

Lemma scoreAndFilter_ok (chunkMap : gmap nat Chunk) (answer : KnnResult)
    (threshold : Q) (k : nat) :
  knn_answer_ok k answer ->
  let results := scoreAndFilter chunkMap answer threshold in
  (length results <= k)%nat ∧ sorted_by_score results ∧
  Forall (fun r => (threshold <= res_score r)%Q) results.
Proof.
  intros (Hlen & Hsorted & Hpos) results. unfold results, scoreAndFilter.
  split; [|split].
  - etrans; [apply filter_length_le|].
    rewrite length_map, length_combine. lia.
  - apply StronglySorted_list_filter. by apply toResult_sorted.
  - rewrite Forall_forall. intros r Hr.
    apply list_elem_of_In, filter_In in Hr as [_ Hr]. by apply Qle_bool_iff.
Qed.

Lemma SearchCache_get_ok (c : SearchCache) (kb : string) (qv : Vec) (k now : Z) :
  cache_ok c ->
  let got := SearchCache_get c kb qv k now in
  cache_ok got.2 ∧
  match got.1 with
  | Some results => results_ok k results ∧ hits got.2 = S (hits c)
  | None => hits got.2 = hits c
  end.
Proof.
  intros Hok. unfold SearchCache_get.
  assert (Hdel : ∀ h m, cache_ok
            {| cache := JsMap.delete (getCacheKey kb qv k) (cache c); hits := h;
               misses := m; maxSize := maxSize c; ttl := ttl c |}).
  { intros h m key entry Hin. cbn in Hin.
    apply JsMapFacts.elem_of_delete in Hin. by apply Hok. }
  destruct (JsMap.get _ _) as [entry|] eqn:Hget;
    [|cbn; split; [apply Hdel | done]].
  destruct (_ <? _); [|cbn; split; [apply Hdel | done]].
  cbn. split; [exact Hok|]. split; [|done].
  apply JsMapFacts.get_Some_elem_of in Hget. by apply Hok in Hget.
Qed.

Lemma SearchCache_set_ok (c : SearchCache) (kb : string) (qv : Vec) (k now : Z)
    (results : list RAGResult) :
  cache_ok c -> results_ok k results ->
  cache_ok (SearchCache_set c kb qv k results now).
Proof.
  intros Hok Hres key entry Hin. unfold SearchCache_set in Hin. cbn in Hin.
  apply JsMapFacts.elem_of_set in Hin as [[= -> ->]|Hin]; [done|].
  apply Hok. destruct (_ <=? _); [|done].
  destruct (JsMap.first_key _); [|done].
  by apply JsMapFacts.elem_of_delete in Hin.
Qed.

(** A successful [search] returns an acceptable answer, filtered by the
    threshold unless it came from the cache, and keeps the cache
    acceptable. *)
Lemma search_Ok_ok
    (options : RAGSearchOptions) (clock : SearchClock) (st st' : State)
    (results : list RAGResult) :
  knn_contract searchKnn ->
  cache_ok (searchCache st) ->
  search getEmbeddings searchKnn options clock st = (Ok results, st') ->
  results_ok (kInputOf options) results ∧
  (hits (searchCache st') = hits (searchCache st) ->
   Forall (fun r => (thresholdOf options <= res_score r)%Q) results) ∧
  cache_ok (searchCache st').
Proof.
  intros Hknn Hok Hs.
  rewrite search_eq in Hs.
  destruct (getEmbeddings _) as [[|queryVector rest]|e]; try done.
  cbn zeta in Hs.
  pose proof (SearchCache_get_ok (searchCache st) (opt_knowledgeBase options)
                queryVector (kInputOf options) (t_get clock) Hok) as Hget.
  destruct (SearchCache_get _ _ _ _ _) as [cached c]. cbn [fst snd] in Hs, Hget.
  destruct Hget as [Hokc Hgot]. destruct cached as [cachedResults|].
  { injection Hs as <- <-. cbn. destruct Hgot as [Hres Hhits].
    split; [done|]. split; [lia|done]. }
  pose proof (getOrLoadIndex_frame (opt_knowledgeBase options)
                (set_searchCache (fun _ => c) st)) as Hload.
  destruct (getOrLoadIndex _ _) as [[[index|]|e] st2]; try done;
    cbn [fst snd] in Hload; destruct Hload as (Hsc & _).
  2:{ injection Hs as <- <-. rewrite Hsc. cbn. split; [|done].
      split; [cbn; lia | constructor]. }
  destruct (searchKnn _ _ _) as [answer|e] eqn:Hq; [|done].
  injection Hs as <- <-. apply Hknn in Hq.
  pose proof (scoreAndFilter_ok
    (default ∅ (chunkMaps (set_trace (fun t => t ++
       [EvSearchKnn (opt_knowledgeBase options) (getCurrentCount index)
          (Z.to_nat (effectiveK (kInputOf options) (getCurrentCount index)
                       (getMaxElements index)))]) st2) !! opt_knowledgeBase options))
    answer (thresholdOf options) _ Hq) as (Hlen & Hsorted & Hthr).
  assert (Hres : results_ok (kInputOf options)
            (scoreAndFilter (default ∅ (chunkMaps (set_trace (fun t => t ++
               [EvSearchKnn (opt_knowledgeBase options) (getCurrentCount index)
                  (Z.to_nat (effectiveK (kInputOf options) (getCurrentCount index)
                     (getMaxElements index)))]) st2) !! opt_knowledgeBase options))
               answer (thresholdOf options))).
  { split; [|done].
    pose proof (effectiveK_le_kInput (kInputOf options) (getCurrentCount index)
                  (getMaxElements index)). lia. }
  split; [done|]. split; [done|].
  cbn. rewrite Hsc. cbn. by apply SearchCache_set_ok.
Qed.

(** C1, as the code has it. When the index library keeps its promise (at
    most [n] neighbours for a query for [n], nearest first, at distances
    above -1) and the cache holds acceptable answers, a successful [search]
    returns a list in non-increasing order of score, of at most [k] results
    for a requested [k >= 1], at most 10 when [k] is absent or 0, and at
    most 1 when [k] is negative, and leaves a cache of acceptable answers.
    When the call was not answered from the cache and has a threshold [t],
    every returned score is at least [t]. *)
Theorem search_results_ranked
    (options : RAGSearchOptions) (clock : SearchClock) (st st' : State)
    (results : list RAGResult) :
  knn_contract searchKnn ->
  cache_ok (searchCache st) ->
  search getEmbeddings searchKnn options clock st = (Ok results, st') ->
  StronglySorted (fun r1 r2 => (res_score r2 <= res_score r1)%Q) results ∧
  (∀ k, opt_k options = Some k -> 1 <= k -> (length results <= Z.to_nat k)%nat) ∧
  (opt_k options = None ∨ opt_k options = Some 0 -> (length results <= 10)%nat) ∧
  (∀ k, opt_k options = Some k -> k < 0 -> (length results <= 1)%nat) ∧
  (hits (searchCache st') = hits (searchCache st) ->
   ∀ t, opt_similarityThreshold options = Some t ->
   ∀ r, r ∈ results -> (t <= res_score r)%Q) ∧
  cache_ok (searchCache st').
Proof.
  intros Hknn Hok Hs.
  destruct (search_Ok_ok options clock st st' results Hknn Hok Hs)
    as ([Hlen Hsorted] & Hthr & Hok').
  rewrite kInputOf_eq in Hlen.
  split; [done|]. split; [|split; [|split; [|split; [|done]]]].
  - intros k Hk Hk1. rewrite Hk in Hlen. destruct (Z.eqb_spec k 0); lia.
  - intros [Hk|Hk]; rewrite Hk in Hlen; cbn in Hlen; lia.
  - intros k Hk Hneg. rewrite Hk in Hlen. destruct (Z.eqb_spec k 0); lia.
  - intros Hhits t Ht r Hr. apply (thresholdOf_le options t _ Ht).
    specialize (Hthr Hhits). rewrite Forall_forall in Hthr. by apply Hthr.
Qed.

End SearchFacts.

(** ** Insertion *)

Lemma withPoints_nil (index : Index) : withPoints index [] = index.
Proof. destruct index. unfold withPoints. cbn. by rewrite app_nil_r. Qed.

Lemma withPoints_count (index : Index) (new : list (nat * Vec)) :
  getCurrentCount (withPoints index new) = (getCurrentCount index + length new)%nat.
Proof. unfold getCurrentCount, withPoints. cbn. apply length_app. Qed.

Lemma floor_one_and_half (capacity : nat) :
  Qfloor (inject_Z (Z.of_nat capacity) * (3 # 2)) = Z.of_nat (3 * capacity / 2).
Proof.
  unfold Qfloor. cbn [Qmult inject_Z Qnum Qden].
  rewrite Nat2Z.inj_div, Nat2Z.inj_mul. f_equal; lia.
Qed.

(** What a completed loop of [addPoints] has done. *)
Lemma addPoints_Ok_inv (docs : list RAGDocument) (now : Z) (embeddings : list Vec) :
  ∀ (i currentIdx : nat) (index index' : Index) (chunkMap chunkMap' : gmap nat Chunk)
    (labels : list nat),
  addPoints docs now embeddings i currentIdx index chunkMap
    = (Ok tt, index', chunkMap', labels) ->
  let n := length embeddings in
  index' = withPoints index (zip (seq currentIdx n) embeddings) ∧
  labels = seq currentIdx n ∧
  dom chunkMap' = dom chunkMap ∪ (set_seq currentIdx n : gset nat) ∧
  (∀ j, (j < n)%nat ->
     ∃ doc, docs !! (i + j)%nat = Some doc ∧
       chunkMap' !! (currentIdx + j)%nat = Some (mkChunk doc (currentIdx + j) now)) ∧
  (∀ key, (key < currentIdx ∨ currentIdx + n <= key)%nat ->
     chunkMap' !! key = chunkMap !! key).
Proof.
  induction embeddings as [|e embeddings IH];
    intros i currentIdx index index' chunkMap chunkMap' labels.
  { cbn. intros ?. simplify_eq. rewrite withPoints_nil.
    split; [done|]. split; [done|]. split; [by rewrite (right_id_L ∅ (∪))|].
    split; [lia|done]. }
  cbn [addPoints length]. unfold addPoint.
  destruct (Nat.leb_spec (idx_maxElements index) currentIdx) as [|Hcap]; [done|].
  destruct (docs !! i) as [doc|] eqn:Hdoc; [|done].
  destruct (addPoints _ _ _ _ _ _ _) as [[[o ix] cm] ls] eqn:Hrec.
  intros [= -> -> -> <-]. apply IH in Hrec.
  destruct Hrec as (-> & -> & Hdom & Hnew & Hold).
  split.
  { unfold withPoints. cbn. by rewrite <- app_assoc. }
  split; [done|]. split.
  { rewrite Hdom, dom_insert_L. apply set_eq. intros x.
    rewrite !elem_of_union, !elem_of_set_seq, elem_of_singleton. cbn [length].
    intuition lia. }
  split.
  - intros [|j] Hj.
    + rewrite !Nat.add_0_r. exists doc. split; [done|].
      rewrite Hold by lia. apply lookup_insert_eq.
    + replace (currentIdx + S j)%nat with (S currentIdx + j)%nat by lia.
      replace (i + S j)%nat with (S i + j)%nat by lia.
      apply Hnew. lia.
  - intros key Hkey. rewrite Hold by lia. apply lookup_insert_ne. lia.
Qed.

(** The loop completes when there is room for the batch and a document for
    every embedding. *)
Lemma addPoints_succeeds (docs : list RAGDocument) (now : Z) (embeddings : list Vec) :
  ∀ (i currentIdx : nat) (index : Index) (chunkMap : gmap nat Chunk),
  (i + length embeddings <= length docs)%nat ->
  (currentIdx + length embeddings <= idx_maxElements index)%nat ->
  ∃ index' chunkMap' labels,
    addPoints docs now embeddings i currentIdx index chunkMap
      = (Ok tt, index', chunkMap', labels).
Proof.
  induction embeddings as [|e embeddings IH]; intros i currentIdx index chunkMap Hd Hc.
  { cbn. eauto. }
  cbn [addPoints length] in *. unfold addPoint.
  destruct (Nat.leb_spec (idx_maxElements index) currentIdx) as [|Hcap]; [lia|].
  destruct (lookup_lt_is_Some_2 docs i) as [doc ->]; [lia|].
  edestruct (IH (S i) (S currentIdx)) as (index' & chunkMap' & labels & ->);
    [lia| |by eauto].
  cbn. lia.
Qed.

Lemma mkChunk_chunk_of (doc : RAGDocument) (ordinal : nat) (now : Z) :
  chunk_of doc ordinal now (mkChunk doc ordinal now).
Proof.
  unfold chunk_of, mkChunk, or_else, truthy_string. cbn.
  split; [done|]. split.
  { destruct (doc_id doc) as [id|]; [|done]. by destruct (decide (id = "")). }
  split; [done|]. split; [by destruct (doc_metadata doc)|].
  destruct (doc_metadata doc) as [metadata|]; cbn; [|done].
  destruct (metadata !! "timestamp") as [[s|z]|]; cbn; [| |done].
  - unfold truthy_string. by destruct (decide (s = "")).
  - destruct (Z.eqb_spec z 0); by destruct (decide (z = 0)).
Qed.

Section AddFacts.
Variable getEmbeddings : list string -> Outcome (list Vec).
Variable tryWrite : string -> FileData -> WriteResult.

Lemma startIndex_count (st : State) (kb : string) (nDocs nEmb : nat) :
  getCurrentCount (startIndex st kb nDocs nEmb)
    = from_option getCurrentCount 0%nat (indices st !! kb).
Proof.
  unfold startIndex. destruct (indices st !! kb) as [index|]; [|done].
  by destruct (_ <? _)%nat.
Qed.

Lemma startIndex_points (st : State) (kb : string) (nDocs nEmb : nat) :
  idx_points (startIndex st kb nDocs nEmb)
    = from_option idx_points [] (indices st !! kb).
Proof.
  unfold startIndex. destruct (indices st !! kb) as [index|]; [|done].
  by destruct (_ <? _)%nat.
Qed.

Lemma startIndex_room (st : State) (kb : string) (nDocs nEmb : nat) :
  (nEmb <= nDocs)%nat ->
  (getCurrentCount (startIndex st kb nDocs nEmb) + nEmb
     <= idx_maxElements (startIndex st kb nDocs nEmb))%nat.
Proof.
  intros Hle. unfold startIndex. destruct (indices st !! kb) as [index|].
  - destruct (Nat.ltb_spec (getMaxElements index) (getCurrentCount index + nEmb));
      unfold getCurrentCount, getMaxElements in *; cbn; lia.
  - cbn. lia.
Qed.

(** The two writes that end [addDocumentsToKB]: [saveIndex], and if it
    succeeds [saveChunkMap]. *)
Lemma saves_eq (kb : string) (index : Index) (chunkMap : gmap nat Chunk)
    (mem : State) :
  (_ ← saveIndex tryWrite kb index; saveChunkMap tryWrite kb chunkMap) mem =
  match tryWrite (indexPath (config mem) kb) (FIndex index) with
  | WriteFailed e damaged =>
      (Throw e, afterFailedWrite damaged (indexPath (config mem) kb) mem)
  | Written =>
      let mem1 := set_disk <[indexPath (config mem) kb := FIndex index]> mem in
      match tryWrite (chunkPath (config mem) kb) (FChunks chunkMap) with
      | WriteFailed e damaged =>
          (Throw e, afterFailedWrite damaged (chunkPath (config mem) kb) mem1)
      | Written =>
          (Ok tt, set_disk <[chunkPath (config mem) kb := FChunks chunkMap]> mem1)
      end
  end.
Proof.
  unfold mbind, M_bind, saveIndex, saveChunkMap, writeTo, afterFailedWrite.
  destruct (tryWrite (indexPath (config mem) kb) (FIndex index)) as [|e damaged];
    [|done].
  cbn. by destruct (tryWrite (chunkPath (config mem) kb) (FChunks chunkMap)).
Qed.

(** [addDocumentsToKB] as the loop run on the index it starts from,
    followed by the two writes. *)
Lemma addDocumentsToKB_eq (kb : string) (docs : list RAGDocument) (now : Z)
    (st : State) :
  addDocumentsToKB getEmbeddings tryWrite kb docs now st =
  match getEmbeddings (map doc_content docs) with
  | Throw err => (Throw err, st)
  | Ok embeddings =>
      let index := startIndex st kb (length docs) (length embeddings) in
      let events := startEvents st kb (length docs) (length embeddings) in
      let '(o, index', chunkMap', labels) :=
        addPoints docs now embeddings 0 (getCurrentCount index) index
          (default ∅ (chunkMaps st !! kb)) in
      let st1 :=
        set_trace (fun t => t ++ events ++ map (EvAddPoint kb) labels)
          (set_indices <[kb := index']> st) in
      match o with
      | Throw err =>
          (Throw err,
           match chunkMaps st !! kb with
           | Some _ => set_chunkMaps <[kb := chunkMap']> st1
           | None => st1
           end)
      | Ok _ =>
          (_ ← saveIndex tryWrite kb index'; saveChunkMap tryWrite kb chunkMap')
            (registered st kb index' chunkMap'
               (events ++ map (EvAddPoint kb) labels))
      end
  end.
Proof.
  unfold addDocumentsToKB, startIndex, startEvents.
  destruct (getEmbeddings _) as [embeddings|e]; [|done].
  destruct (indices st !! kb) as [index|]; [|done].
  by destruct (_ <? _)%nat.
Qed.

(** With at most one vector per document the loop of [addDocumentsToKB]
    completes: the batch is in memory when the files are written. *)
Lemma addDocumentsToKB_loop (kb : string) (docs : list RAGDocument) (now : Z)
    (st : State) (embeddings : list Vec) :
  getEmbeddings (map doc_content docs) = Ok embeddings ->
  (length embeddings <= length docs)%nat ->
  let n := length embeddings in
  let index0 := startIndex st kb (length docs) n in
  let c := from_option getCurrentCount 0%nat (indices st !! kb) in
  let chunkMap := default ∅ (chunkMaps st !! kb) in
  ∃ chunkMap',
    addDocumentsToKB getEmbeddings tryWrite kb docs now st
    = (_ ← saveIndex tryWrite kb (withPoints index0 (zip (seq c n) embeddings));
       saveChunkMap tryWrite kb chunkMap')
        (registered st kb (withPoints index0 (zip (seq c n) embeddings)) chunkMap'
           (startEvents st kb (length docs) n ++ map (EvAddPoint kb) (seq c n))) ∧
    dom chunkMap' = dom chunkMap ∪ (set_seq c n : gset nat) ∧
    (∀ j, (j < n)%nat ->
       ∃ doc, docs !! j = Some doc ∧
         chunkMap' !! (c + j)%nat = Some (mkChunk doc (c + j) now)) ∧
    (∀ key, (key < c ∨ c + n <= key)%nat -> chunkMap' !! key = chunkMap !! key).
Proof.
  intros Hemb Hlen n index0 c chunkMap.
  pose proof (startIndex_room st kb (length docs) n Hlen) as Hroom.
  destruct (addPoints_succeeds docs now embeddings 0 (getCurrentCount index0) index0
              chunkMap) as (index' & chunkMap' & labels & Hloop); [done|done|].
  rewrite addDocumentsToKB_eq, Hemb. cbv zeta. fold n index0 chunkMap.
  rewrite Hloop.
  apply addPoints_Ok_inv in Hloop as (-> & -> & Hdom & Hnew & Hold).
  unfold index0 in *. rewrite startIndex_count in *. fold c n in Hdom, Hnew, Hold |- *.
  exists chunkMap'. done.
Qed.

(** The shape of a successful [addDocumentsToKB]. *)
Lemma addDocumentsToKB_Ok_inv (kb : string) (docs : list RAGDocument) (now : Z)
    (st st' : State) :
  addDocumentsToKB getEmbeddings tryWrite kb docs now st = (Ok tt, st') ->
  ∃ embeddings chunkMap',
    getEmbeddings (map doc_content docs) = Ok embeddings ∧
    let n := length embeddings in
    let index0 := startIndex st kb (length docs) n in
    let c := getCurrentCount index0 in
    let chunkMap := default ∅ (chunkMaps st !! kb) in
    st' = stored st kb (withPoints index0 (zip (seq c n) embeddings)) chunkMap'
            (startEvents st kb (length docs) n ++ map (EvAddPoint kb) (seq c n)) ∧
    dom chunkMap' = dom chunkMap ∪ (set_seq c n : gset nat) ∧
    (∀ j, (j < n)%nat ->
       ∃ doc, docs !! j = Some doc ∧
         chunkMap' !! (c + j)%nat = Some (mkChunk doc (c + j) now)) ∧
    (∀ key, (key < c ∨ c + n <= key)%nat -> chunkMap' !! key = chunkMap !! key).
Proof.
  rewrite addDocumentsToKB_eq.
  destruct (getEmbeddings _) as [embeddings|e]; [|done]. cbv zeta.
  destruct (addPoints _ _ _ _ _ _ _) as [[[o index'] chunkMap'] labels] eqn:Hloop.
  destruct o as [[]|e]; [|done].
  apply addPoints_Ok_inv in Hloop as (-> & -> & Hdom & Hnew & Hold).
  rewrite saves_eq. change (config (registered _ _ _ _ _)) with (config st).
  destruct (tryWrite (indexPath _ _) _) as [|e damaged] eqn:Hw1; [|done]. cbv zeta.
  destruct (tryWrite (chunkPath _ _) _) as [|e damaged] eqn:Hw2; [|done].
  intros [= <-]. exists embeddings, chunkMap'. done.
Qed.

(** [addDocumentsToKB] succeeds when the provider answers, with no more
    vectors than there are documents, and the two writes succeed. *)
Lemma addDocumentsToKB_succeeds (kb : string) (docs : list RAGDocument) (now : Z)
    (st : State) (embeddings : list Vec) :
  getEmbeddings (map doc_content docs) = Ok embeddings ->
  (length embeddings <= length docs)%nat ->
  (∀ data, tryWrite (indexPath (config st) kb) data = Written) ->
  (∀ data, tryWrite (chunkPath (config st) kb) data = Written) ->
  ∃ st', addDocumentsToKB getEmbeddings tryWrite kb docs now st = (Ok tt, st').
Proof.
  intros Hemb Hlen Hw1 Hw2.
  destruct (addDocumentsToKB_loop kb docs now st embeddings Hemb Hlen)
    as (chunkMap' & -> & _).
  rewrite saves_eq. change (config (registered _ _ _ _ _)) with (config st).
  rewrite Hw1. cbv zeta. rewrite Hw2. eauto.
Qed.

Lemma stored_lookups (st : State) (kb : string) (index : Index)
    (chunkMap : gmap nat Chunk) (events : list Event) :
  let st' := stored st kb index chunkMap events in
  indices st' !! kb = Some index ∧ chunkMaps st' !! kb = Some chunkMap ∧
  disk st' !! indexPath (config st) kb = Some (FIndex index) ∧
  disk st' !! chunkPath (config st) kb = Some (FChunks chunkMap) ∧
  trace st' = trace st ++ events ∧
  config st' = config st ∧ searchCache st' = searchCache st ∧ stats st' = stats st ∧
  (∀ kb', kb' ≠ kb ->
     indices st' !! kb' = indices st !! kb' ∧ chunkMaps st' !! kb' = chunkMaps st !! kb').
Proof.
  cbn. rewrite !lookup_insert_eq.
  rewrite lookup_insert_ne by apply chunkPath_ne_indexPath.
  rewrite lookup_insert_eq. repeat split; try done; by apply lookup_insert_ne.
Qed.

(** ** Grouping of a batch *)

Lemma docsOf_app (kb : string) (docs1 docs2 : list RAGDocument) :
  docsOf kb (docs1 ++ docs2) = docsOf kb docs1 ++ docsOf kb docs2.
Proof. unfold docsOf. apply List.filter_app. Qed.

Lemma grouped_as_step (acc : list (string * list RAGDocument))
    (pre : list RAGDocument) (doc : RAGDocument) :
  grouped_as acc pre ->
  grouped_as
    (JsMap.set (doc_knowledgeBase doc)
       (default [] (JsMap.get (doc_knowledgeBase doc) acc) ++ [doc]) acc)
    (pre ++ [doc]).
Proof.
  intros [Hnd Hget]. split; [by apply JsMapFacts.NoDup_keys_set|].
  intros kb. rewrite docsOf_app. unfold docsOf at 2. cbn [List.filter].
  destruct (decide (doc_knowledgeBase doc = kb)) as [->|Hne].
  - rewrite JsMapFacts.get_set_eq, bool_decide_eq_true_2 by done.
    rewrite Hget. by destruct (docsOf kb pre).
  - rewrite JsMapFacts.get_set_ne, bool_decide_eq_false_2 by done.
    by rewrite app_nil_r.
Qed.

Lemma fold_grouped_as (docs pre : list RAGDocument)
    (acc : list (string * list RAGDocument)) :
  grouped_as acc pre ->
  grouped_as
    (fold_left
       (fun grouped doc =>
          let existing := default [] (JsMap.get (doc_knowledgeBase doc) grouped) in
          JsMap.set (doc_knowledgeBase doc) (existing ++ [doc]) grouped)
       docs acc)
    (pre ++ docs).
Proof.
  revert pre acc. induction docs as [|doc docs IH]; intros pre acc Hacc; cbn.
  - by rewrite app_nil_r.
  - replace (pre ++ doc :: docs) with ((pre ++ [doc]) ++ docs)
      by (by rewrite <- app_assoc).
    apply IH. by apply grouped_as_step.
Qed.

Lemma groupDocs_grouped (docs : list RAGDocument) : grouped_as (groupDocs docs) docs.
Proof.
  apply (fold_grouped_as docs [] []). split; [constructor|done].
Qed.

(** ** The ordinals of a knowledge base *)

Lemma addDocumentsToKB_frame (kb kb' : string) (docs : list RAGDocument) (now : Z)
    (st st' : State) :
  addDocumentsToKB getEmbeddings tryWrite kb docs now st = (Ok tt, st') ->
  kb' ≠ kb ->
  indices st' !! kb' = indices st !! kb' ∧ chunkMaps st' !! kb' = chunkMaps st !! kb'.
Proof.
  intros (embeddings & chunkMap' & _ & -> & _)%addDocumentsToKB_Ok_inv Hne.
  by apply stored_lookups.
Qed.

Lemma addDocumentsToKB_consistent (kb : string) (docs : list RAGDocument) (now : Z)
    (st st' : State) :
  addDocumentsToKB getEmbeddings tryWrite kb docs now st = (Ok tt, st') ->
  (∀ kb', kb_consistent st kb') -> ∀ kb', kb_consistent st' kb'.
Proof.
  intros Hrun Hinv kb'. destruct (decide (kb' = kb)) as [->|Hne].
  2:{ destruct (addDocumentsToKB_frame _ _ _ _ _ _ Hrun Hne) as [Hi Hc].
      specialize (Hinv kb'). unfold kb_consistent in *. by rewrite Hi, Hc. }
  apply addDocumentsToKB_Ok_inv in Hrun
    as (embeddings & chunkMap' & _ & -> & Hdom & _).
  rewrite startIndex_count in Hdom.
  pose proof (stored_lookups st kb
    (withPoints (startIndex st kb (length docs) (length embeddings))
       (zip (seq (getCurrentCount (startIndex st kb (length docs) (length embeddings)))
               (length embeddings)) embeddings))
    chunkMap'
    (startEvents st kb (length docs) (length embeddings)
       ++ map (EvAddPoint kb)
            (seq (getCurrentCount (startIndex st kb (length docs) (length embeddings)))
               (length embeddings)))) as (Hi & Hc & _).
  unfold kb_consistent. rewrite Hi, Hc. eexists. split; [done|].
  rewrite Hdom, withPoints_count, length_zip, length_seq, Nat.min_id.
  rewrite startIndex_count.
  specialize (Hinv kb). unfold kb_consistent in Hinv.
  destruct (indices st !! kb) as [index|]; cbn [from_option].
  - destruct Hinv as (chunkMap & -> & Hd). cbn [from_option id]. rewrite Hd.
    apply set_eq. intros x. rewrite elem_of_union, !elem_of_set_seq. lia.
  - rewrite Hinv. cbn [from_option id].
    by rewrite dom_empty_L, (left_id_L ∅ (∪)).
Qed.

Lemma addDocumentsToKB_fresh (kb : string) (docs : list RAGDocument) (now : Z)
    (st st' : State) :
  one_vector_per_text getEmbeddings ->
  addDocumentsToKB getEmbeddings tryWrite kb docs now st = (Ok tt, st') ->
  indices st !! kb = None -> chunkMaps st !! kb = None ->
  ∃ index chunkMap,
    indices st' !! kb = Some index ∧ chunkMaps st' !! kb = Some chunkMap ∧
    getCurrentCount index = length docs ∧
    dom chunkMap = (set_seq 0 (length docs) : gset nat).
Proof.
  intros Hone Hrun Hi0 Hc0.
  apply addDocumentsToKB_Ok_inv in Hrun
    as (embeddings & chunkMap' & Hemb & -> & Hdom & _).
  apply Hone in Hemb. rewrite length_map in Hemb.
  rewrite startIndex_count, Hi0, Hc0, Hemb in Hdom. cbn in Hdom.
  rewrite dom_empty_L, (left_id_L ∅ (∪)) in Hdom.
  eexists _, chunkMap'. split; [apply stored_lookups|]. split; [apply stored_lookups|].
  split; [|done].
  rewrite withPoints_count, startIndex_count, Hi0, length_zip, length_seq. cbn. lia.
Qed.

Lemma addGroups_cons (kb : string) (kbDocs : list RAGDocument)
    (rest : list (string * list RAGDocument)) (now : Z) (st : State) :
  addGroups getEmbeddings tryWrite ((kb, kbDocs) :: rest) now st =
  match addDocumentsToKB getEmbeddings tryWrite kb kbDocs now st with
  | (Ok _, st1) => addGroups getEmbeddings tryWrite rest now st1
  | (Throw e, st1) => (Throw e, st1)
  end.
Proof. reflexivity. Qed.

Lemma addGroups_consistent (groups : list (string * list RAGDocument)) (now : Z) :
  ∀ st st',
  addGroups getEmbeddings tryWrite groups now st = (Ok tt, st') ->
  (∀ kb, kb_consistent st kb) -> ∀ kb, kb_consistent st' kb.
Proof.
  induction groups as [|[kb kbDocs] rest IH]; intros st st'.
  { by intros [= <-]. }
  rewrite addGroups_cons.
  destruct (addDocumentsToKB _ _ _ _ _) as [[[]|e] st1] eqn:Hrun; [|done].
  intros Hrest Hinv. apply (IH _ _ Hrest).
  by apply (addDocumentsToKB_consistent _ _ _ _ _ Hrun).
Qed.

Lemma addGroups_frame (groups : list (string * list RAGDocument)) (now : Z)
    (kb : string) :
  ∀ st st',
  addGroups getEmbeddings tryWrite groups now st = (Ok tt, st') ->
  kb ∉ JsMap.keys groups ->
  indices st' !! kb = indices st !! kb ∧ chunkMaps st' !! kb = chunkMaps st !! kb.
Proof.
  induction groups as [|[kb1 kbDocs] rest IH]; intros st st'.
  { by intros [= <-]. }
  rewrite addGroups_cons.
  destruct (addDocumentsToKB _ _ _ _ _) as [[[]|e] st1] eqn:Hrun; [|done].
  intros Hrest [Hne Hnin]%not_elem_of_cons.
  destruct (IH _ _ Hrest Hnin) as [-> ->].
  by apply (addDocumentsToKB_frame _ _ _ _ _ _ Hrun).
Qed.

Lemma addGroups_fresh (groups : list (string * list RAGDocument)) (now : Z)
    (kb : string) (kbDocs : list RAGDocument) :
  one_vector_per_text getEmbeddings ->
  ∀ st st',
  addGroups getEmbeddings tryWrite groups now st = (Ok tt, st') ->
  NoDup (JsMap.keys groups) ->
  JsMap.get kb groups = Some kbDocs ->
  indices st !! kb = None -> chunkMaps st !! kb = None ->
  ∃ index chunkMap,
    indices st' !! kb = Some index ∧ chunkMaps st' !! kb = Some chunkMap ∧
    getCurrentCount index = length kbDocs ∧
    dom chunkMap = (set_seq 0 (length kbDocs) : gset nat).
Proof.
  intros Hone. induction groups as [|[kb1 kbDocs1] rest IH]; intros st st'; [done|].
  rewrite addGroups_cons.
  destruct (addDocumentsToKB _ _ _ _ _) as [[[]|e] st1] eqn:Hrun; [|done].
  intros Hrest [Hnin Hnd]%NoDup_cons Hget Hi0 Hc0. cbn in Hget.
  destruct (decide (kb1 = kb)) as [->|Hne].
  - injection Hget as ->.
    destruct (addDocumentsToKB_fresh _ _ _ _ _ Hone Hrun Hi0 Hc0)
      as (index & chunkMap & Hi & Hc & Hcount & Hdom).
    destruct (addGroups_frame _ _ kb _ _ Hrest Hnin) as [Hi' Hc'].
    exists index, chunkMap. by rewrite Hi', Hc'.
  - destruct (addDocumentsToKB_frame _ kb _ _ _ _ Hrun) as [Hi Hc]; [done|].
    apply (IH _ _ Hrest Hnd Hget); congruence.
Qed.

End AddFacts.

(** ** Loading and removal *)

Section RegistryFacts.
Variable getEmbeddings : list string -> Outcome (list Vec).
Variable searchKnn : Index -> Vec -> nat -> Outcome KnnResult.


(** A search that misses the cache while the knowledge base cannot be
    loaded returns the empty list. *)
Lemma search_absent (options : RAGSearchOptions) (clock : SearchClock) (st : State)
    (queryVector : Vec) (rest : list Vec) :
  getEmbeddings [opt_query options] = Ok (queryVector :: rest) ->
  (SearchCache_get (searchCache st) (opt_knowledgeBase options) queryVector
     (kInputOf options) (t_get clock)).1 = None ->
  (∀ st1, indices st1 = indices st -> chunkMaps st1 = chunkMaps st ->
          disk st1 = disk st -> config st1 = config st ->
          (getOrLoadIndex (opt_knowledgeBase options) st1).1 = Ok None) ->
  (search getEmbeddings searchKnn options clock st).1 = Ok [].
Proof.
  intros Hemb Hmiss Habsent. rewrite search_eq, Hemb. cbn zeta. rewrite Hmiss.
  specialize (Habsent
    (set_searchCache (fun _ =>
       (SearchCache_get (searchCache st) (opt_knowledgeBase options) queryVector
          (kInputOf options) (t_get clock)).2) st) eq_refl eq_refl eq_refl eq_refl).
  destruct (getOrLoadIndex _ _) as [[[index|]|e] st2]; cbn in Habsent; done.
Qed.

(** C2, as the code has it. A knowledge base that is not in memory and
    whose chunk-map file is malformed is reported as absent, in the same
    way as one whose files do not exist: [getOrLoadIndex] returns [null],
    throws nothing and changes nothing, and a search that misses the cache
    returns the empty list. *)
Theorem getOrLoadIndex_malformed_is_absent (kb : string) (st : State) :
  indices st !! kb = None ->
  disk st !! chunkPath (config st) kb = Some FCorrupt ->
  getOrLoadIndex kb st = (Ok None, st) ∧
  getOrLoadIndex kb
    (set_disk (fun d => delete (chunkPath (config st) kb)
                          (delete (indexPath (config st) kb) d)) st)
    = (Ok None,
       set_disk (fun d => delete (chunkPath (config st) kb)
                            (delete (indexPath (config st) kb) d)) st) ∧
  ∀ options clock queryVector rest,
    opt_knowledgeBase options = kb ->
    getEmbeddings [opt_query options] = Ok (queryVector :: rest) ->
    (SearchCache_get (searchCache st) kb queryVector (kInputOf options)
       (t_get clock)).1 = None ->
    (search getEmbeddings searchKnn options clock st).1 = Ok [].
Proof.
  intros Hmem Hchunks.
  assert (Hload : ∀ st1, indices st1 = indices st -> disk st1 = disk st ->
            config st1 = config st -> getOrLoadIndex kb st1 = (Ok None, st1)).
  { intros st1 Hi Hd Hc. unfold getOrLoadIndex. rewrite Hi, Hd, Hc, Hmem, Hchunks.
    by destruct (disk st !! indexPath (config st) kb) as [[| |]|]. }
  split; [by apply Hload|]. split.
  - unfold getOrLoadIndex. cbn. rewrite Hmem.
    rewrite lookup_delete_ne by apply chunkPath_ne_indexPath.
    by rewrite lookup_delete_eq.
  - intros options clock queryVector rest <- Hemb Hmiss.
    apply (search_absent _ _ _ _ _ Hemb Hmiss).
    intros st1 Hi _ Hd Hc. by rewrite Hload.
Qed.

Lemma removeKnowledgeBase_eq (name : string) (st : State) :
  removeKnowledgeBase name st =
  let st1 := set_chunkMaps (delete name) (set_indices (delete name) st) in
  (Ok tt,
   match disk st !! indexPath (config st) name with
   | None => st1
   | Some _ =>
       set_disk (fun d => delete (chunkPath (config st) name)
                            (delete (indexPath (config st) name) d)) st1
   end).
Proof.
  unfold removeKnowledgeBase, unlink, mbind, M_bind. cbn.
  destruct (disk st !! indexPath (config st) name) as [f|]; [|done]. cbn.
  rewrite lookup_delete_ne by apply indexPath_ne_chunkPath.
  destruct (disk st !! chunkPath (config st) name) as [g|] eqn:Hg; [done|].
  cbn. unfold set_disk. cbn. by rewrite (delete_id _ (chunkPath (config st) name)) 
    by (by rewrite lookup_delete_ne by apply indexPath_ne_chunkPath).
Qed.


End RegistryFacts.

(** ** Consistency along every run *)

Section RunFacts.
Variable getEmbeddings : list string -> Outcome (list Vec).
Variable searchKnn : Index -> Vec -> nat -> Outcome KnnResult.
Variable tryWrite : string -> FileData -> WriteResult.
Hypothesis one_vector : one_vector_per_text getEmbeddings.
Hypothesis writes_ok : writes_succeed tryWrite.

(** Consistency only looks at the two maps, the disk and the
    configuration. *)
Lemma consistent_same_registry (st st' : State) :
  indices st' = indices st -> chunkMaps st' = chunkMaps st ->
  disk st' = disk st -> config st' = config st ->
  consistent st -> consistent st'.
Proof.
  intros Hi Hc Hd Hcfg Hst kb. destruct (Hst kb) as [Hkb Hdisk].
  unfold kb_consistent, disk_consistent in *. by rewrite Hi, Hc, Hd, Hcfg.
Qed.

Lemma consistent_new (cfg : Config) (files : gmap string FileData) :
  (∀ kb, disk_consistent (RAGService_new cfg files) kb) ->
  consistent (RAGService_new cfg files).
Proof.
  intros Hfiles kb. split; [|done].
  unfold kb_consistent. cbn. by rewrite !lookup_empty.
Qed.

Lemma empty_disk_consistent (cfg : Config) (kb : string) :
  disk_consistent (RAGService_new cfg ∅) kb.
Proof. intros index chunkMap Hi. cbn in Hi. by rewrite lookup_empty in Hi. Qed.

Lemma getOrLoadIndex_run (kb : string) (st : State) :
  consistent st -> consistent (getOrLoadIndex kb st).2.
Proof.
  intros Hst. unfold getOrLoadIndex.
  destruct (indices st !! kb) as [index|] eqn:Hmem; [done|].
  destruct (disk st !! indexPath (config st) kb) as [[stored| |]|] eqn:Hif; try done.
  destruct (disk st !! chunkPath (config st) kb) as [[|chunkMap|]|] eqn:Hcf; try done.
  cbn [snd]. intros kb'. destruct (Hst kb') as [Hkb Hdisk]. split; [|done].
  unfold kb_consistent in *. cbn.
  destruct (decide (kb' = kb)) as [->|Hne].
  - rewrite !lookup_insert_eq. eexists. split; [done|].
    exact (proj2 (Hst kb) stored chunkMap Hif Hcf).
  - by rewrite !lookup_insert_ne.
Qed.

Lemma search_run (options : RAGSearchOptions) (clock : SearchClock) (st : State) :
  consistent st -> consistent (exec (search getEmbeddings searchKnn options clock) st).
Proof.
  intros Hst. unfold exec. rewrite search_eq.
  destruct (getEmbeddings _) as [[|queryVector rest]|e]; try done.
  cbn zeta.
  destruct (SearchCache_get _ _ _ _ _) as [cached c]. cbn [fst snd].
  destruct cached as [cachedResults|];
    [by apply (consistent_same_registry st)|].
  pose proof (getOrLoadIndex_run (opt_knowledgeBase options)
                (set_searchCache (fun _ => c) st)) as Hload.
  destruct (getOrLoadIndex _ _) as [[[index|]|e] st2]; cbn [snd] in Hload |- *;
    try (apply Hload; by apply (consistent_same_registry st)).
  destruct (searchKnn _ _ _) as [answer|e]; cbn [snd];
    apply (consistent_same_registry st2); try done;
    apply Hload; by apply (consistent_same_registry st).
Qed.

Lemma addDocumentsToKB_run (kb : string) (docs : list RAGDocument) (now : Z)
    (st : State) :
  consistent st ->
  consistent (exec (addDocumentsToKB getEmbeddings tryWrite kb docs now) st).
Proof.
  intros Hst. unfold exec.
  destruct (getEmbeddings (map doc_content docs)) as [embeddings|e] eqn:Hemb.
  2:{ rewrite addDocumentsToKB_eq. by rewrite Hemb. }
  destruct (addDocumentsToKB_succeeds getEmbeddings tryWrite kb docs now st
              embeddings Hemb) as [st' Hrun]; [|done|done|].
  { apply one_vector in Hemb. rewrite length_map in Hemb. lia. }
  rewrite Hrun. cbn [snd].
  assert (Hkb : ∀ kb', kb_consistent st' kb').
  { apply (addDocumentsToKB_consistent _ _ _ _ _ _ _ Hrun). intros kb'. apply Hst. }
  intros kb'. split; [done|].
  apply addDocumentsToKB_Ok_inv in Hrun as (embeddings' & chunkMap' & _ & Hst' & _).
  cbn zeta in Hst'.
  set (index' := withPoints _ _) in Hst'. set (events := _ ++ _) in Hst'.
  pose proof (stored_lookups st kb index' chunkMap' events)
    as (Hi & Hc & Hdi & Hdc & _ & Hcfg & _).
  rewrite <- Hst' in Hi, Hc, Hdi, Hdc, Hcfg.
  intros index chunkMap. rewrite Hcfg.
  destruct (decide (sameFiles (config st) kb' kb)) as [Hsame|Hdiff].
  - rewrite (proj2 (indexPath_eq_iff _ _ _) Hsame),
      (proj2 (chunkPath_eq_iff _ _ _) Hsame), Hdi, Hdc.
    intros [= <-] [= <-].
    specialize (Hkb kb). unfold kb_consistent in Hkb. rewrite Hi, Hc in Hkb.
    by destruct Hkb as (? & [= <-] & ?).
  - rewrite Hst'. unfold stored. cbn.
    rewrite lookup_insert_ne
      by (intros H; by apply (indexPath_ne_chunkPath_any (config st) kb' kb)).
    rewrite lookup_insert_ne by (by intros ?%indexPath_eq_iff).
    rewrite lookup_insert_ne by (by intros ?%chunkPath_eq_iff).
    rewrite lookup_insert_ne by apply indexPath_ne_chunkPath_any.
    apply (proj2 (Hst kb')).
Qed.

Lemma addGroups_run (groups : list (string * list RAGDocument)) (now : Z) :
  ∀ st, consistent st -> consistent (exec (addGroups getEmbeddings tryWrite groups now) st).
Proof.
  induction groups as [|[kb kbDocs] rest IH]; intros st Hst; [done|].
  unfold exec. rewrite addGroups_cons.
  pose proof (addDocumentsToKB_run kb kbDocs now st Hst) as Hrun. unfold exec in Hrun.
  destruct (addDocumentsToKB _ _ _ _ _) as [[[]|e] st1]; [|done].
  by apply IH.
Qed.

Lemma addDocuments_run (docs : list RAGDocument) (now : Z) (st : State) :
  consistent st -> consistent (exec (addDocuments getEmbeddings tryWrite docs now) st).
Proof. destruct docs; [done|]. apply addGroups_run. Qed.

Lemma updateDocument_run (id : string) (doc : PartialDocument) (now : Z) (st : State) :
  consistent st -> consistent (exec (updateDocument getEmbeddings tryWrite id doc now) st).
Proof.
  intros Hst. unfold updateDocument.
  destruct (pd_knowledgeBase doc) as [kb|]; [|done].
  destruct (truthy_string kb); [|done].
  destruct (pd_content doc) as [content|]; [|done].
  destruct (truthy_string content); [|done].
  by apply (addDocuments_run [_]).
Qed.

Lemma removeKnowledgeBase_run (name : string) (st : State) :
  consistent st -> consistent (exec (removeKnowledgeBase name) st).
Proof.
  intros Hst. unfold exec. rewrite removeKnowledgeBase_eq. cbn [snd].
  set (st1 := set_chunkMaps (delete name) (set_indices (delete name) st)).
  assert (H1 : consistent st1).
  { intros kb. destruct (Hst kb) as [Hkb Hdisk]. split; [|done].
    unfold kb_consistent in *. cbn.
    destruct (decide (kb = name)) as [->|Hne].
    - by rewrite !lookup_delete_eq.
    - by rewrite !lookup_delete_ne. }
  destruct (disk st !! indexPath (config st) name); [|done].
  intros kb. destruct (H1 kb) as [Hkb Hdisk]. split; [done|].
  intros index chunkMap Hi Hc. cbn in Hi, Hc.
  apply (Hdisk index chunkMap); cbn.
  - apply lookup_delete_Some in Hi as [_ Hi]. by apply lookup_delete_Some in Hi as [_ Hi].
  - apply lookup_delete_Some in Hc as [_ Hc]. by apply lookup_delete_Some in Hc as [_ Hc].
Qed.

(** Whatever the calls made and whether they succeeded, the chunk map of
    every knowledge base has exactly the ordinals of its index. *)
Lemma reachable_consistent (st : State) :
  reachable getEmbeddings searchKnn tryWrite st -> consistent st.
Proof.
  induction 1 as [cfg files Hfiles|st st' _ IH Hstep]; [by apply consistent_new|].
  destruct Hstep.
  - by apply search_run.
  - by apply addDocuments_run.
  - by apply updateDocument_run.
  - done.
  - by apply removeKnowledgeBase_run.
Qed.

End RunFacts.

(** C4, as the code has it. Take a service that was started over a working
    directory whose files agree (an empty one for instance) and used
    through [search], [addDocuments], [updateDocument], [removeDocument]
    and [removeKnowledgeBase], with a provider that answers every batch
    with one vector per text and with file writes that succeed. After every
    successful [addDocuments] the chunk map of every knowledge base in
    memory has exactly the ordinals [0 .. currentCount-1] of its index, and
    as many entries as the index has points; a knowledge base that has no
    index in memory and no index file, and that receives [n > 0] documents
    of the batch, has [currentCount = n] and the ordinals [0 .. n-1]
    afterwards. *)
Theorem addDocuments_ordinals_contiguous
    (getEmbeddings : list string -> Outcome (list Vec))
    (searchKnn : Index -> Vec -> nat -> Outcome KnnResult)
    (tryWrite : string -> FileData -> WriteResult)
    (docs : list RAGDocument) (now : Z) (st st' : State) :
  (∀ texts embeddings,
     getEmbeddings texts = Ok embeddings -> length embeddings = length texts) ->
  (∀ path data, tryWrite path data = Written) ->
  reachable getEmbeddings searchKnn tryWrite st ->
  addDocuments getEmbeddings tryWrite docs now st = (Ok tt, st') ->
  (∀ kb index,
     indices st' !! kb = Some index ->
     ∃ chunkMap,
       chunkMaps st' !! kb = Some chunkMap ∧
       dom chunkMap = (set_seq 0 (getCurrentCount index) : gset nat) ∧
       size chunkMap = getCurrentCount index) ∧
  (∀ kb,
     indices st !! kb = None ->
     disk st !! indexPath (config st) kb = None ->
     List.filter (fun doc => bool_decide (doc_knowledgeBase doc = kb)) docs ≠ [] ->
     let n := length (List.filter (fun doc => bool_decide (doc_knowledgeBase doc = kb))
                        docs) in
     ∃ index chunkMap,
       indices st' !! kb = Some index ∧ chunkMaps st' !! kb = Some chunkMap ∧
       getCurrentCount index = n ∧
       dom chunkMap = (set_seq 0 n : gset nat)).
Proof.
  intros Hone Hwrites Hreach Hrun.
  assert (Hinv : ∀ kb, kb_consistent st kb).
  { intros kb.
    apply (reachable_consistent getEmbeddings searchKnn tryWrite Hone Hwrites st Hreach). }
  assert (Hgroups :
    addGroups getEmbeddings tryWrite (groupDocs docs) now st = (Ok tt, st')).
  { destruct docs; [|done]. by injection Hrun as <-. }
  assert (Hinv' : ∀ kb, kb_consistent st' kb)
    by (by apply (addGroups_consistent _ _ _ _ _ _ Hgroups)).
  split.
  - intros kb index Hi. specialize (Hinv' kb).
    unfold kb_consistent in Hinv'. rewrite Hi in Hinv'.
    destruct Hinv' as (chunkMap & Hc & Hdom). exists chunkMap.
    split; [done|]. split; [done|].
    rewrite <- size_dom, Hdom. apply size_set_seq.
  - intros kb Hi0 _ Hdocs n.
    destruct (groupDocs_grouped docs) as [Hnd Hget]. specialize (Hget kb).
    specialize (Hinv kb). unfold kb_consistent in Hinv. rewrite Hi0 in Hinv.
    apply (addGroups_fresh _ _ _ _ _ _ Hone _ _ Hgroups Hnd); [|done|done].
    rewrite Hget. unfold docsOf. fold n.
    by destruct (List.filter _ docs).
Qed.

(** *** The cache along a run *)

Section CacheRunFacts.
Variable getEmbeddings : list string -> Outcome (list Vec).
Variable searchKnn : Index -> Vec -> nat -> Outcome KnnResult.
Variable tryWrite : string -> FileData -> WriteResult.
Hypothesis knn_ok : knn_contract searchKnn.

Lemma search_cache_run (options : RAGSearchOptions) (clock : SearchClock) (st : State) :
  cache_ok (searchCache st) ->
  cache_ok (searchCache (exec (search getEmbeddings searchKnn options clock) st)).
Proof.
  intros Hok. unfold exec.
  destruct (search getEmbeddings searchKnn options clock st) as [[results|e] st']
    eqn:Hrun.
  { by apply (search_Ok_ok getEmbeddings searchKnn options clock st st'
                results knn_ok Hok Hrun). }
  rewrite search_eq in Hrun.
  destruct (getEmbeddings _) as [[|queryVector rest]|e']; try by injection Hrun as <- <-.
  cbn zeta in Hrun.
  pose proof (SearchCache_get_ok (searchCache st) (opt_knowledgeBase options)
                queryVector (kInputOf options) (t_get clock) Hok) as [Hget _].
  destruct (SearchCache_get _ _ _ _ _) as [cached c]. cbn [fst snd] in Hrun, Hget.
  destruct cached as [cachedResults|]; [done|].
  pose proof (getOrLoadIndex_frame (opt_knowledgeBase options)
                (set_searchCache (fun _ => c) st)) as Hload.
  destruct (getOrLoadIndex _ _) as [[[index|]|e'] st2]; cbn [fst snd] in Hload;
    destruct Hload as (Hsc & _ & _ & _ & _ & found & Hfound & _); try done.
  destruct (searchKnn _ _ _) as [answer|e']; [done|].
  injection Hrun as <- <-. cbn. by rewrite Hsc.
Qed.

Lemma addDocumentsToKB_cache (kb : string) (docs : list RAGDocument) (now : Z)
    (st : State) :
  searchCache (exec (addDocumentsToKB getEmbeddings tryWrite kb docs now) st)
  = searchCache st.
Proof.
  unfold exec. rewrite addDocumentsToKB_eq.
  destruct (getEmbeddings _) as [embeddings|e]; [|done]. cbv zeta.
  destruct (addPoints _ _ _ _ _ _ _) as [[[[[]|e] index'] chunkMap'] labels].
  - rewrite saves_eq.
    destruct (tryWrite (indexPath _ _) _) as [|e damaged]; [|by destruct damaged].
    cbv zeta.
    by destruct (tryWrite (chunkPath _ _) _) as [|e damaged]; [|destruct damaged].
  - by destruct (chunkMaps st !! kb).
Qed.

Lemma addGroups_cache (groups : list (string * list RAGDocument)) (now : Z) :
  ∀ st, searchCache (exec (addGroups getEmbeddings tryWrite groups now) st) = searchCache st.
Proof.
  induction groups as [|[kb kbDocs] rest IH]; intros st; [done|].
  unfold exec. rewrite addGroups_cons.
  pose proof (addDocumentsToKB_cache kb kbDocs now st) as Hrun. unfold exec in Hrun.
  destruct (addDocumentsToKB _ _ _ _ _) as [[[]|e] st1]; [|done].
  cbn [snd] in Hrun. rewrite <- Hrun. apply IH.
Qed.

Lemma addDocuments_cache (docs : list RAGDocument) (now : Z) (st : State) :
  searchCache (exec (addDocuments getEmbeddings tryWrite docs now) st) = searchCache st.
Proof. destruct docs; [done|]. apply addGroups_cache. Qed.

Lemma updateDocument_cache (id : string) (doc : PartialDocument) (now : Z)
    (st : State) :
  searchCache (exec (updateDocument getEmbeddings tryWrite id doc now) st) = searchCache st.
Proof.
  unfold updateDocument.
  destruct (pd_knowledgeBase doc) as [kb|]; [|done].
  destruct (truthy_string kb); [|done].
  destruct (pd_content doc) as [content|]; [|done].
  destruct (truthy_string content); [|done].
  apply (addDocuments_cache [_]).
Qed.

(** In every state of a run the cache holds acceptable answers only: no
    operation other than [search] writes to it. *)
Lemma reachable_cache_ok (st : State) :
  reachable getEmbeddings searchKnn tryWrite st -> cache_ok (searchCache st).
Proof.
  induction 1 as [cfg files _|st st' _ IH Hstep].
  { intros key entry Hin. cbn in Hin. by apply elem_of_nil in Hin. }
  destruct Hstep.
  - by apply search_cache_run.
  - by rewrite addDocuments_cache.
  - by rewrite updateDocument_cache.
  - done.
  - unfold exec. rewrite removeKnowledgeBase_eq. cbn.
    by destruct (disk st !! indexPath (config st) name).
Qed.

End CacheRunFacts.

(** ** The reference index keeps the promise of the library *)

Lemma StronglySorted_take {A} (R : relation A) (n : nat) (l : list A) :
  StronglySorted R l -> StronglySorted R (take n l).
Proof.
  intros Hl. revert n. induction Hl as [|x l Hl IH Hx]; intros [|n]; cbn;
    try constructor; [apply IH | by apply Forall_take].
Qed.

Lemma sqdist_nonneg (a b : Vec) : (0 <= sqdist a b)%Q.
Proof.
  unfold sqdist. revert b. induction a as [|x a IH]; intros [|y b]; cbn; try done.
  assert (0 <= (x - y) * (x - y))%Q.
  { destruct (Qlt_le_dec (x - y) 0).
    - assert (Heq : ((x - y) * (x - y) == (- (x - y)) * (- (x - y)))%Q) by ring.
      rewrite Heq. apply Qmult_le_0_compat; lra.
    - by apply Qmult_le_0_compat. }
  specialize (IH b). lra.
Qed.

Lemma sqdist_dot (a b : Vec) :
  length a = length b ->
  (sqdist a b == dot a a - 2 * dot a b + dot b b)%Q.
Proof.
  unfold sqdist, dot. revert b.
  induction a as [|x a IH]; intros [|y b] Hlen; try done.
  injection Hlen as Hlen. specialize (IH b Hlen). cbn in *. rewrite IH. ring.
Qed.

(** Between vectors of norm 1 the cosine distance is half the squared
    Euclidean distance, so it is not negative. *)
Lemma cosineDistance_nonneg (a b : Vec) :
  isUnit a = true -> isUnit b = true -> length a = length b ->
  (0 <= cosineDistance a b)%Q.
Proof.
  unfold isUnit, cosineDistance. intros Ha%Qeq_bool_iff Hb%Qeq_bool_iff Hlen.
  pose proof (sqdist_nonneg a b) as Hpos.
  rewrite (sqdist_dot a b Hlen), Ha, Hb in Hpos. lra.
Qed.

Lemma exactKnn_contract : knn_contract exactKnn.
Proof.
  intros index q k r. unfold exactKnn.
  destruct (forallb _ _) eqn:Hunit; [|done]. intros [= <-].
  unfold knn_answer_ok. cbn [neighbors distances].
  set (ranked := merge_sort nearer _).
  assert (Hsorted : StronglySorted nearer ranked).
  { apply StronglySorted_merge_sort.
    - intros x y z. unfold nearer. apply Qle_trans.
    - intros x y. unfold nearer. destruct (Qlt_le_dec (snd x) (snd y)); [left|right]; lra. }
  split; [|split].
  - rewrite length_map, length_take. lia.
  - apply (StronglySorted_fmap snd nearer); [done|]. by apply StronglySorted_take.
  - apply Forall_fmap, Forall_take. unfold ranked.
    rewrite merge_sort_Permutation. apply Forall_fmap, Forall_forall.
    intros p Hp. cbn.
    cbn [forallb] in Hunit. apply andb_true_iff in Hunit as [Hq Hpoints].
    apply andb_true_iff in Hq as [Hq Hqlen]. apply Nat.eqb_eq in Hqlen.
    rewrite forallb_forall in Hpoints.
    specialize (Hpoints (snd p)).
    rewrite andb_true_iff, Nat.eqb_eq in Hpoints.
    destruct Hpoints as [Hp1 Hp2].
    { apply in_map. by apply list_elem_of_In. }
    pose proof (cosineDistance_nonneg q (snd p) Hq Hp1) as Hd.
    assert (-1 < cosineDistance q p.2)%Q; [|done].
    specialize (Hd ltac:(congruence)). lra.
Qed.

Lemma lengthEmbeddings_one_vector : one_vector_per_text lengthEmbeddings.
Proof. intros texts embeddings [= <-]. apply length_map. Qed.

(** ** The model at work *)

Lemma stEmpty_consistent (kb : string) : kb_consistent stEmpty kb.
Proof. unfold kb_consistent. cbn. by rewrite !lookup_empty. Qed.

Lemma stDocs_consistent (kb : string) : kb_consistent stDocs kb.
Proof.
  revert kb.
  apply (addGroups_consistent lengthEmbeddings alwaysWritten (groupDocs threeDocs) 1000
           stEmpty).
  - vm_compute. reflexivity.
  - apply stEmpty_consistent.
Qed.

Lemma stDocs_cache_ok : cache_ok (searchCache stDocs).
Proof. intros key entry Hin. vm_compute in Hin. inversion Hin. Qed.

(** The scenario of the specification: three documents, the two nearest to
    the second one are asked for. *)
Example search_two_of_three :
  map (fun r => (res_id r, Qred (res_score r)))
    (okResults (search lengthEmbeddings exactKnn askTwo (demoClock 2000) stDocs).1)
    = [("doc-1", 1%Q); ("doc-2", (85 # 93)%Q)].
Proof. vm_compute. reflexivity. Qed.

(** The scenario of the specification: documents added one at a time to a
    knowledge base created with capacity [max(1 + 256, 1024) = 1024]. The
    1025th insertion resizes the index, once, and none is lost. *)
Example grow_at_1025 :
  (let st := addOneByOne 1024 stEmpty in
   (getMaxElements <$> indices st !! "docs", resizes "docs" (trace st)))
    = (Some 1024%nat, []) ∧
  (let st := addOneByOne 1025 stEmpty in
   (getCurrentCount <$> indices st !! "docs",
    getMaxElements <$> indices st !! "docs",
    resizes "docs" (trace st),
    size <$> chunkMaps st !! "docs"))
    = (Some 1025%nat, Some 1536%nat, [1536%nat], Some 1025%nat).
Proof. split; vm_compute; reflexivity. Qed.

(** ** Instances of the theorems *)

Ltac by_decide := apply (bool_decide_unpack _); vm_compute; exact I.

Lemma SearchCache_set_evicts_first_inserted_witness :
  (SearchCache_get cacheFull "docs" [1%Q; 1%Q] 2 300).1 = Some [] ∧
  JsMap.keys
    (cache (SearchCache_set (SearchCache_get cacheFull "docs" [1%Q; 1%Q] 2 300).2
              "docs" [6%Q; 1%Q] 2 [] 400))
    = [getCacheKey "docs" [3%Q; 1%Q] 2; getCacheKey "docs" [6%Q; 1%Q] 2].
Proof.
  destruct (SearchCache_set_evicts_first_inserted cacheFull
              (getCacheKey "docs" [1%Q; 1%Q] 2)
              {| ce_result := []; ce_timestamp := 100 |}
              [(getCacheKey "docs" [3%Q; 1%Q] 2,
                {| ce_result := []; ce_timestamp := 200 |})]
              "docs" [6%Q; 1%Q] 2 [] 400)
    as (_ & Hread).
  - reflexivity.
  - by_decide.
  - reflexivity.
  - by_decide.
  - destruct (Hread "docs" [1%Q; 1%Q] 2 300) as (Hhit & _ & Hset & _).
    + reflexivity.
    + reflexivity.
    + split; [exact Hhit|]. rewrite Hset. reflexivity.
Defined.

Lemma getOrLoadIndex_malformed_is_absent_witness :
  getOrLoadIndex "docs" stCorrupt = (Ok None, stCorrupt).
Proof.
  destruct (getOrLoadIndex_malformed_is_absent lengthEmbeddings exactKnn
              "docs" stCorrupt) as (Hload & _).
  - vm_compute. reflexivity.
  - vm_compute. reflexivity.
  - exact Hload.
Defined.

Lemma search_score_is_similarity_witness :
  ∃ index queryVector answer chunkMap,
    exactKnn index queryVector 2 = Ok answer ∧
    okResults (search lengthEmbeddings exactKnn askTwo (demoClock 2000) stDocs).1
      = scoreAndFilter chunkMap answer (thresholdOf askTwo).
Proof.
  destruct (search_score_is_similarity lengthEmbeddings exactKnn
              askTwo (demoClock 2000) stDocs stSearched
              (okResults (search lengthEmbeddings exactKnn askTwo
                            (demoClock 2000) stDocs).1) 3 2)
    as (index & queryVector & answer & chunkMap & Hknn & Hresults & _).
  - vm_compute. reflexivity.
  - vm_compute. reflexivity.
  - exists index, queryVector, answer, chunkMap. split; [exact Hknn | exact Hresults].
Defined.

Lemma search_cache_hit_leaves_metrics_witness :
  stats (exec (search lengthEmbeddings exactKnn askTwo
                 (demoClock 3000)) stSearched) = stats stSearched ∧
  totalSearches (stats stSearched) = 1%nat.
Proof.
  destruct (search_cache_hit_leaves_metrics lengthEmbeddings exactKnn
              askTwo (demoClock 3000) stSearched
              (unitOfLength 2) []
              (okResults (search lengthEmbeddings exactKnn
                            askTwo
                            (demoClock 2000) stDocs).1))
    as (_ & Hstats & _).
  - reflexivity.
  - vm_compute. reflexivity.
  - split; [exact Hstats | vm_compute; reflexivity].
Defined.



Lemma search_results_ranked_witness :
  map res_id
    (okResults (search lengthEmbeddings exactKnn (askTwoAbove (19 # 20))
                  (demoClock 2000) stDocs).1) = ["doc-1"] ∧
  (length (okResults (search lengthEmbeddings exactKnn (askTwoAbove (19 # 20))
                        (demoClock 2000) stDocs).1) <= 2)%nat ∧
  Forall (fun r => (19 # 20 <= res_score r)%Q)
    (okResults (search lengthEmbeddings exactKnn (askTwoAbove (19 # 20))
                  (demoClock 2000) stDocs).1).
Proof.
  destruct (search_results_ranked lengthEmbeddings exactKnn
              (askTwoAbove (19 # 20)) (demoClock 2000) stDocs
              (search lengthEmbeddings exactKnn (askTwoAbove (19 # 20))
                 (demoClock 2000) stDocs).2
              (okResults (search lengthEmbeddings exactKnn (askTwoAbove (19 # 20))
                            (demoClock 2000) stDocs).1))
    as (_ & Hlen & _ & _ & Hthreshold & _).
  - exact exactKnn_contract.
  - exact stDocs_cache_ok.
  - vm_compute. reflexivity.
  - split; [vm_compute; reflexivity|]. split.
    + apply (Hlen 2); [reflexivity | lia].
    + apply Forall_forall. apply (Hthreshold eq_refl (19 # 20)%Q). reflexivity.
Defined.

Lemma addDocuments_ordinals_contiguous_witness :
  ∃ index chunkMap,
    indices stDocs !! "docs" = Some index ∧
    chunkMaps stDocs !! "docs" = Some chunkMap ∧
    getCurrentCount index = 3%nat ∧
    dom chunkMap = (set_seq 0 3 : gset nat).
Proof.
  destruct (addDocuments_ordinals_contiguous lengthEmbeddings exactKnn alwaysWritten
              threeDocs 1000 stEmpty stDocs) as (_ & Hfresh).
  - exact lengthEmbeddings_one_vector.
  - reflexivity.
  - apply (reachable_new _ _ _ demoConfig ∅). apply empty_disk_consistent.
  - vm_compute. reflexivity.
  - apply (Hfresh "docs").
    + vm_compute. reflexivity.
    + vm_compute. reflexivity.
    + vm_compute. discriminate.
Defined.

Lemma search_query_count_witness :
  map res_id
    (okResults (search lengthEmbeddings exactKnn askFive (demoClock 2000) stDocs).1)
    = ["doc-1"; "doc-2"; "doc-0"] ∧
  trace (exec (search lengthEmbeddings exactKnn askFive (demoClock 2000)) stDocs)
    = trace stDocs ++ [EvSearchKnn "docs" 3 3] ∧
  Z.of_nat 3 = clamp 5 1 (Z.min 3 1024).
Proof.
  pose proof (search_query_count lengthEmbeddings exactKnn askFive (demoClock 2000)
                stDocs (unitOfLength 2) [] eq_refl eq_refl) as Hquery.
  cbv zeta in Hquery.
  destruct (getOrLoadIndex (opt_knowledgeBase askFive) stDocs).1
    as [[index|]|e] eqn:Hload; try (vm_compute in Hload; discriminate).
  assert (Hindex : index = withPoints (setEf (initIndex 2 1024) 150)
                     [(0%nat, unitOfLength 1); (1%nat, unitOfLength 2);
                      (2%nat, unitOfLength 4)]).
  { vm_compute in Hload. injection Hload as <-. vm_compute. reflexivity. }
  subst index. destruct Hquery as (_ & _ & Htrace & Hclamp & _).
  split; [vm_compute; reflexivity|]. split; [exact Htrace|].
  apply Hclamp. vm_compute. lia.
Defined.

(** ** Where the code departs from the statements *)

(** C1 as stated fails. With [k = 0] the default of 10 applies and three
    results come back; and a list cached for a request without threshold is
    returned unfiltered to a later request for the same query and [k] with
    the threshold 19/20, although its second score is 85/93. *)
Lemma search_exceeds_k_and_threshold :
  (opt_k askZero = Some 0 ∧
   ∃ results,
     (search lengthEmbeddings exactKnn askZero (demoClock 2000) stDocs).1 = Ok results ∧
     map (fun r => (res_id r, Qred (res_score r))) results
       = [("doc-1", 1%Q); ("doc-2", (85 # 93)%Q); ("doc-0", (5 # 6)%Q)] ∧
     ¬ (length results <= Z.to_nat 0)%nat) ∧
  (opt_similarityThreshold (askTwoAbove (19 # 20)) = Some (19 # 20)%Q ∧
   ∃ results,
     (search lengthEmbeddings exactKnn (askTwoAbove (19 # 20)) (demoClock 3000)
        stSearched).1 = Ok results ∧
     map (fun r => (res_id r, Qred (res_score r))) results
       = [("doc-1", 1%Q); ("doc-2", (85 # 93)%Q)] ∧
     ¬ Forall (fun r => (19 # 20 <= res_score r)%Q) results).
Proof.
  split; (split; [reflexivity|]).
  - eexists. split; [vm_compute; reflexivity|]. split; [vm_compute; reflexivity|].
    cbn. lia.
  - eexists. split; [vm_compute; reflexivity|]. split; [vm_compute; reflexivity|].
    intros Hall. apply Forall_cons in Hall as [_ Hall].
    apply Forall_cons in Hall as [Hlow _]. vm_compute in Hlow. by apply Hlow.
Qed.

(** C2 as stated fails. The index file of ["docs"] is readable and its
    chunk-map file is malformed; loading answers [null] instead of
    throwing, and a search returns the empty list. *)
Lemma getOrLoadIndex_corrupt_not_raised :
  is_Some (disk stCorrupt !! indexPath demoConfig "docs") ∧
  disk stCorrupt !! chunkPath demoConfig "docs" = Some FCorrupt ∧
  (getOrLoadIndex "docs" stCorrupt).1 = Ok None ∧
  (∀ e, (getOrLoadIndex "docs" stCorrupt).1 ≠ Throw e) ∧
  (search lengthEmbeddings exactKnn askTwo (demoClock 2000) stCorrupt).1 = Ok [].
Proof.
  split; [vm_compute; eauto|]. split; [vm_compute; reflexivity|].
  split; [vm_compute; reflexivity|]. split; [|vm_compute; reflexivity].
  intros e. vm_compute. discriminate.
Qed.


(** The removal of a knowledge base whose [.hnsw] file is missing stops at
    the first [unlink] and leaves the [.chunks.json] file in place. *)
Lemma removeKnowledgeBase_leaves_chunks_file :
  disk stOnlyChunks !! indexPath demoConfig "docs" = None ∧
  (removeKnowledgeBase "docs" stOnlyChunks).1 = Ok tt ∧
  disk (exec (removeKnowledgeBase "docs") stOnlyChunks) !! chunkPath demoConfig "docs"
    = Some (FChunks ∅).
Proof. repeat split; vm_compute; reflexivity. Qed.

(** C4 as stated fails, in four ways. After a batch for which the provider
    returned one vector too many, which fails, a successful [addDocuments]
    leaves three points and the single ordinal 2. Over a directory whose
    index file holds two points and whose chunk-map file one chunk, a
    search loads both and a successful [addDocuments] leaves three points
    and the ordinals 0 and 2. When the write of the chunk-map file fails
    after the index file was written, the files disagree; once they are
    loaded under another name for the same files, [./docs], a successful
    [addDocuments] leaves that name with two points and the ordinal 0. And
    when [docs] and [./docs] are both in memory, [shutdown] writes the
    index of the one over the file of the other; after it, a search loads
    one point and two chunks, which a successful [addDocuments] leaves
    so. *)
Lemma addDocuments_ordinals_not_contiguous :
  (let failed :=
     exec (addDocuments overrunEmbeddings alwaysWritten [mkDoc "docs" "a"] 1000)
       stEmpty in
   let r := addDocuments overrunEmbeddings alwaysWritten [mkDoc "docs" "bb"] 2000
              failed in
   r.1 = Ok tt ∧ countAndKeys r.2 "docs" = (Some 3%nat, Some [2%nat])) ∧
  (let loaded :=
     exec (search lengthEmbeddings exactKnn askTwo (demoClock 2000)) stMismatch in
   let r := addDocuments lengthEmbeddings alwaysWritten [mkDoc "docs" "cccc"] 3000
              loaded in
   r.1 = Ok tt ∧ countAndKeys r.2 "docs" = (Some 3%nat, Some [0%nat; 2%nat])) ∧
  (let first :=
     exec (addDocuments lengthEmbeddings failsOnTwoChunks [mkDoc "docs" "a"] 1000)
       stEmpty in
   let second :=
     addDocuments lengthEmbeddings failsOnTwoChunks [mkDoc "docs" "bb"] 2000 first in
   let loaded :=
     exec (search lengthEmbeddings exactKnn (mkOptions "./docs" "bb" (Some 2) None)
             (demoClock 3000)) second.2 in
   let r := addDocuments lengthEmbeddings failsOnTwoChunks [mkDoc "other" "a"] 4000
              loaded in
   second.1 = Throw WriteError ∧ r.1 = Ok tt ∧
   countAndKeys r.2 "./docs" = (Some 2%nat, Some [0%nat])) ∧
  (let both :=
     exec (addDocuments lengthEmbeddings alwaysWritten [mkDoc "./docs" "bb"] 3000)
       (exec (addDocuments lengthEmbeddings alwaysWritten [mkDoc "docs" "a"] 2000)
          (exec (addDocuments lengthEmbeddings alwaysWritten [mkDoc "./docs" "a"] 1000)
             stEmpty)) in
   let closed := shutdown alwaysWritten ["./docs"; "docs"] both in
   let loaded :=
     exec (search lengthEmbeddings exactKnn askTwo (demoClock 4000)) closed.2 in
   let r := addDocuments lengthEmbeddings alwaysWritten [mkDoc "other" "a"] 5000
              loaded in
   closed.1 = Ok tt ∧ r.1 = Ok tt ∧
   countAndKeys r.2 "docs" = (Some 1%nat, Some [0%nat; 1%nat])).
Proof. cbv zeta. repeat split; vm_compute; reflexivity. Qed.


(** C8 as stated fails. A knowledge base that holds zero points is queried,
    for 1 neighbour, and the answer of the index to that query is the
    outcome of the search: when the query fails, so does the search. And
    for [k = 0] the count passed is 3, not [clamp(0, 1, min(3, 1024)) = 1],
    and three results come back. *)
Lemma search_queries_empty_index :
  (getCurrentCount <$> indices stNoPoints !! "docs" = Some 0%nat ∧
   trace (exec (search lengthEmbeddings exactKnn askFive (demoClock 2000)) stNoPoints)
     = trace stNoPoints ++ [EvSearchKnn "docs" 0 1] ∧
   (search lengthEmbeddings throwingKnn askFive (demoClock 2000) stNoPoints).1
     = Throw IndexError) ∧
  (opt_k askZero = Some 0 ∧
   trace (exec (search lengthEmbeddings exactKnn askZero (demoClock 2000)) stDocs)
     = trace stDocs ++ [EvSearchKnn "docs" 3 3] ∧
   length (okResults (search lengthEmbeddings exactKnn askZero (demoClock 2000)
                        stDocs).1) = 3%nat ∧
   clamp 0 1 (Z.min 3 1024) = 1).
Proof. repeat split; vm_compute; reflexivity. Qed.

(** C9 on a reopened service. The directory holds the knowledge base
    ["docs"] with the chunks of three documents, one of them [doc-0].
    [removeDocument] changes nothing. [updateDocument] of [doc-0] does not
    load the knowledge base: it writes a chunk-map file that holds the new
    chunk alone, so that the earlier chunk of [doc-0] and the two others
    are gone. *)
Theorem updateDocument_replaces_persisted :
  removeDocument "doc-0" stReopened = (Ok tt, stReopened) ∧
  listing (chunkFile stReopened "docs")
    = [(0%nat, "doc-0", "a"); (1%nat, "doc-1", "bb"); (2%nat, "doc-2", "cccc")] ∧
  let r := updateDocument lengthEmbeddings alwaysWritten "doc-0"
             {| pd_content := Some "zz"; pd_knowledgeBase := Some "docs";
                pd_metadata := None |} 3000 stReopened in
  r.1 = Ok tt ∧
  listing (chunkFile r.2 "docs") = [(0%nat, "doc-0", "zz")] ∧
  (listing <$> chunkMaps r.2 !! "docs") = Some [(0%nat, "doc-0", "zz")] ∧
  getCurrentCount (indexFile r.2 "docs") = 1%nat.
Proof. cbv zeta. repeat split; vm_compute; reflexivity. Qed.

(** * Further properties of the code *)

(** ** SearchCache as a bounded store with expiry *)

Module JsMapSize.
Section JsMapSize.
Context {K V : Type} `{EqDecision K}.
Implicit Types (m : list (K * V)) (k : K) (v : V).

Lemma size_delete_le k m : (JsMap.size (JsMap.delete k m) <= JsMap.size m)%nat.
Proof.
  unfold JsMap.size. induction m as [|[k' v'] m IH]; cbn; [done|].
  destruct (decide (k' = k)); cbn; lia.
Qed.

Lemma size_delete_lt k m :
  k ∈ JsMap.keys m -> (JsMap.size (JsMap.delete k m) < JsMap.size m)%nat.
Proof.
  unfold JsMap.size, JsMap.keys. induction m as [|[k' v'] m IH]; cbn.
  { by intros ?%elem_of_nil. }
  destruct (decide (k' = k)) as [->|Hne]; cbn.
  - intros _. pose proof (size_delete_le k m). unfold JsMap.size in *. lia.
  - intros [?|Hin]%elem_of_cons; [congruence|]. apply IH in Hin. lia.
Qed.

Lemma size_delete_NoDup k m :
  NoDup (JsMap.keys m) -> k ∈ JsMap.keys m ->
  S (JsMap.size (JsMap.delete k m)) = JsMap.size m.
Proof.
  unfold JsMap.size, JsMap.keys. induction m as [|[k' v'] m IH]; cbn.
  { by intros _ ?%elem_of_nil. }
  intros [Hnin Hnd]%NoDup_cons Hin.
  destruct (decide (k' = k)) as [->|Hne]; cbn.
  - by rewrite JsMapFacts.delete_notin.
  - apply elem_of_cons in Hin as [?|Hin]; [congruence|]. by rewrite IH.
Qed.

Lemma size_set k v m :
  JsMap.size (JsMap.set k v m)
    = if decide (k ∈ JsMap.keys m) then JsMap.size m else S (JsMap.size m).
Proof.
  pose proof (JsMapFacts.keys_set k v m) as Hkeys.
  apply (f_equal length) in Hkeys. unfold JsMap.keys, JsMap.size in *.
  rewrite length_map in Hkeys. rewrite Hkeys.
  destruct (decide _); rewrite ?length_app, !length_map; cbn; lia.
Qed.

Lemma get_delete_eq k m : JsMap.get k (JsMap.delete k m) = None.
Proof.
  induction m as [|[k' v'] m IH]; cbn; [done|].
  destruct (decide (k' = k)) as [->|Hne]; cbn; [done|]. by rewrite decide_False.
Qed.

Lemma get_delete_ne k k' m : k ≠ k' -> JsMap.get k' (JsMap.delete k m) = JsMap.get k' m.
Proof.
  intros Hne. induction m as [|[k'' v''] m IH]; cbn; [done|].
  destruct (decide (k'' = k)) as [->|Hne']; cbn.
  - by rewrite decide_False.
  - by rewrite IH.
Qed.

Lemma first_key_elem_of k m : JsMap.first_key m = Some k -> k ∈ JsMap.keys m.
Proof.
  destruct m as [|[k' v'] m]; [done|]. cbn. intros [= ->]. apply list_elem_of_here.
Qed.

Lemma get_Some_key k v m : JsMap.get k m = Some v -> k ∈ JsMap.keys m.
Proof.
  intros Hget. destruct (decide (k ∈ JsMap.keys m)) as [|Hnin]; [done|].
  apply JsMapFacts.get_notin in Hnin. congruence.
Qed.
End JsMapSize.
End JsMapSize.

Lemma SearchCache_set_size (c : SearchCache) (kb : string) (qv : Vec) (k : Z)
    (result : list RAGResult) (now : Z) :
  (JsMap.size (cache c) <= cacheBound c)%nat ->
  let c' := SearchCache_set c kb qv k result now in
  (1 <= JsMap.size (cache c'))%nat ∧ (JsMap.size (cache c') <= cacheBound c)%nat.
Proof.
  intros Hbound c'. unfold c', cacheBound in *. split.
  - unfold SearchCache_set. cbn [cache]. rewrite JsMapSize.size_set.
    destruct (decide _) as [Hin|]; [|lia].
    destruct (if maxSize c <=? _ then _ else _) as [|entry evicted];
      [by apply elem_of_nil in Hin|].
    cbn. lia.
  - unfold SearchCache_set. cbn [cache maxSize]. rewrite JsMapSize.size_set.
    destruct (Z.leb_spec (maxSize c) (Z.of_nat (JsMap.size (cache c)))) as [Hfull|Hroom].
    + destruct (JsMap.first_key (cache c)) as [firstKey|] eqn:Hfirst.
      * pose proof (JsMapSize.size_delete_lt firstKey (cache c)
                      (JsMapSize.first_key_elem_of _ _ Hfirst)).
        destruct (decide _); lia.
      * destruct (cache c) as [|[key0 entry0] rest]; [|done].
        destruct (decide _); unfold JsMap.size; cbn [length]; lia.
    + destruct (decide _); lia.
Qed.

Lemma SearchCache_get_size (c : SearchCache) (kb : string) (qv : Vec) (k now : Z) :
  (JsMap.size (cache (SearchCache_get c kb qv k now).2) <= JsMap.size (cache c))%nat.
Proof.
  unfold SearchCache_get.
  pose proof (JsMapSize.size_delete_le (getCacheKey kb qv k) (cache c)).
  destruct (JsMap.get _ _); [destruct (_ <? _)|]; cbn [fst snd cache]; lia.
Qed.

(** X1. [set] never lets the cache grow past [max(1, maxSize)] entries, and
    leaves at least the entry just written: with [maxSize <= 0] the cache
    still holds one entry. [get] never adds an entry. *)
Theorem SearchCache_size_bounded
    (c : SearchCache) (kb : string) (qv : Vec) (k : Z) (result : list RAGResult)
    (now : Z) :
  (JsMap.size (cache c) <= cacheBound c)%nat ->
  let c' := SearchCache_set c kb qv k result now in
  (1 <= JsMap.size (cache c'))%nat ∧
  (JsMap.size (cache c') <= cacheBound c')%nat ∧
  cacheBound c' = cacheBound c ∧
  (JsMap.size (cache (SearchCache_get c kb qv k now).2) <= JsMap.size (cache c))%nat.
Proof.
  intros Hbound c'.
  destruct (SearchCache_set_size c kb qv k result now Hbound) as [Hone Hle].
  split; [done|]. split; [done|]. split; [done|]. apply SearchCache_get_size.
Qed.

Lemma getCacheKey_numeric (kb : string) (qv qv' : Vec) (k : Z) :
  Forall2 Qeq qv qv' -> getCacheKey kb qv k = getCacheKey kb qv' k.
Proof.
  intros Heq. unfold getCacheKey. do 2 f_equal.
  induction Heq as [|x y l l' Hxy _ IH]; cbn; [done|].
  f_equal; [by apply Qred_complete | done].
Qed.

Lemma SearchCache_get_numeric (c : SearchCache) (kb : string) (qv qv' : Vec)
    (k now : Z) :
  Forall2 Qeq qv qv' ->
  SearchCache_get c kb qv' k now = SearchCache_get c kb qv k now.
Proof.
  intros Hqv. unfold SearchCache_get. by rewrite (getCacheKey_numeric kb qv qv' k Hqv).
Qed.

Lemma SearchCache_set_get_hit
    (c : SearchCache) (kb : string) (qv : Vec) (k : Z)
    (result : list RAGResult) (now now' : Z) :
  now' - now < ttl c ->
  SearchCache_get (SearchCache_set c kb qv k result now) kb qv k now'
    = (Some result,
       {| cache := cache (SearchCache_set c kb qv k result now);
          hits := S (hits c); misses := misses c;
          maxSize := maxSize c; ttl := ttl c |}).
Proof.
  intros Hfresh. unfold SearchCache_get, SearchCache_set.
  cbn [cache ttl hits misses maxSize].
  rewrite JsMapFacts.get_set_eq. cbn [ce_timestamp ce_result].
  by destruct (Z.ltb_spec (now' - now) (ttl c)); [|lia].
Qed.

Lemma SearchCache_get_params (c : SearchCache) (kb : string) (qv : Vec) (k now : Z) :
  maxSize (SearchCache_get c kb qv k now).2 = maxSize c ∧
  ttl (SearchCache_get c kb qv k now).2 = ttl c.
Proof.
  unfold SearchCache_get. by destruct (JsMap.get _ _); [destruct (_ <? _)|].
Qed.

(** X2. What [set] stores is what [get] returns: a lookup for the same
    knowledge base, [k] and a vector of the same numbers, made less than
    [ttl] after the [set], returns the stored list and counts one hit,
    whatever the cache held before and whether or not an entry was
    evicted. *)
Theorem SearchCache_set_then_get
    (c : SearchCache) (kb : string) (qv qv' : Vec) (k : Z)
    (result : list RAGResult) (now now' : Z) :
  Forall2 Qeq qv qv' ->
  now' - now < ttl c ->
  let c' := SearchCache_set c kb qv k result now in
  let got := SearchCache_get c' kb qv' k now' in
  got.1 = Some result ∧
  hits got.2 = S (hits c) ∧ misses got.2 = misses c ∧
  cache got.2 = cache c'.
Proof.
  intros Hqv Hfresh c' got.
  assert (Hgot : got = SearchCache_get c' kb qv k now').
  { by apply SearchCache_get_numeric. }
  rewrite Hgot. unfold c'. by rewrite SearchCache_set_get_hit.
Qed.

(** X3. An entry that is [ttl] old or older is not returned: the lookup
    counts as a miss and removes that entry and no other, so that a later
    lookup of the key misses whatever the time. A lookup of a key that is
    not cached leaves the entries as they are. *)
Theorem SearchCache_get_expired
    (c : SearchCache) (kb : string) (qv : Vec) (k : Z) (entry : CacheEntry)
    (now : Z) :
  NoDup (JsMap.keys (cache c)) ->
  JsMap.get (getCacheKey kb qv k) (cache c) = Some entry ->
  ttl c <= now - ce_timestamp entry ->
  let got := SearchCache_get c kb qv k now in
  got.1 = None ∧
  misses got.2 = S (misses c) ∧ hits got.2 = hits c ∧
  S (JsMap.size (cache got.2)) = JsMap.size (cache c) ∧
  (∀ key, key ≠ getCacheKey kb qv k ->
     JsMap.get key (cache got.2) = JsMap.get key (cache c)) ∧
  (∀ later, (SearchCache_get got.2 kb qv k later).1 = None) ∧
  (∀ kb0 qv0 k0,
     JsMap.get (getCacheKey kb0 qv0 k0) (cache c) = None ->
     cache (SearchCache_get c kb0 qv0 k0 now).2 = cache c).
Proof.
  intros Hnd Hget Hold got. unfold got, SearchCache_get. rewrite Hget.
  destruct (Z.ltb_spec (now - ce_timestamp entry) (ttl c)); [lia|].
  cbn [fst snd cache hits misses ttl].
  split; [done|]. split; [done|]. split; [done|]. split.
  { apply JsMapSize.size_delete_NoDup; [done|]. by apply (JsMapSize.get_Some_key _ entry). }
  split.
  { intros key Hne. by apply JsMapSize.get_delete_ne. }
  split.
  { intros later. by rewrite JsMapSize.get_delete_eq. }
  intros kb0 qv0 k0 Hnone. rewrite Hnone. cbn.
  apply JsMapFacts.delete_notin. by apply JsMapFacts.get_None_notin.
Qed.

(** X4. Every [get] counts exactly once, as a hit when it returns a list and
    as a miss otherwise, and [set] counts nothing; the hit rate of
    [getStats] is [100 * hits / (hits + misses)], between 0 and 100, and 0
    as long as nothing was looked up. *)
Theorem SearchCache_counts_lookups
    (c : SearchCache) (kb : string) (qv : Vec) (k : Z) (result : list RAGResult)
    (now : Z) :
  let got := SearchCache_get c kb qv k now in
  (hits got.2 + misses got.2 = S (hits c + misses c))%nat ∧
  (is_Some got.1 <-> hits got.2 = S (hits c)) ∧
  hits (SearchCache_set c kb qv k result now) = hits c ∧
  misses (SearchCache_set c kb qv k result now) = misses c ∧
  let stats := SearchCache_getStats c in
  (0 <= cs_hitRateNumber stats)%Q ∧ (cs_hitRateNumber stats <= 100)%Q ∧
  (cs_hitRateNumber stats * inject_Z (Z.of_nat (hits c + misses c))
     == 100 * inject_Z (Z.of_nat (hits c)))%Q ∧
  ((hits c + misses c = 0)%nat -> cs_hitRateNumber stats = 0%Q).
Proof.
  intros got. split; [|split; [|split; [done|split; [done|]]]].
  - unfold got, SearchCache_get.
    destruct (JsMap.get _ _); [destruct (_ <? _)|]; cbn; lia.
  - unfold got, SearchCache_get.
    destruct (JsMap.get _ _); [destruct (_ <? _)|]; cbn;
      split; try (intros [? [=]]); try lia; eauto.
  - intros stats. unfold stats, SearchCache_getStats, SearchCache_hitRateNumber.
    cbn [cs_hitRateNumber].
    destruct (Nat.ltb_spec 0 (hits c + misses c)) as [Hpos|Hzero].
    + assert (Ht : (0 < inject_Z (Z.of_nat (hits c + misses c)))%Q).
      { rewrite <- (Zlt_Qlt 0). lia. }
      assert (Hh : (0 <= inject_Z (Z.of_nat (hits c)))%Q).
      { rewrite <- (Zle_Qle 0). lia. }
      assert (Hle : (inject_Z (Z.of_nat (hits c))
                     <= inject_Z (Z.of_nat (hits c + misses c)))%Q).
      { rewrite <- Zle_Qle. lia. }
      assert (Hfrac : (inject_Z (Z.of_nat (hits c))
                       / inject_Z (Z.of_nat (hits c + misses c)) <= 1)%Q).
      { apply Qle_shift_div_r; [done|]. by rewrite Qmult_1_l. }
      assert (Hfrac0 : (0 <= inject_Z (Z.of_nat (hits c))
                             / inject_Z (Z.of_nat (hits c + misses c)))%Q).
      { apply Qle_shift_div_l; [done|]. by rewrite Qmult_0_l. }
      split; [lra|]. split; [lra|]. split; [|lia].
      field. lra.
    + assert (Hh : hits c = 0%nat) by lia.
      assert (Htot : (hits c + misses c)%nat = 0%nat) by lia.
      rewrite Htot, Hh. cbn. split; [done|]. split; [done|]. split; [ring|done].
Qed.

(** ** Metrics *)

Lemma recordMetric_search_eq (d : Z) (st : State) :
  recordMetric "search" d st = (Ok tt, set_stats (fun s => recorded s d) st).
Proof. reflexivity. Qed.

Lemma inject_nat_S_pos (n : nat) : (0 < inject_Z (Z.of_nat (S n)))%Q.
Proof. rewrite <- (Zlt_Qlt 0). lia. Qed.

Lemma recorded_mean (s : Stats) (d : Z) :
  totalSearches (recorded s d) = S (totalSearches s) ∧
  (avgSearchTime (recorded s d) * inject_Z (Z.of_nat (totalSearches (recorded s d)))
   == avgSearchTime s * inject_Z (Z.of_nat (totalSearches s)) + inject_Z d)%Q.
Proof.
  split; [done|]. unfold recorded. cbn [totalSearches avgSearchTime].
  replace (S (totalSearches s) - 1)%nat with (totalSearches s) by lia.
  pose proof (inject_nat_S_pos (totalSearches s)). field. lra.
Qed.

(** X5. [recordMetric] keeps [avgSearchTime] equal to the mean of the
    durations recorded so far: after a list of durations is recorded,
    [totalSearches] has grown by their number and [avgSearchTime *
    totalSearches] by their sum, so that from fresh statistics the average
    is the sum divided by the count. A type other than ['search'] records
    nothing. *)
Theorem recordMetric_running_mean (durations : list Z) (st : State)
    (type : string) (d : Z) :
  let st' := recordAll durations st in
  totalSearches (stats st') = (totalSearches (stats st) + length durations)%nat ∧
  (avgSearchTime (stats st') * inject_Z (Z.of_nat (totalSearches (stats st')))
   == avgSearchTime (stats st) * inject_Z (Z.of_nat (totalSearches (stats st)))
      + inject_Z (total durations))%Q ∧
  (totalSearches (stats st) = 0%nat -> durations ≠ [] ->
   (avgSearchTime (stats st')
    == inject_Z (total durations) / inject_Z (Z.of_nat (length durations)))%Q) ∧
  (type ≠ "search" -> recordMetric type d st = (Ok tt, st)).
Proof.
  intros st'.
  assert (Hmean : ∀ ds s,
    totalSearches (stats (recordAll ds s)) = (totalSearches (stats s) + length ds)%nat ∧
    (avgSearchTime (stats (recordAll ds s))
       * inject_Z (Z.of_nat (totalSearches (stats (recordAll ds s))))
     == avgSearchTime (stats s) * inject_Z (Z.of_nat (totalSearches (stats s)))
        + inject_Z (total ds))%Q).
  { induction ds as [|d0 ds IH]; intros s.
    { cbn. split; [lia|]. ring. }
    unfold recordAll. cbn [fold_left]. unfold exec at 2.
    rewrite recordMetric_search_eq. cbn [snd].
    destruct (IH (set_stats (fun s0 => recorded s0 d0) s)) as [Hn Havg].
    unfold recordAll in Hn, Havg. rewrite Hn, Havg. cbn [stats set_stats].
    destruct (recorded_mean (stats s) d0) as [Hn0 Havg0].
    rewrite Hn0, Havg0. cbn [length total fold_right]. split; [lia|].
    unfold total. rewrite inject_Z_plus. ring. }
  destruct (Hmean durations st) as [Hn Havg]. fold st' in Hn, Havg.
  split; [done|]. split; [done|]. split.
  - intros Hzero Hne. rewrite Hzero in Hn, Havg. cbn in Hn. rewrite Hn in Havg.
    assert (Hpos : (0 < inject_Z (Z.of_nat (length durations)))%Q).
    { rewrite <- (Zlt_Qlt 0). destruct durations; [done|]. cbn. lia. }
    assert (Hsum : (inject_Z (total durations)
                    == avgSearchTime (stats st') * inject_Z (Z.of_nat (length durations)))%Q).
    { rewrite Havg. change (inject_Z (Z.of_nat 0)) with 0%Q. ring. }
    rewrite Hsum. field. lra.
  - intros Hne. unfold recordMetric. by rewrite decide_False.
Qed.

(** ** Searches that follow one another, and searches that fail *)

Section MoreSearchFacts.
Variable getEmbeddings : list string -> Outcome (list Vec).
Variable searchKnn : Index -> Vec -> nat -> Outcome KnnResult.

Lemma SearchCache_get_miss_keys (c : SearchCache) (kb : string) (qv : Vec)
    (k now : Z) :
  (SearchCache_get c kb qv k now).1 = None ->
  let c' := (SearchCache_get c kb qv k now).2 in
  cache c' = JsMap.delete (getCacheKey kb qv k) (cache c) ∧
  misses c' = S (misses c) ∧ hits c' = hits c.
Proof.
  unfold SearchCache_get.
  by destruct (JsMap.get _ _) as [entry|]; [destruct (_ <? _)|].
Qed.

(** A search that was recorded in the statistics has stored its answer in
    the cache under the key of the request. *)
Lemma search_recorded_inv
    (options : RAGSearchOptions) (clock : SearchClock) (st st1 : State)
    (results : list RAGResult) :
  search getEmbeddings searchKnn options clock st = (Ok results, st1) ->
  totalSearches (stats st1) = S (totalSearches (stats st)) ->
  ∃ queryVector rest c0 answer,
    getEmbeddings [opt_query options] = Ok (queryVector :: rest) ∧
    ttl c0 = ttl (searchCache st) ∧
    searchCache st1
      = SearchCache_set c0 (opt_knowledgeBase options) queryVector
          (kInputOf options) results (t_set clock) ∧
    results
      = scoreAndFilter (default ∅ (chunkMaps st1 !! opt_knowledgeBase options))
          answer (thresholdOf options).
Proof.
  rewrite search_eq. intros Hrun Hrec.
  destruct (getEmbeddings _) as [[|queryVector rest]|e]; try done.
  cbn zeta in Hrun.
  pose proof (SearchCache_get_params (searchCache st) (opt_knowledgeBase options)
                queryVector (kInputOf options) (t_get clock)) as [_ Httl].
  destruct (SearchCache_get _ _ _ _ _) as [cached c] eqn:Hget. cbn [fst snd] in *.
  destruct cached as [cachedResults|].
  { injection Hrun as _ <-. cbn in Hrec. lia. }
  pose proof (getOrLoadIndex_frame (opt_knowledgeBase options)
                (set_searchCache (fun _ => c) st)) as Hload.
  destruct (getOrLoadIndex _ _) as [[[index|]|e] st2]; cbn [fst snd] in Hload;
    destruct Hload as (Hsc & Hst & _); try done.
  - destruct (searchKnn _ _ _) as [answer|e]; [|done].
    injection Hrun as <- <-. exists queryVector, rest, c, answer.
    split; [done|]. split; [done|]. cbn. by rewrite Hsc.
  - injection Hrun as _ <-. rewrite Hst in Hrec. cbn in Hrec. lia.
Qed.

(** X6. A search that went to the index answers the next one: when a
    successful search was recorded in the statistics, a second search for
    the same knowledge base and count whose query is embedded as a vector
    of the same numbers, and whose cache lookup happens less than [ttl]
    after the first answer was stored, returns the same list whatever its
    query text and its threshold are, without querying or loading any
    index and without recording a metric; only the hit counter grows. The
    answer is the same in any state with the same cache, and so after
    documents were added in between, whether or not their files could be
    written: they are not seen until the entry expires. *)
Theorem search_repeated_within_ttl
    (getEmbeddings' : list string -> Outcome (list Vec))
    (searchKnn' : Index -> Vec -> nat -> Outcome KnnResult)
    (options options' : RAGSearchOptions) (clock clock' : SearchClock)
    (st st1 : State) (results : list RAGResult)
    (queryVector queryVector' : Vec) (rest rest' : list Vec) :
  search getEmbeddings searchKnn options clock st = (Ok results, st1) ->
  totalSearches (stats st1) = S (totalSearches (stats st)) ->
  getEmbeddings [opt_query options] = Ok (queryVector :: rest) ->
  getEmbeddings' [opt_query options'] = Ok (queryVector' :: rest') ->
  Forall2 Qeq queryVector queryVector' ->
  opt_knowledgeBase options' = opt_knowledgeBase options ->
  kInputOf options' = kInputOf options ->
  t_get clock' - t_set clock < ttl (searchCache st) ->
  let r := search getEmbeddings' searchKnn' options' clock' st1 in
  r.1 = Ok results ∧
  trace r.2 = trace st1 ∧ stats r.2 = stats st1 ∧
  indices r.2 = indices st1 ∧ chunkMaps r.2 = chunkMaps st1 ∧
  disk r.2 = disk st1 ∧
  cache (searchCache r.2) = cache (searchCache st1) ∧
  hits (searchCache r.2) = S (hits (searchCache st1)) ∧
  misses (searchCache r.2) = misses (searchCache st1) ∧
  (∀ st2, searchCache st2 = searchCache st1 ->
     (search getEmbeddings' searchKnn' options' clock' st2).1 = Ok results) ∧
  (∀ tryWrite docs now,
     (search getEmbeddings' searchKnn' options' clock'
        (exec (addDocuments getEmbeddings' tryWrite docs now) st1)).1 = Ok results).
Proof.
  intros Hrun Hrec Hemb Hemb' Hqv Hkb Hk Hfresh r.
  destruct (search_recorded_inv _ _ _ _ _ Hrun Hrec)
    as (queryVector0 & rest0 & c0 & answer & Hemb0 & Httl & Hcache & _).
  rewrite Hemb in Hemb0. injection Hemb0 as <- <-.
  assert (Hany : ∀ st2, searchCache st2 = searchCache st1 ->
            search getEmbeddings' searchKnn' options' clock' st2
            = (Ok results,
               set_searchCache (fun _ =>
                 {| cache := cache (searchCache st1);
                    hits := S (hits (searchCache st1));
                    misses := misses (searchCache st1);
                    maxSize := maxSize (searchCache st1);
                    ttl := ttl (searchCache st1) |}) st2)).
  { intros st2 Hsame. rewrite search_eq, Hkb, Hk, Hemb'. cbn zeta.
    rewrite (SearchCache_get_numeric _ _ queryVector queryVector') by done.
    rewrite Hsame, Hcache, SearchCache_set_get_hit by lia. by cbn. }
  unfold r. rewrite (Hany st1 eq_refl). cbn.
  repeat split; try done.
  - intros st2 Hsame. by rewrite (Hany st2 Hsame).
  - intros tryWrite docs now. rewrite Hany; [done|]. apply addDocuments_cache.
Qed.

(** X7. A search that fails leaves no mark of an answer: no metric is
    recorded, no file is written and no entry is added to the cache (the
    keys left are among those held before). When the provider failed, or
    answered without a vector, the state is the one before the call;
    otherwise the failure is that of the index query, which was counted
    as a cache miss. *)
Theorem search_failure_effects
    (options : RAGSearchOptions) (clock : SearchClock) (st st' : State)
    (e : JsError) :
  search getEmbeddings searchKnn options clock st = (Throw e, st') ->
  stats st' = stats st ∧ disk st' = disk st ∧ config st' = config st ∧
  JsMap.keys (cache (searchCache st')) `sublist_of` JsMap.keys (cache (searchCache st)) ∧
  match getEmbeddings [opt_query options] with
  | Throw e' => e = e' ∧ st' = st
  | Ok [] => e = TypeError ∧ st' = st
  | Ok (queryVector :: _) =>
      misses (searchCache st') = S (misses (searchCache st)) ∧
      hits (searchCache st') = hits (searchCache st) ∧
      ∃ index,
        let count := getCurrentCount index in
        let k := Z.to_nat (effectiveK (kInputOf options) count (getMaxElements index)) in
        indices st' !! opt_knowledgeBase options = Some index ∧
        searchKnn index queryVector k = Throw e ∧
        trace st' = trace st ++ [EvSearchKnn (opt_knowledgeBase options) count k]
  end.
Proof.
  rewrite search_eq. intros Hrun.
  destruct (getEmbeddings _) as [[|queryVector rest]|e0].
  - by injection Hrun as <- <-.
  - cbn zeta in Hrun.
    pose proof (SearchCache_get_miss_keys (searchCache st) (opt_knowledgeBase options)
                  queryVector (kInputOf options) (t_get clock)) as Hmiss.
    destruct (SearchCache_get _ _ _ _ _) as [cached c] eqn:Hget. cbn [fst snd] in *.
    destruct cached as [cachedResults|]; [done|].
    destruct (Hmiss eq_refl) as (Hcache & Hmisses & Hhits).
    pose proof (getOrLoadIndex_frame (opt_knowledgeBase options)
                  (set_searchCache (fun _ => c) st)) as Hload.
    destruct (getOrLoadIndex _ _) as [[[index|]|e1] st2]; cbn [fst snd] in Hload;
      destruct Hload as (Hsc & Hst & Hdisk & Htrace & Hcfg & found & Hfound & Hidx);
      try done.
    injection Hfound as <-.
    destruct (searchKnn _ _ _) as [answer|e1] eqn:Hknn; [done|].
    injection Hrun as <- <-. cbn. rewrite Hsc, Hst, Hdisk, Htrace, Hcfg. cbn.
    rewrite Hcache.
    split; [done|]. split; [done|]. split; [done|].
    split; [apply JsMapFacts.keys_delete_sublist|].
    split; [done|]. split; [done|]. by exists index.
  - by injection Hrun as <- <-.
Qed.



End MoreSearchFacts.

(** ** Insertions that fail, and what an insertion touches *)

(** When the provider answers with more vectors than there are documents,
    the loop of [addDocumentsToKB] stores every document, adds one more
    point, and throws on the document that does not exist. *)
Lemma addPoints_overrun (docs : list RAGDocument) (now : Z) (embeddings : list Vec) :
  ∀ (i currentIdx : nat) (index : Index) (chunkMap : gmap nat Chunk),
  (i <= length docs)%nat -> (length docs < i + length embeddings)%nat ->
  (currentIdx + (length docs - i) < idx_maxElements index)%nat ->
  ∃ index' chunkMap',
    addPoints docs now embeddings i currentIdx index chunkMap
      = (Throw TypeError, index', chunkMap', seq currentIdx (S (length docs - i))) ∧
    getCurrentCount index' = (getCurrentCount index + S (length docs - i))%nat ∧
    dom chunkMap' = dom chunkMap ∪ (set_seq currentIdx (length docs - i) : gset nat).
Proof.
  induction embeddings as [|e embeddings IH];
    intros i currentIdx index chunkMap Hi Hlen Hcap.
  { cbn in Hlen. lia. }
  cbn [addPoints]. unfold addPoint.
  destruct (Nat.leb_spec (idx_maxElements index) currentIdx) as [|_]; [lia|].
  destruct (docs !! i) as [doc|] eqn:Hdoc.
  - apply lookup_lt_Some in Hdoc. cbn [length] in Hlen.
    edestruct (IH (S i) (S currentIdx)
                 {| idx_dim := idx_dim index; idx_maxElements := idx_maxElements index;
                    idx_points := idx_points index ++ [(currentIdx, e)];
                    idx_ef := idx_ef index |}
                 (<[currentIdx := mkChunk doc currentIdx now]> chunkMap))
      as (index' & chunkMap' & -> & Hcount & Hdom); [lia|lia|cbn; lia|].
    exists index', chunkMap'.
    replace (length docs - i)%nat with (S (length docs - S i)) by lia.
    split; [done|]. split.
    + rewrite Hcount. unfold getCurrentCount. cbn. rewrite length_app. cbn. lia.
    + rewrite Hdom, dom_insert_L. apply set_eq. intros x.
      rewrite !elem_of_union, !elem_of_set_seq, elem_of_singleton. intuition lia.
  - apply lookup_ge_None in Hdoc.
    replace (length docs - i)%nat with 0%nat by lia.
    eexists _, chunkMap. split; [done|]. split.
    + unfold getCurrentCount. cbn. rewrite length_app. cbn. lia.
    + apply set_eq. intros x.
      rewrite !elem_of_union, !elem_of_set_seq. intuition lia.
Qed.

Section MoreAddFacts.
Variable getEmbeddings : list string -> Outcome (list Vec).
Variable tryWrite : string -> FileData -> WriteResult.

Lemma startIndex_overrun_room (st : State) (kb : string) (nDocs nEmb : nat) :
  (nDocs < nEmb)%nat ->
  (getCurrentCount (startIndex st kb nDocs nEmb) + nDocs
     < idx_maxElements (startIndex st kb nDocs nEmb))%nat.
Proof.
  intros Hlt. unfold startIndex.
  destruct (indices st !! kb) as [index|]; [|cbn; lia].
  destruct (Nat.ltb_spec (getMaxElements index) (getCurrentCount index + nEmb));
    unfold getMaxElements, getCurrentCount in *; cbn; lia.
Qed.

(** The two writes touch the two files of the knowledge base and nothing
    else, whether they succeed or not. *)
Lemma saves_footprint (kb : string) (index : Index) (chunkMap : gmap nat Chunk)
    (mem : State) :
  let st' :=
    exec (_ ← saveIndex tryWrite kb index; saveChunkMap tryWrite kb chunkMap) mem in
  config st' = config mem ∧ searchCache st' = searchCache mem ∧
  stats st' = stats mem ∧ indices st' = indices mem ∧
  chunkMaps st' = chunkMaps mem ∧ trace st' = trace mem ∧
  (∀ p, p ≠ indexPath (config mem) kb -> p ≠ chunkPath (config mem) kb ->
     disk st' !! p = disk mem !! p).
Proof.
  unfold exec. rewrite saves_eq. unfold afterFailedWrite.
  destruct (tryWrite (indexPath _ _) _) as [|e1 [|]]; cbn;
    [destruct (tryWrite (chunkPath _ _) _) as [|e2 [|]]; cbn| |];
    repeat split; try done; intros p Hp1 Hp2; by rewrite ?lookup_insert_ne.
Qed.

(** Whatever its outcome, [addDocumentsToKB] leaves the cache, the
    statistics, the other knowledge bases and every file but the two of
    its knowledge base as they were. *)
Lemma addDocumentsToKB_footprint (kb : string) (docs : list RAGDocument) (now : Z)
    (st : State) :
  let st' := exec (addDocumentsToKB getEmbeddings tryWrite kb docs now) st in
  config st' = config st ∧ searchCache st' = searchCache st ∧ stats st' = stats st ∧
  (∀ kb', kb' ≠ kb ->
     indices st' !! kb' = indices st !! kb' ∧
     chunkMaps st' !! kb' = chunkMaps st !! kb') ∧
  (∀ p, p ≠ indexPath (config st) kb -> p ≠ chunkPath (config st) kb ->
     disk st' !! p = disk st !! p).
Proof.
  unfold exec. rewrite addDocumentsToKB_eq.
  destruct (getEmbeddings _) as [embeddings|e]; [|done]. cbv zeta.
  destruct (addPoints _ _ _ _ _ _ _) as [[[[[]|e] index'] chunkMap'] labels].
  - match goal with
    | |- context [(_ ← saveIndex _ _ _; saveChunkMap _ _ _) ?mem] =>
        destruct (saves_footprint kb index' chunkMap' mem)
          as (Hcfg & Hsc & Hstats & Hi & Hcm & _ & Hdisk)
    end.
    unfold exec in *. rewrite Hcfg, Hsc, Hstats, Hi, Hcm.
    split; [done|]. split; [done|]. split; [done|]. split.
    + intros kb' Hne. cbn. by rewrite !lookup_insert_ne.
    + intros p Hp1 Hp2. by rewrite Hdisk.
  - destruct (chunkMaps st !! kb) eqn:Hcm; cbn; repeat split; try done;
      by apply lookup_insert_ne.
Qed.

(** When the two writes of the knowledge base cannot fail, a call that
    throws has written no file. *)
Lemma addDocumentsToKB_Throw_disk (kb : string) (docs : list RAGDocument) (now : Z)
    (st st' : State) (e : JsError) :
  (∀ data, tryWrite (indexPath (config st) kb) data = Written) ->
  (∀ data, tryWrite (chunkPath (config st) kb) data = Written) ->
  addDocumentsToKB getEmbeddings tryWrite kb docs now st = (Throw e, st') ->
  disk st' = disk st.
Proof.
  intros Hw1 Hw2. rewrite addDocumentsToKB_eq.
  destruct (getEmbeddings _) as [embeddings|e0]; [|by intros [= _ <-]]. cbv zeta.
  destruct (addPoints _ _ _ _ _ _ _) as [[[[[]|e1] index'] chunkMap'] labels].
  - rewrite saves_eq. change (config (registered _ _ _ _ _)) with (config st).
    rewrite Hw1. cbv zeta. by rewrite Hw2.
  - intros [= _ <-]. by destruct (chunkMaps st !! kb).
Qed.

(** X9. How [addDocumentsToKB] fails. Whenever it throws, the cache, the
    statistics and every file but the two of its knowledge base are as
    before. When the provider throws, the call throws the same error and
    leaves the state as it was. When the provider answers with more
    vectors than there are documents, the call throws the [TypeError]
    raised on the document that does not exist, after every document of
    the batch and one more vector were added to the index in memory: the
    knowledge base stays registered with those points, its chunk map is
    registered only if it was before, and no file is written. Otherwise
    the batch is registered in memory and the two files are written in
    turn: when the write of the index file fails, the call throws that
    error, the batch stays in memory and the chunk-map file is not
    written; when the write of the chunk-map file fails, the call throws
    that error although the index file already holds the new index; a
    failed write leaves its file as it was or unreadable. *)
Theorem addDocumentsToKB_failure
    (kb : string) (docs : list RAGDocument) (now : Z) (st : State) :
  (∀ e st',
     addDocumentsToKB getEmbeddings tryWrite kb docs now st = (Throw e, st') ->
     searchCache st' = searchCache st ∧ stats st' = stats st ∧
     ∀ p, p ≠ indexPath (config st) kb -> p ≠ chunkPath (config st) kb ->
       disk st' !! p = disk st !! p) ∧
  (∀ e,
     getEmbeddings (map doc_content docs) = Throw e ->
     addDocumentsToKB getEmbeddings tryWrite kb docs now st = (Throw e, st)) ∧
  (∀ embeddings,
     getEmbeddings (map doc_content docs) = Ok embeddings ->
     (length docs < length embeddings)%nat ->
     let count := from_option getCurrentCount 0%nat (indices st !! kb) in
     ∃ st' index',
       addDocumentsToKB getEmbeddings tryWrite kb docs now st = (Throw TypeError, st') ∧
       indices st' !! kb = Some index' ∧
       getCurrentCount index' = (count + S (length docs))%nat ∧
       match chunkMaps st !! kb with
       | None => chunkMaps st' !! kb = None
       | Some chunkMap =>
           ∃ chunkMap', chunkMaps st' !! kb = Some chunkMap' ∧
             dom chunkMap' = dom chunkMap ∪ (set_seq count (length docs) : gset nat)
       end ∧
       trace st' = trace st
         ++ startEvents st kb (length docs) (length embeddings)
         ++ map (EvAddPoint kb) (seq count (S (length docs))) ∧
       disk st' = disk st) ∧
  (∀ embeddings,
     getEmbeddings (map doc_content docs) = Ok embeddings ->
     (length embeddings <= length docs)%nat ->
     let n := length embeddings in
     let count := from_option getCurrentCount 0%nat (indices st !! kb) in
     let index' :=
       withPoints (startIndex st kb (length docs) n) (zip (seq count n) embeddings) in
     let events :=
       startEvents st kb (length docs) n ++ map (EvAddPoint kb) (seq count n) in
     ∃ chunkMap',
       dom chunkMap'
         = dom (default ∅ (chunkMaps st !! kb)) ∪ (set_seq count n : gset nat) ∧
       let mem := registered st kb index' chunkMap' events in
       addDocumentsToKB getEmbeddings tryWrite kb docs now st
       = match tryWrite (indexPath (config st) kb) (FIndex index') with
         | WriteFailed e damaged =>
             (Throw e, afterFailedWrite damaged (indexPath (config st) kb) mem)
         | Written =>
             match tryWrite (chunkPath (config st) kb) (FChunks chunkMap') with
             | WriteFailed e damaged =>
                 (Throw e,
                  afterFailedWrite damaged (chunkPath (config st) kb)
                    (set_disk <[indexPath (config st) kb := FIndex index']> mem))
             | Written => (Ok tt, stored st kb index' chunkMap' events)
             end
         end).
Proof.
  split; [|split; [|split]].
  - intros e st' Hrun.
    pose proof (addDocumentsToKB_footprint kb docs now st) as Hfoot.
    unfold exec in Hfoot. rewrite Hrun in Hfoot. cbn [snd] in Hfoot.
    by destruct Hfoot as (_ & -> & -> & _ & Hdisk).
  - intros e Hemb. by rewrite addDocumentsToKB_eq, Hemb.
  - intros embeddings Hemb Hlt count. rewrite addDocumentsToKB_eq, Hemb. cbv zeta.
    pose proof (startIndex_overrun_room st kb (length docs) (length embeddings) Hlt)
      as Hroom.
    destruct (addPoints_overrun docs now embeddings 0
                (getCurrentCount (startIndex st kb (length docs) (length embeddings)))
                (startIndex st kb (length docs) (length embeddings))
                (default ∅ (chunkMaps st !! kb)))
      as (index' & chunkMap' & -> & Hcount & Hdom); [lia|lia|lia|].
    rewrite Nat.sub_0_r in *. rewrite startIndex_count in *. fold count in Hcount, Hdom.
    eexists _, index'. split; [reflexivity|].
    split; [by destruct (chunkMaps st !! kb); cbn; apply lookup_insert_eq|].
    split; [done|]. split; [|split].
    + destruct (chunkMaps st !! kb) as [chunkMap|] eqn:Hcm; cbn.
      * exists chunkMap'. split; [apply lookup_insert_eq|done].
      * done.
    + by destruct (chunkMaps st !! kb).
    + by destruct (chunkMaps st !! kb).
  - intros embeddings Hemb Hlen n count index' events.
    destruct (addDocumentsToKB_loop getEmbeddings tryWrite kb docs now st embeddings
                Hemb Hlen) as (chunkMap' & Hrun & Hdom & _).
    exists chunkMap'. split; [exact Hdom|]. cbv zeta.
    rewrite Hrun, saves_eq. change (config (registered _ _ _ _ _)) with (config st).
    fold n count. fold index' events.
    destruct (tryWrite (indexPath _ _) _) as [|e1 d1]; [|done]. cbv zeta.
    by destruct (tryWrite (chunkPath _ _) _) as [|e2 d2].
Qed.

Lemma addGroups_app (done rest : list (string * list RAGDocument)) (now : Z) :
  ∀ st,
  addGroups getEmbeddings tryWrite (done ++ rest) now st =
  match addGroups getEmbeddings tryWrite done now st with
  | (Ok _, st1) => addGroups getEmbeddings tryWrite rest now st1
  | (Throw e, st1) => (Throw e, st1)
  end.
Proof.
  induction done as [|[kb kbDocs] done IH]; intros st; [done|].
  cbn [app]. rewrite !addGroups_cons.
  destruct (addDocumentsToKB _ _ _ _ _) as [[[]|e] st1]; [apply IH|done].
Qed.

Lemma addGroups_footprint (groups : list (string * list RAGDocument)) (now : Z) :
  ∀ st,
  let st' := exec (addGroups getEmbeddings tryWrite groups now) st in
  config st' = config st ∧ searchCache st' = searchCache st ∧ stats st' = stats st ∧
  (∀ kb, kb ∉ JsMap.keys groups ->
     indices st' !! kb = indices st !! kb ∧ chunkMaps st' !! kb = chunkMaps st !! kb) ∧
  (∀ p, (∀ kb, kb ∈ JsMap.keys groups ->
           p ≠ indexPath (config st) kb ∧ p ≠ chunkPath (config st) kb) ->
     disk st' !! p = disk st !! p).
Proof.
  induction groups as [|[kb kbDocs] rest IH]; intros st; [done|].
  unfold exec. rewrite addGroups_cons.
  pose proof (addDocumentsToKB_footprint kb kbDocs now st) as Hone.
  unfold exec in Hone.
  destruct (addDocumentsToKB _ _ _ _ _) as [[[]|e] st1]; cbn [snd] in Hone;
    destruct Hone as (Hcfg & Hsc & Hstats & Hmem & Hdisk).
  - specialize (IH st1). unfold exec in IH.
    destruct IH as (Hcfg' & Hsc' & Hstats' & Hmem' & Hdisk').
    rewrite Hcfg', Hsc', Hstats', Hcfg, Hsc, Hstats.
    split; [done|]. split; [done|]. split; [done|]. split.
    + intros kb' [Hne Hnin]%not_elem_of_cons.
      destruct (Hmem' kb' Hnin) as [-> ->]. by apply Hmem.
    + intros p Hp. rewrite Hdisk'.
      * apply Hdisk; apply Hp; apply list_elem_of_here.
      * intros kb' Hin. rewrite Hcfg. apply Hp. by apply list_elem_of_further.
  - cbn [snd]. split; [done|]. split; [done|]. split; [done|]. split.
    + intros kb' [Hne Hnin]%not_elem_of_cons. by apply Hmem.
    + intros p Hp. apply Hdisk; apply Hp; apply list_elem_of_here.
Qed.

Lemma keys_groupDocs (docs : list RAGDocument) (kb : string) :
  kb ∈ JsMap.keys (groupDocs docs) ->
  ∃ doc, doc ∈ docs ∧ doc_knowledgeBase doc = kb.
Proof.
  intros Hin. destruct (groupDocs_grouped docs) as [_ Hget].
  specialize (Hget kb).
  destruct (docsOf kb docs) as [|doc kbDocs] eqn:Hdocs.
  { by apply JsMapFacts.get_None_notin in Hget. }
  assert (Hdoc : doc ∈ docsOf kb docs) by (rewrite Hdocs; apply list_elem_of_here).
  unfold docsOf in Hdoc. apply list_elem_of_In, filter_In in Hdoc as [Hdoc Hkb].
  exists doc. split; [by apply list_elem_of_In|].
  by apply bool_decide_eq_true in Hkb.
Qed.

(** X10. Whatever its outcome, and whether or not the files could be
    written, [addDocuments] touches only what belongs to the knowledge
    bases its documents name: the index and the chunk map in memory of any
    other name, and every file other than the [.hnsw] and [.chunks.json]
    files of the named ones, are as before the call. The files of another
    name are kept when that name does not lead to the files of a named one
    (as [b] and [./b] do). The search cache is never invalidated and the
    statistics never change. *)
Theorem addDocuments_footprint (docs : list RAGDocument) (now : Z) (st : State) :
  let st' := exec (addDocuments getEmbeddings tryWrite docs now) st in
  config st' = config st ∧ searchCache st' = searchCache st ∧ stats st' = stats st ∧
  (∀ kb, (∀ doc, doc ∈ docs -> doc_knowledgeBase doc ≠ kb) ->
     indices st' !! kb = indices st !! kb ∧ chunkMaps st' !! kb = chunkMaps st !! kb) ∧
  (∀ p, (∀ doc, doc ∈ docs ->
           p ≠ indexPath (config st) (doc_knowledgeBase doc) ∧
           p ≠ chunkPath (config st) (doc_knowledgeBase doc)) ->
     disk st' !! p = disk st !! p) ∧
  (∀ kb, (∀ doc, doc ∈ docs -> ¬ sameFiles (config st) kb (doc_knowledgeBase doc)) ->
     disk st' !! indexPath (config st) kb = disk st !! indexPath (config st) kb ∧
     disk st' !! chunkPath (config st) kb = disk st !! chunkPath (config st) kb).
Proof.
  destruct docs as [|doc0 docs0]; [done|].
  set (docs := doc0 :: docs0). unfold addDocuments. fold docs.
  destruct (addGroups_footprint (groupDocs docs) now st)
    as (Hcfg & Hsc & Hstats & Hmem & Hdisk).
  assert (Hpaths : ∀ p, (∀ doc, doc ∈ docs ->
             p ≠ indexPath (config st) (doc_knowledgeBase doc) ∧
             p ≠ chunkPath (config st) (doc_knowledgeBase doc)) ->
           disk (exec (addGroups getEmbeddings tryWrite (groupDocs docs) now) st) !! p
           = disk st !! p).
  { intros p Hp. apply Hdisk. intros kb (doc & Hdoc & <-)%keys_groupDocs.
    by apply Hp. }
  split; [done|]. split; [done|]. split; [done|]. split; [|split; [done|]].
  - intros kb Hkb. apply Hmem. intros (doc & Hdoc & Heq)%keys_groupDocs.
    by apply (Hkb doc).
  - intros kb Hkb. split; apply Hpaths; intros doc Hdoc; split.
    + intros Heq%indexPath_eq_iff. by apply (Hkb doc).
    + apply indexPath_ne_chunkPath_any.
    + intros Heq. symmetry in Heq. by apply indexPath_ne_chunkPath_any in Heq.
    + intros Heq%chunkPath_eq_iff. by apply (Hkb doc).
Qed.

(** X11. [addDocuments] is not atomic. The groups are stored one after
    the other in the order in which their knowledge bases first appear;
    when the call for one group throws, [addDocuments] throws the same
    error with the state that call left: the groups before it stay stored
    in memory, every file but the two of the failing group is as the
    groups before it left it, and no file at all is touched by the failing
    call when its two writes cannot fail. The groups after it are not
    attempted: their indices and chunk maps are as before the call, and so
    are their files unless an earlier group or the failing one leads to
    the same files. *)
Theorem addDocuments_stops_at_first_failure
    (docs : list RAGDocument) (now : Z) (st st1 st2 : State)
    (done rest : list (string * list RAGDocument))
    (kb : string) (kbDocs : list RAGDocument) (e : JsError) :
  groupDocs docs = done ++ (kb, kbDocs) :: rest ->
  addGroups getEmbeddings tryWrite done now st = (Ok tt, st1) ->
  addDocumentsToKB getEmbeddings tryWrite kb kbDocs now st1 = (Throw e, st2) ->
  addDocuments getEmbeddings tryWrite docs now st = (Throw e, st2) ∧
  (∀ p, p ≠ indexPath (config st) kb -> p ≠ chunkPath (config st) kb ->
     disk st2 !! p = disk st1 !! p) ∧
  ((∀ data, tryWrite (indexPath (config st) kb) data = Written) ->
   (∀ data, tryWrite (chunkPath (config st) kb) data = Written) ->
   disk st2 = disk st1) ∧
  (∀ kb', kb' ∈ JsMap.keys done ->
     indices st2 !! kb' = indices st1 !! kb' ∧
     chunkMaps st2 !! kb' = chunkMaps st1 !! kb') ∧
  (∀ kb', kb' ∈ JsMap.keys rest ->
     indices st2 !! kb' = indices st !! kb' ∧
     chunkMaps st2 !! kb' = chunkMaps st !! kb' ∧
     ((∀ kb'', kb'' ∈ JsMap.keys done ∨ kb'' = kb ->
         ¬ sameFiles (config st) kb' kb'') ->
      disk st2 !! indexPath (config st) kb' = disk st !! indexPath (config st) kb' ∧
      disk st2 !! chunkPath (config st) kb' = disk st !! chunkPath (config st) kb')).
Proof.
  intros Hgroups Hdone Hfail.
  assert (Hnd : NoDup (JsMap.keys (done ++ (kb, kbDocs) :: rest))).
  { rewrite <- Hgroups. apply groupDocs_grouped. }
  unfold JsMap.keys in Hnd. rewrite map_app in Hnd. cbn [map fst] in Hnd.
  apply NoDup_app in Hnd as (_ & Hdisj & Hnd).
  apply NoDup_cons in Hnd as (Hkb & _).
  pose proof (addDocumentsToKB_footprint kb kbDocs now st1) as Hone.
  unfold exec in Hone. rewrite Hfail in Hone. cbn [snd] in Hone.
  destruct Hone as (_ & _ & _ & Hmem & Hdisk).
  pose proof (addGroups_footprint done now st) as Hpre.
  unfold exec in Hpre. rewrite Hdone in Hpre. cbn [snd] in Hpre.
  destruct Hpre as (Hcfg & _ & _ & Hmem' & Hdisk').
  rewrite Hcfg in Hdisk.
  split; [|split; [done|split; [|split]]].
  - destruct docs as [|doc0 docs0]; [by destruct done|].
    unfold addDocuments. rewrite Hgroups, addGroups_app, Hdone, addGroups_cons.
    by rewrite Hfail.
  - intros Hw1 Hw2. rewrite <- Hcfg in Hw1, Hw2.
    exact (addDocumentsToKB_Throw_disk _ _ _ _ _ _ Hw1 Hw2 Hfail).
  - intros kb' Hin. apply Hmem. intros ->.
    apply (Hdisj kb Hin). apply list_elem_of_here.
  - intros kb' Hin.
    assert (Hne : kb' ≠ kb) by (by intros ->).
    assert (Hnin : kb' ∉ JsMap.keys done).
    { intros Hin'. apply (Hdisj kb' Hin'). by apply list_elem_of_further. }
    destruct (Hmem kb' Hne) as [-> ->]. destruct (Hmem' kb' Hnin) as [-> ->].
    split; [done|]. split; [done|]. intros Hother. split.
    + rewrite Hdisk.
      * apply Hdisk'. intros kb'' Hin''. split.
        -- intros Heq%indexPath_eq_iff. apply (Hother kb''); [by left|done].
        -- apply indexPath_ne_chunkPath_any.
      * intros Heq%indexPath_eq_iff. apply (Hother kb); [by right|done].
      * apply indexPath_ne_chunkPath_any.
    + rewrite Hdisk.
      * apply Hdisk'. intros kb'' Hin''. split.
        -- intros Heq. symmetry in Heq. by apply indexPath_ne_chunkPath_any in Heq.
        -- intros Heq%chunkPath_eq_iff. apply (Hother kb''); [by left|done].
      * intros Heq. symmetry in Heq. by apply indexPath_ne_chunkPath_any in Heq.
      * intros Heq%chunkPath_eq_iff. apply (Hother kb); [by right|done].
Qed.

Lemma groupDocs_fold_single (kb : string) (docs pre : list RAGDocument) :
  Forall (fun doc => doc_knowledgeBase doc = kb) docs ->
  fold_left
    (fun grouped doc =>
       let existing := default [] (JsMap.get (doc_knowledgeBase doc) grouped) in
       JsMap.set (doc_knowledgeBase doc) (existing ++ [doc]) grouped)
    docs [(kb, pre)]
  = [(kb, pre ++ docs)].
Proof.
  revert pre. induction docs as [|doc docs IH]; intros pre Hall.
  { by rewrite app_nil_r. }
  apply Forall_cons in Hall as [Hkb Hall].
  cbn [fold_left]. rewrite Hkb. cbn.
  destruct (decide (kb = kb)); [|done]. cbn [default].
  etrans; [by apply IH|]. by rewrite <- app_assoc.
Qed.

(** X12. A batch whose documents all name one knowledge base is stored by
    a single call of [addDocumentsToKB] with the whole batch in its
    order: [addDocuments] and [addDocument] are that call. *)
Theorem addDocuments_single_knowledgeBase
    (kb : string) (docs : list RAGDocument) (now : Z) (st : State) :
  docs ≠ [] ->
  Forall (fun doc => doc_knowledgeBase doc = kb) docs ->
  addDocuments getEmbeddings tryWrite docs now st
    = addDocumentsToKB getEmbeddings tryWrite kb docs now st ∧
  ∀ doc, addDocument getEmbeddings tryWrite doc now st
           = addDocumentsToKB getEmbeddings tryWrite (doc_knowledgeBase doc) [doc] now st.
Proof.
  assert (Hone : ∀ kb' ds, ds ≠ [] ->
            Forall (fun doc => doc_knowledgeBase doc = kb') ds ->
            addDocuments getEmbeddings tryWrite ds now st
              = addDocumentsToKB getEmbeddings tryWrite kb' ds now st).
  { intros kb' [|doc ds] Hne Hall; [done|].
    unfold addDocuments, groupDocs. cbn [fold_left].
    pose proof Hall as [Hkb Hall']%Forall_cons. rewrite Hkb. cbn [JsMap.get default].
    cbn [JsMap.set app]. rewrite groupDocs_fold_single by done. cbn [app].
    rewrite addGroups_cons.
    by destruct (addDocumentsToKB _ _ _ _ _) as [[[]|e] st1]. }
  intros Hne Hall. split; [by apply Hone|].
  intros doc. apply Hone; [done|]. by apply Forall_singleton.
Qed.

(** ** Persistence *)

Lemma addDocumentsToKB_Ok_stored (kb : string) (docs : list RAGDocument) (now : Z)
    (st st' : State) :
  addDocumentsToKB getEmbeddings tryWrite kb docs now st = (Ok tt, st') ->
  ∃ embeddings index chunkMap,
    getEmbeddings (map doc_content docs) = Ok embeddings ∧
    indices st' !! kb = Some index ∧ chunkMaps st' !! kb = Some chunkMap ∧
    disk st' !! indexPath (config st) kb = Some (FIndex index) ∧
    disk st' !! chunkPath (config st) kb = Some (FChunks chunkMap) ∧
    config st' = config st ∧
    let count := from_option getCurrentCount 0%nat (indices st !! kb) in
    idx_points index
      = from_option idx_points [] (indices st !! kb)
        ++ zip (seq count (length embeddings)) embeddings ∧
    dom chunkMap
      = dom (default ∅ (chunkMaps st !! kb))
        ∪ (set_seq count (length embeddings) : gset nat).
Proof.
  intros (embeddings & chunkMap' & Hemb & Hst' & Hdom & _)%addDocumentsToKB_Ok_inv.
  cbv zeta in Hst', Hdom. rewrite startIndex_count in Hst', Hdom.
  exists embeddings.
  match type of Hst' with
  | _ = stored _ _ ?index ?chunkMap ?events =>
      destruct (stored_lookups st kb index chunkMap events)
        as (Hidx & Hcm & Hd1 & Hd2 & _ & Hcfg & _);
      exists index, chunkMap
  end.
  rewrite <- Hst' in *.
  split; [done|]. split; [done|]. split; [done|]. split; [done|].
  split; [done|]. split; [done|]. cbv zeta. split; [|done].
  unfold withPoints. cbn [idx_points]. by rewrite startIndex_points.
Qed.

(** X13. What [addDocumentsToKB] saved is what a service loads. After a
    successful call, in any state of a service with the same
    configuration in which the knowledge base is not in memory and its
    two files are those just written (a new service over the same
    directory, or this one after [shutdown]), [getOrLoadIndex] succeeds,
    registers the index with the points and capacity of the saved one and
    [efSearch] as its [ef], and registers a chunk map with the same
    ordinals, ids and texts. *)
Theorem addDocumentsToKB_then_reload
    (kb : string) (docs : list RAGDocument) (now : Z) (st st' st2 : State) :
  addDocumentsToKB getEmbeddings tryWrite kb docs now st = (Ok tt, st') ->
  config st2 = config st' ->
  indices st2 !! kb = None ->
  disk st2 !! indexPath (config st') kb = disk st' !! indexPath (config st') kb ->
  disk st2 !! chunkPath (config st') kb = disk st' !! chunkPath (config st') kb ->
  ∃ index chunkMap loaded loadedChunks,
    indices st' !! kb = Some index ∧ chunkMaps st' !! kb = Some chunkMap ∧
    let r := getOrLoadIndex kb st2 in
    r.1 = Ok (Some loaded) ∧
    indices r.2 !! kb = Some loaded ∧ chunkMaps r.2 !! kb = Some loadedChunks ∧
    idx_points loaded = idx_points index ∧
    getMaxElements loaded = getMaxElements index ∧
    idx_ef loaded = efSearch (config st) ∧
    dom loadedChunks = dom chunkMap ∧
    ∀ n, chunk_id <$> loadedChunks !! n = chunk_id <$> chunkMap !! n ∧
         chunk_text <$> loadedChunks !! n = chunk_text <$> chunkMap !! n.
Proof.
  intros Hrun Hcfg Hmem Hfile1 Hfile2.
  apply addDocumentsToKB_Ok_stored in Hrun
    as (embeddings & index & chunkMap & _ & Hidx & Hcm & Hd1 & Hd2 & Hcfg' & _).
  rewrite Hcfg' in *.
  exists index, chunkMap, (setEf index (efSearch (config st))), chunkMap.
  split; [exact Hidx|]. split; [exact Hcm|].
  unfold getOrLoadIndex. rewrite Hmem, Hcfg, Hfile1, Hfile2, Hd1, Hd2.
  cbn. rewrite !lookup_insert_eq. done.
Qed.

(** X14. [addDocumentsToKB] looks for the knowledge base in memory only.
    When the knowledge base is on disk and not in memory, and its two
    files can be written, a batch of [n] documents starts a new index:
    the two files then hold the batch alone, at the ordinals from 0,
    whatever they held before. When the knowledge base was first loaded
    (as a search does), the same batch is appended: the files then hold
    the persisted points followed by the batch. *)
Theorem addDocumentsToKB_overwrites_unloaded
    (kb : string) (docs : list RAGDocument) (now : Z) (st : State)
    (persisted : Index) (persistedChunks : gmap nat Chunk) :
  one_vector_per_text getEmbeddings ->
  (∃ embeddings, getEmbeddings (map doc_content docs) = Ok embeddings) ->
  (∀ data, tryWrite (indexPath (config st) kb) data = Written) ->
  (∀ data, tryWrite (chunkPath (config st) kb) data = Written) ->
  indices st !! kb = None -> chunkMaps st !! kb = None ->
  disk st !! indexPath (config st) kb = Some (FIndex persisted) ->
  disk st !! chunkPath (config st) kb = Some (FChunks persistedChunks) ->
  (∃ st' index chunkMap,
     addDocumentsToKB getEmbeddings tryWrite kb docs now st = (Ok tt, st') ∧
     disk st' !! indexPath (config st) kb = Some (FIndex index) ∧
     disk st' !! chunkPath (config st) kb = Some (FChunks chunkMap) ∧
     map fst (idx_points index) = seq 0 (length docs) ∧
     dom chunkMap = (set_seq 0 (length docs) : gset nat)) ∧
  (∃ st' index chunkMap,
     addDocumentsToKB getEmbeddings tryWrite kb docs now (exec (getOrLoadIndex kb) st)
       = (Ok tt, st') ∧
     disk st' !! indexPath (config st) kb = Some (FIndex index) ∧
     disk st' !! chunkPath (config st) kb = Some (FChunks chunkMap) ∧
     map fst (idx_points index)
       = map fst (idx_points persisted)
         ++ seq (getCurrentCount persisted) (length docs) ∧
     dom chunkMap
       = dom persistedChunks
         ∪ (set_seq (getCurrentCount persisted) (length docs) : gset nat)).
Proof.
  intros Hone [embeddings Hemb] Hw1 Hw2 Hidx Hcm Hfile1 Hfile2.
  pose proof (Hone _ _ Hemb) as Hlen. rewrite length_map in Hlen.
  assert (Hzip : ∀ c, map fst (zip (seq c (length embeddings)) embeddings)
                      = seq c (length docs)).
  { intros c. rewrite fst_zip; [by rewrite Hlen|]. by rewrite length_seq. }
  split.
  - destruct (addDocumentsToKB_succeeds getEmbeddings tryWrite kb docs now st
                embeddings) as [st' Hrun]; [done|lia|done|done|].
    pose proof Hrun as (embeddings' & index & chunkMap & Hemb' & _ & _ & Hd1 & Hd2
                        & _ & Hpoints & Hdom)%addDocumentsToKB_Ok_stored.
    rewrite Hemb in Hemb'. injection Hemb' as <-.
    rewrite Hidx in Hpoints, Hdom. rewrite Hcm in Hdom. cbn in Hpoints, Hdom.
    exists st', index, chunkMap. split; [done|]. split; [done|]. split; [done|].
    split.
    + rewrite Hpoints. apply Hzip.
    + rewrite Hdom, Hlen, dom_empty_L. by rewrite (left_id_L ∅ (∪)).
  - set (loaded := setEf persisted (efSearch (config st))).
    assert (Hload : exec (getOrLoadIndex kb) st
                    = set_chunkMaps <[kb := persistedChunks]>
                        (set_indices <[kb := loaded]> st)).
    { unfold exec, getOrLoadIndex. by rewrite Hidx, Hfile1, Hfile2. }
    rewrite Hload. set (st1 := set_chunkMaps _ _).
    assert (Hidx1 : indices st1 !! kb = Some loaded) by apply lookup_insert_eq.
    assert (Hcm1 : chunkMaps st1 !! kb = Some persistedChunks)
      by apply lookup_insert_eq.
    destruct (addDocumentsToKB_succeeds getEmbeddings tryWrite kb docs now st1
                embeddings) as [st' Hrun]; [done|lia|done|done|].
    pose proof Hrun as (embeddings' & index & chunkMap & Hemb' & _ & _ & Hd1 & Hd2
                        & _ & Hpoints & Hdom)%addDocumentsToKB_Ok_stored.
    rewrite Hemb in Hemb'. injection Hemb' as <-.
    rewrite Hidx1 in Hpoints, Hdom. rewrite Hcm1 in Hdom.
    cbn [from_option default] in Hpoints, Hdom.
    change (getCurrentCount loaded) with (getCurrentCount persisted) in *.
    change (idx_points loaded) with (idx_points persisted) in *.
    exists st', index, chunkMap. split; [done|]. split; [done|]. split; [done|].
    split.
    + rewrite Hpoints, map_app. f_equal. apply Hzip.
    + by rewrite Hdom, Hlen.
Qed.

(** ** The capacity of an index in memory *)

(** X19. A batch of [n] documents for which the provider answers one
    vector each, and whose two files can be written, is stored. A
    knowledge base that was not in memory, whatever its files hold, gets a
    new index of capacity [max(n + 256, 1024)] before the first insertion.
    One that is in memory and whose count plus [n] exceeds its capacity is
    resized once, before the first insertion, to [max(currentCount + n +
    256, floor(capacity * 1.5))]; otherwise it is not resized. The batch
    is then inserted in order at the ordinals from the old count on: the
    index holds its old points followed by the new vectors, the chunk at
    ordinal [count + j] has the text, id, metadata, source and timestamp
    of document [j], older chunks are as they were, and the two files hold
    this index and this chunk map. *)
Theorem addDocumentsToKB_capacity
    (kb : string) (docs : list RAGDocument) (now : Z) (st : State)
    (embeddings : list Vec) :
  getEmbeddings (map doc_content docs) = Ok embeddings ->
  length embeddings = length docs ->
  (∀ data, tryWrite (indexPath (config st) kb) data = Written) ->
  (∀ data, tryWrite (chunkPath (config st) kb) data = Written) ->
  let n := length embeddings in
  let count := from_option getCurrentCount 0%nat (indices st !! kb) in
  ∃ st' index' chunkMap',
    addDocumentsToKB getEmbeddings tryWrite kb docs now st = (Ok tt, st') ∧
    indices st' !! kb = Some index' ∧
    chunkMaps st' !! kb = Some chunkMap' ∧
    match indices st !! kb with
    | None =>
        let capacity := ((n + 256) `max` 1024)%nat in
        getMaxElements index' = capacity ∧
        trace st' = trace st ++ EvInitIndex kb capacity :: map (EvAddPoint kb) (seq 0 n)
    | Some index =>
        let capacity := getMaxElements index in
        if (capacity <? count + n)%nat then
          let newCapacity := ((count + n + 256) `max` (3 * capacity / 2))%nat in
          Z.of_nat (3 * capacity / 2)
            = Qfloor (inject_Z (Z.of_nat capacity) * (3 # 2)) ∧
          getMaxElements index' = newCapacity ∧
          trace st' = trace st
            ++ EvResizeIndex kb newCapacity :: map (EvAddPoint kb) (seq count n)
        else
          getMaxElements index' = capacity ∧
          trace st' = trace st ++ map (EvAddPoint kb) (seq count n)
    end ∧
    idx_points index'
      = from_option idx_points [] (indices st !! kb) ++ zip (seq count n) embeddings ∧
    (∀ j doc, docs !! j = Some doc ->
       ∃ chunk, chunkMap' !! (count + j)%nat = Some chunk ∧
                chunk_of doc (count + j) now chunk) ∧
    (∀ key, (key < count)%nat ->
       chunkMap' !! key = default ∅ (chunkMaps st !! kb) !! key) ∧
    disk st' !! indexPath (config st) kb = Some (FIndex index') ∧
    disk st' !! chunkPath (config st) kb = Some (FChunks chunkMap').
Proof.
  intros Hemb Hlen Hw1 Hw2 n count.
  destruct (addDocumentsToKB_succeeds getEmbeddings tryWrite kb docs now st embeddings
              Hemb) as [st' Hrun]; [lia|done|done|].
  destruct (addDocumentsToKB_Ok_inv _ _ _ _ _ _ _ Hrun)
    as (embeddings' & chunkMap' & Hemb' & Hst' & Hdom & Hnew & Hold).
  rewrite Hemb in Hemb'. injection Hemb' as <-.
  rewrite startIndex_count in Hst', Hnew, Hold. fold n count in Hst', Hnew, Hold.
  rewrite <- Hlen in Hst'. fold n in Hst'.
  pose proof (stored_lookups st kb
    (withPoints (startIndex st kb n n) (zip (seq count n) embeddings)) chunkMap'
    (startEvents st kb n n ++ map (EvAddPoint kb) (seq count n)))
    as (Hi & Hc & Hdi & Hdc & Htr & _).
  rewrite <- Hst' in Hi, Hc, Hdi, Hdc, Htr.
  eexists st', _, chunkMap'. split; [done|]. split; [exact Hi|]. split; [exact Hc|].
  split; [|split; [|split; [|split; [|done]]]].
  - rewrite Htr. unfold startIndex, startEvents, count.
    destruct (indices st !! kb) as [index|]; cbn [from_option]; [|done].
    destruct (_ <? _)%nat; [|done]. split; [|done].
    symmetry. apply floor_one_and_half.
  - cbn [withPoints idx_points]. by rewrite startIndex_points.
  - intros j doc Hdoc.
    destruct (Hnew j) as (doc' & Hdoc' & Hchunk).
    { apply lookup_lt_Some in Hdoc. unfold n. lia. }
    rewrite Hdoc in Hdoc'. injection Hdoc' as <-.
    eexists. split; [exact Hchunk|]. apply mkChunk_chunk_of.
  - intros key Hkey. apply Hold. lia.
Qed.

(** ** removeDocument and updateDocument *)

(** X20. [removeDocument] returns without changing anything: indices,
    chunk maps, cache, statistics and files are as before. So
    [updateDocument] with a non-empty knowledge base and content, when the
    provider embeds the content and the two files can be written, stores a
    new chunk with the new content at the next ordinal of the knowledge
    base, under the given id (or under [doc-<ordinal>] when the id is the
    empty string), and every chunk that was in memory before, in any
    knowledge base, is still there; the chunk-map file then holds the
    chunk map of the knowledge base as it is in memory, and so nothing of
    what it held for a knowledge base that was not loaded. *)
Theorem updateDocument_adds_duplicate
    (id : string) (doc : PartialDocument) (now : Z) (st : State)
    (kb content : string) (e : Vec) :
  pd_knowledgeBase doc = Some kb -> kb ≠ "" ->
  pd_content doc = Some content -> content ≠ "" ->
  getEmbeddings [content] = Ok [e] ->
  (∀ data, tryWrite (indexPath (config st) kb) data = Written) ->
  (∀ data, tryWrite (chunkPath (config st) kb) data = Written) ->
  kb_consistent st kb ->
  removeDocument id st = (Ok tt, st) ∧
  let ordinal := from_option getCurrentCount 0%nat (indices st !! kb) in
  ∃ st' chunkMap' chunk,
    updateDocument getEmbeddings tryWrite id doc now st = (Ok tt, st') ∧
    chunkMaps st' !! kb = Some chunkMap' ∧
    default ∅ (chunkMaps st !! kb) !! ordinal = None ∧
    chunkMap' !! ordinal = Some chunk ∧
    chunk_text chunk = content ∧
    chunk_id chunk = (if decide (id = "") then "doc-" +:+ pretty ordinal else id) ∧
    dom chunkMap' = dom (default ∅ (chunkMaps st !! kb)) ∪ {[ordinal]} ∧
    disk st' !! chunkPath (config st) kb = Some (FChunks chunkMap') ∧
    ∀ kb0 chunkMap0 ordinal0 chunk0,
      chunkMaps st !! kb0 = Some chunkMap0 -> chunkMap0 !! ordinal0 = Some chunk0 ->
      ∃ chunkMap1, chunkMaps st' !! kb0 = Some chunkMap1 ∧
                   chunkMap1 !! ordinal0 = Some chunk0.
Proof.
  intros Hkb Hkbne Hcontent Hcne Hemb Hw1 Hw2 Hinv. split; [done|]. intros ordinal.
  set (newDoc := {| doc_id := Some id; doc_content := content;
                    doc_knowledgeBase := kb; doc_metadata := pd_metadata doc |}).
  assert (Hupd : updateDocument getEmbeddings tryWrite id doc now st
                 = match addDocumentsToKB getEmbeddings tryWrite kb [newDoc] now st with
                   | (Ok _, st1) => (Ok tt, st1)
                   | (Throw err, st1) => (Throw err, st1)
                   end).
  { unfold updateDocument. rewrite Hkb, Hcontent. unfold truthy_string.
    rewrite !decide_False by done. reflexivity. }
  destruct (addDocumentsToKB_succeeds getEmbeddings tryWrite kb [newDoc] now st [e])
    as [st' Hrun]; [done|done|done|done|].
  rewrite Hrun in Hupd.
  apply addDocumentsToKB_Ok_inv in Hrun
    as (embeddings & chunkMap' & Hemb' & -> & Hdom & Hnew & Hold).
  cbn [map newDoc doc_content] in Hemb'. rewrite Hemb in Hemb'. injection Hemb' as <-.
  rewrite startIndex_count in Hnew, Hold, Hdom. fold ordinal in Hnew, Hold, Hdom.
  destruct (Hnew 0%nat) as (doc' & [= <-] & Hchunk); [cbn; lia|].
  rewrite Nat.add_0_r in Hchunk.
  eexists _, chunkMap', _. split; [exact Hupd|].
  split; [apply stored_lookups|]. split.
  { unfold kb_consistent in Hinv. unfold ordinal.
    destruct (indices st !! kb) as [index|]; cbn [from_option].
    - destruct Hinv as (chunkMap & -> & Hd). cbn.
      apply not_elem_of_dom. rewrite Hd, elem_of_set_seq. lia.
    - rewrite Hinv. apply lookup_empty. }
  split; [exact Hchunk|]. split; [done|]. split.
  { cbn. unfold truthy_string. by destruct (decide (id = "")). }
  split.
  { rewrite Hdom. cbn [length]. f_equal. apply set_eq. intros x.
    rewrite elem_of_set_seq, elem_of_singleton. lia. }
  split; [apply stored_lookups|].
  intros kb0 chunkMap0 ordinal0 chunk0 Hc0 Hchunk0.
  destruct (decide (kb0 = kb)) as [->|Hne].
  - exists chunkMap'. split; [apply stored_lookups|].
    rewrite Hc0 in Hold. cbn in Hold.
    rewrite Hold; [done|].
    unfold kb_consistent in Hinv. unfold ordinal.
    destruct (indices st !! kb) as [index|]; cbn [from_option].
    + destruct Hinv as (chunkMap & Hc & Hd). rewrite Hc0 in Hc. injection Hc as <-.
      apply elem_of_dom_2 in Hchunk0. rewrite Hd, elem_of_set_seq in Hchunk0. lia.
    + congruence.
  - exists chunkMap0. split; [|done].
    etrans; [|exact Hc0]. by apply stored_lookups.
Qed.

End MoreAddFacts.

(** ** Shutdown, status and configuration *)

Section ShutdownFacts.
Variable tryWrite : string -> FileData -> WriteResult.

Lemma saveAll_cons (name : string) (rest : list string) (st : State) :
  saveAll tryWrite (name :: rest) st =
  match indices st !! name with
  | None => saveAll tryWrite rest st
  | Some index =>
      match tryWrite (indexPath (config st) name) (FIndex index) with
      | Written =>
          saveAll tryWrite rest
            (set_disk <[indexPath (config st) name := FIndex index]> st)
      | WriteFailed e damaged =>
          (Throw e, afterFailedWrite damaged (indexPath (config st) name) st)
      end
  end.
Proof.
  cbn [saveAll]. destruct (indices st !! name) as [index|]; [|done].
  unfold mbind, M_bind, saveIndex, writeTo, afterFailedWrite.
  by destruct (tryWrite _ _).
Qed.

(** The loop of [shutdown] touches nothing but the index files of the
    knowledge bases in memory, whatever its outcome. *)
Lemma saveAll_frame (names : list string) :
  ∀ st,
  let r := saveAll tryWrite names st in
  config r.2 = config st ∧ indices r.2 = indices st ∧ chunkMaps r.2 = chunkMaps st ∧
  searchCache r.2 = searchCache st ∧ stats r.2 = stats st ∧ trace r.2 = trace st ∧
  (∀ p, (∀ name, name ∈ names -> is_Some (indices st !! name) ->
           p ≠ indexPath (config st) name) ->
     disk r.2 !! p = disk st !! p).
Proof.
  induction names as [|name rest IH]; intros st; [done|].
  cbv zeta. rewrite saveAll_cons.
  destruct (indices st !! name) as [index|] eqn:Hidx.
  - destruct (tryWrite _ _) as [|e damaged].
    + destruct (IH (set_disk <[indexPath (config st) name := FIndex index]> st))
        as (Hcfg & Hi & Hcm & Hsc & Hstats & Htr & Hdisk).
      rewrite Hcfg, Hi, Hcm, Hsc, Hstats, Htr. repeat split; try done.
      intros p Hp. rewrite Hdisk.
      * cbn. apply lookup_insert_ne. intros Heq. apply (Hp name); [left|eauto|done].
      * intros name' Hin Hsome. apply Hp; [by right|done].
    + unfold afterFailedWrite. destruct damaged; cbn; repeat split; try done.
      intros p Hp. apply lookup_insert_ne. intros Heq.
      apply (Hp name); [left|eauto|done].
  - destruct (IH st) as (Hcfg & Hi & Hcm & Hsc & Hstats & Htr & Hdisk).
    repeat split; try done. intros p Hp. apply Hdisk.
    intros name' Hin Hsome. apply Hp; [by right|done].
Qed.

(** When every write succeeds the loop completes, and an index file holds
    the index of the last name written to it. *)
Lemma saveAll_written (names : list string) :
  ∀ st,
  (∀ name index, name ∈ names -> indices st !! name = Some index ->
     tryWrite (indexPath (config st) name) (FIndex index) = Written) ->
  (saveAll tryWrite names st).1 = Ok tt ∧
  ∀ before name after index,
    names = before ++ name :: after -> indices st !! name = Some index ->
    (∀ name', name' ∈ after -> is_Some (indices st !! name') ->
       ¬ sameFiles (config st) name' name) ->
    disk (saveAll tryWrite names st).2 !! indexPath (config st) name
      = Some (FIndex index).
Proof.
  induction names as [|name0 rest IH]; intros st Hw.
  { split; [done|]. by intros [|] ? ? ? ?. }
  rewrite saveAll_cons.
  destruct (indices st !! name0) as [index0|] eqn:Hidx0.
  - rewrite (Hw name0 index0) by (done || left).
    set (st1 := set_disk <[indexPath (config st) name0 := FIndex index0]> st).
    destruct (IH st1) as [Hok Hfiles].
    { intros name index Hin Hidx. apply Hw; [by right|done]. }
    split; [done|].
    intros [|b before] name after index Hnames Hidx Hafter;
      injection Hnames as <- Hrest.
    + subst rest. rewrite Hidx0 in Hidx. injection Hidx as <-.
      destruct (saveAll_frame after st1) as (_ & _ & _ & _ & _ & _ & Hdisk).
      rewrite Hdisk; [apply lookup_insert_eq|].
      intros name' Hin Hsome Heq. apply (Hafter name' Hin Hsome).
      by apply indexPath_eq_iff.
    + by apply (Hfiles before name after index).
  - destruct (IH st) as [Hok Hfiles].
    { intros name index Hin Hidx. apply Hw; [by right|done]. }
    split; [done|].
    intros [|b before] name after index Hnames Hidx Hafter;
      injection Hnames as <- Hrest.
    + congruence.
    + by apply (Hfiles before name after index).
Qed.

(** The first write that fails ends the loop with its error. *)
Lemma saveAll_failed (before : list string) :
  ∀ st name after index e damaged,
  (∀ name' index', name' ∈ before -> indices st !! name' = Some index' ->
     tryWrite (indexPath (config st) name') (FIndex index') = Written) ->
  indices st !! name = Some index ->
  tryWrite (indexPath (config st) name) (FIndex index) = WriteFailed e damaged ->
  (saveAll tryWrite (before ++ name :: after) st).1 = Throw e.
Proof.
  induction before as [|b before IH]; intros st name after index e damaged Hw Hidx Hfail.
  - cbn [app]. by rewrite saveAll_cons, Hidx, Hfail.
  - cbn [app]. rewrite saveAll_cons.
    destruct (indices st !! b) as [index0|] eqn:Hidx0.
    + rewrite (Hw b index0) by (done || left).
      apply (IH _ name after index e damaged); [|done|done].
      intros name' index' Hin Hidx'. apply Hw; [by right|done].
    + apply (IH _ name after index e damaged); [|done|done].
      intros name' index' Hin Hidx'. apply Hw; [by right|done].
Qed.

Lemma shutdown_eq (names : list string) (st : State) :
  shutdown tryWrite names st =
  match saveAll tryWrite names st with
  | (Ok _, st1) =>
      (Ok tt, set_chunkMaps (fun _ => ∅)
                (set_indices (fun _ => ∅) (set_searchCache SearchCache_clear st1)))
  | (Throw e, st1) => (Throw e, st1)
  end.
Proof.
  unfold shutdown, mbind, M_bind. by destruct (saveAll tryWrite names st) as [[[]|e] st1].
Qed.

(** X15. [shutdown] writes the indices in memory to their [.hnsw] files in
    turn and touches no other file, the chunk-map files included; the
    statistics and the configuration stay. When every write succeeds, the
    file of a knowledge base holds its index unless a knowledge base
    visited later leads to the same file (as [b] and [./b] do), and the
    two registries and the cache are emptied, the cache counters reset,
    the capacity and the TTL of the cache kept. The first write that fails
    ends [shutdown] with its error before anything is emptied. [names] is
    the order in which the indices are visited. *)
Theorem shutdown_saves_indices (names : list string) (st : State) :
  let r := shutdown tryWrite names st in
  stats r.2 = stats st ∧ config r.2 = config st ∧
  (∀ name, disk r.2 !! chunkPath (config st) name
           = disk st !! chunkPath (config st) name) ∧
  (∀ p, (∀ name, name ∈ names -> is_Some (indices st !! name) ->
           p ≠ indexPath (config st) name) ->
     disk r.2 !! p = disk st !! p) ∧
  ((∀ name index, name ∈ names -> indices st !! name = Some index ->
      tryWrite (indexPath (config st) name) (FIndex index) = Written) ->
   r.1 = Ok tt ∧
   indices r.2 = ∅ ∧ chunkMaps r.2 = ∅ ∧
   searchCache r.2
     = {| cache := []; hits := 0; misses := 0;
          maxSize := maxSize (searchCache st); ttl := ttl (searchCache st) |} ∧
   ∀ before name after index,
     names = before ++ name :: after -> indices st !! name = Some index ->
     (∀ name', name' ∈ after -> is_Some (indices st !! name') ->
        ¬ sameFiles (config st) name' name) ->
     disk r.2 !! indexPath (config st) name = Some (FIndex index)) ∧
  (∀ before name after index e damaged,
     names = before ++ name :: after ->
     (∀ name' index', name' ∈ before -> indices st !! name' = Some index' ->
        tryWrite (indexPath (config st) name') (FIndex index') = Written) ->
     indices st !! name = Some index ->
     tryWrite (indexPath (config st) name) (FIndex index) = WriteFailed e damaged ->
     r.1 = Throw e ∧ indices r.2 = indices st ∧ chunkMaps r.2 = chunkMaps st ∧
     searchCache r.2 = searchCache st).
Proof.
  cbv zeta. rewrite shutdown_eq.
  destruct (saveAll_frame names st) as (Hcfg & Hi & Hcm & Hsc & Hstats & _ & Hdisk).
  assert (Hfiles : ∀ p,
            (∀ name, name ∈ names -> is_Some (indices st !! name) ->
               p ≠ indexPath (config st) name) ->
            disk (match saveAll tryWrite names st with
                  | (Ok _, st1) =>
                      (Ok tt, set_chunkMaps (fun _ => ∅)
                                (set_indices (fun _ => ∅)
                                   (set_searchCache SearchCache_clear st1)))
                  | (Throw e, st1) => (Throw e, st1)
                  end).2 !! p = disk st !! p).
  { intros p Hp. specialize (Hdisk p Hp).
    by destruct (saveAll tryWrite names st) as [[[]|e] st1]. }
  split; [by destruct (saveAll tryWrite names st) as [[[]|e] st1]|].
  split; [by destruct (saveAll tryWrite names st) as [[[]|e] st1]|].
  split; [|split; [exact Hfiles|split]].
  - intros name. apply Hfiles. intros name' _ _ Heq. symmetry in Heq.
    by apply indexPath_ne_chunkPath_any in Heq.
  - intros Hw. destruct (saveAll_written names st Hw) as [Hok Hsaved].
    destruct (saveAll tryWrite names st) as [[[]|e] st1]; [|done].
    cbn [fst snd] in *. split; [done|]. split; [done|]. split; [done|].
    split; [by rewrite <- Hsc|]. exact Hsaved.
  - intros before name after index e damaged -> Hw Hidx Hfail.
    pose proof (saveAll_failed before st name after index e damaged Hw Hidx Hfail)
      as Hthrow.
    destruct (saveAll tryWrite (before ++ name :: after) st) as [[[]|e'] st1];
      [done|].
    cbn [fst snd] in *. by injection Hthrow as ->.
Qed.

(** [shutdown] leaves the cache as it was or else empty, with its limits. *)
Lemma shutdown_cache (names : list string) (st : State) :
  let c' := searchCache (exec (shutdown tryWrite names) st) in
  maxSize c' = maxSize (searchCache st) ∧ ttl c' = ttl (searchCache st) ∧
  (cache c' = cache (searchCache st) ∨ cache c' = []).
Proof.
  cbv zeta. unfold exec. rewrite shutdown_eq.
  destruct (saveAll_frame names st) as (_ & _ & _ & Hsc & _).
  destruct (saveAll tryWrite names st) as [[[]|e] st1]; cbn [snd] in *.
  - cbn. rewrite Hsc. eauto.
  - rewrite Hsc. eauto.
Qed.

End ShutdownFacts.

(** X16. [getStatus] changes nothing and lists exactly the knowledge bases
    that are in memory, each with the number of points of its index. A
    knowledge base that exists on disk only is not listed; once it has
    been loaded, as a search does, it is listed with the persisted
    count. *)
Theorem getStatus_lists_loaded (st : State) :
  let status := {| rs_knowledgeBases := getStatus_knowledgeBases st;
                   rs_metrics := getStatus_metrics st |} in
  getStatus st = (Ok status, st) ∧
  (∀ name n, (name, n) ∈ rs_knowledgeBases status <->
     ∃ index, indices st !! name = Some index ∧ n = getCurrentCount index) ∧
  NoDup (map fst (rs_knowledgeBases status)) ∧
  (∀ kb persisted persistedChunks,
     indices st !! kb = None ->
     disk st !! indexPath (config st) kb = Some (FIndex persisted) ->
     disk st !! chunkPath (config st) kb = Some (FChunks persistedChunks) ->
     (kb ∉ map fst (rs_knowledgeBases status)) ∧
     (kb, getCurrentCount persisted)
       ∈ getStatus_knowledgeBases (exec (getOrLoadIndex kb) st)).
Proof.
  cbv zeta. split; [done|]. cbn [rs_knowledgeBases].
  assert (Hlist : ∀ st0 name n, (name, n) ∈ getStatus_knowledgeBases st0 <->
            ∃ index, indices st0 !! name = Some index ∧ n = getCurrentCount index).
  { intros st0 name n. unfold getStatus_knowledgeBases.
    rewrite elem_of_map_to_list, lookup_fmap.
    destruct (indices st0 !! name) as [index|]; cbn.
    - split; [intros [= <-]; eauto|]. by intros (index' & [= <-] & ->).
    - split; [done|]. by intros (index' & ? & _). }
  split; [apply Hlist|]. split; [apply NoDup_fst_map_to_list|].
  intros kb persisted persistedChunks Hmem Hfile1 Hfile2. split.
  - intros ([name n] & -> & Hin%Hlist)%list_elem_of_fmap.
    destruct Hin as (index & Hidx & _). cbn in Hmem. congruence.
  - apply Hlist. unfold exec, getOrLoadIndex. rewrite Hmem, Hfile1, Hfile2.
    cbn. rewrite lookup_insert_eq. eauto.
Qed.

Lemma mergeConfig_idempotent (old : RequiredRAGConfig) (new : RAGConfig) :
  mergeConfig (mergeConfig old new) new = mergeConfig old new.
Proof.
  unfold mergeConfig. cbn. f_equal; try by destruct new as [[] [] [] [] [] [] [] []].
  destruct (o_vectorizer new) as [v|]; [|done].
  unfold mergeVectorizer. cbn. by destruct v as [[] [] [] []].
Qed.

(** X17. [initialize] merges the configuration it is given into the
    current one and changes nothing else of the service. A property that
    is not supplied keeps its value, also inside [vectorizer], which is
    merged property by property and not replaced: a configuration that
    names only a model leaves the dimensions, the URL and the key as they
    were. Without a configuration nothing is merged, and passing the same
    configuration twice is the same as passing it once. *)
Theorem initialize_merges_configuration (given : RAGConfig) (s : Service) :
  let s' := initialize (Some given) s in
  this_config (initialize None s) = this_config s ∧
  initialize (Some given) s' = s' ∧
  indices (this_state s') = indices (this_state s) ∧
  chunkMaps (this_state s') = chunkMaps (this_state s) ∧
  searchCache (this_state s') = searchCache (this_state s) ∧
  stats (this_state s') = stats (this_state s) ∧
  disk (this_state s') = disk (this_state s) ∧
  workDir (config (this_state s'))
    = default (rc_workDir (this_config s)) (o_workDir given) ∧
  efSearch (config (this_state s'))
    = default (rc_efSearch (this_config s)) (o_efSearch given) ∧
  (∀ model,
     o_vectorizer given
       = Some {| vo_apiUrl := None; vo_apiKey := None; vo_model := Some model;
                 vo_dimensions := None |} ->
     rc_vectorizer (this_config s')
       = {| v_apiUrl := v_apiUrl (rc_vectorizer (this_config s));
            v_apiKey := v_apiKey (rc_vectorizer (this_config s));
            v_model := model;
            v_dimensions := v_dimensions (rc_vectorizer (this_config s)) |} ∧
     dimensions (config (this_state s'))
       = v_dimensions (rc_vectorizer (this_config s))) ∧
  (o_vectorizer given = None ->
   rc_vectorizer (this_config s') = rc_vectorizer (this_config s)).
Proof.
  cbv zeta. split; [done|]. split.
  { unfold initialize. cbn. by rewrite mergeConfig_idempotent. }
  repeat split; try done.
  - cbn. by rewrite H.
  - cbn. by rewrite H.
  - cbn. by intros ->.
Qed.

Section CacheLimits.
Variable getEmbeddings : list string -> Outcome (list Vec).
Variable searchKnn : Index -> Vec -> nat -> Outcome KnnResult.
Variable tryWrite : string -> FileData -> WriteResult.

Lemma search_cache_limits (options : RAGSearchOptions) (clock : SearchClock)
    (st : State) :
  let c' := searchCache (exec (search getEmbeddings searchKnn options clock) st) in
  maxSize c' = maxSize (searchCache st) ∧ ttl c' = ttl (searchCache st) ∧
  ((JsMap.size (cache (searchCache st)) <= cacheBound (searchCache st))%nat ->
   (JsMap.size (cache c') <= cacheBound (searchCache st))%nat).
Proof.
  unfold exec. rewrite search_eq.
  destruct (getEmbeddings _) as [[|queryVector rest]|e]; try done.
  cbn zeta.
  pose proof (SearchCache_get_params (searchCache st) (opt_knowledgeBase options)
                queryVector (kInputOf options) (t_get clock)) as [Hmax Httl].
  pose proof (SearchCache_get_size (searchCache st) (opt_knowledgeBase options)
                queryVector (kInputOf options) (t_get clock)) as Hsize.
  destruct (SearchCache_get _ _ _ _ _) as [cached c] eqn:Hget. cbn [fst snd] in *.
  destruct cached as [cachedResults|].
  { cbn. split; [done|]. split; [done|]. lia. }
  pose proof (getOrLoadIndex_frame (opt_knowledgeBase options)
                (set_searchCache (fun _ => c) st)) as Hload.
  destruct (getOrLoadIndex _ _) as [[[index|]|e] st2]; cbn [fst snd] in Hload;
    destruct Hload as (Hsc & _); cbn [snd].
  - destruct (searchKnn _ _ _) as [answer|e]; cbn; rewrite Hsc; cbn.
    + split; [done|]. split; [done|]. intros Hbound.
      assert (Hc : (JsMap.size (cache c) <= cacheBound c)%nat).
      { unfold cacheBound in *. rewrite Hmax. lia. }
      destruct (SearchCache_set_size c (opt_knowledgeBase options) queryVector
                  (kInputOf options)
                  (scoreAndFilter (default ∅ (chunkMaps st2 !! opt_knowledgeBase options))
                     answer (thresholdOf options))
                  (t_set clock) Hc) as [_ Hle].
      unfold cacheBound in *. rewrite Hmax in Hle. exact Hle.
    + split; [done|]. split; [done|]. lia.
  - rewrite Hsc. cbn. split; [done|]. split; [done|]. lia.
  - rewrite Hsc. cbn. split; [done|]. split; [done|]. lia.
Qed.

Lemma step_cache_limits (st st' : State) :
  step getEmbeddings searchKnn tryWrite st st' ->
  maxSize (searchCache st') = maxSize (searchCache st) ∧
  ttl (searchCache st') = ttl (searchCache st) ∧
  ((JsMap.size (cache (searchCache st)) <= cacheBound (searchCache st))%nat ->
   (JsMap.size (cache (searchCache st')) <= cacheBound (searchCache st))%nat).
Proof.
  intros [options clock st0|docs now st0|id doc now st0|id st0|name st0].
  - apply search_cache_limits.
  - by rewrite addDocuments_cache.
  - by rewrite updateDocument_cache.
  - done.
  - unfold exec. rewrite removeKnowledgeBase_eq. cbn.
    by destruct (disk st0 !! _).
Qed.

End CacheLimits.

(** X18. The capacity and the TTL of the search cache are those the
    constructor built it with, 100 entries and 60000 ms: [initialize]
    records the [cacheSize] and [cacheTTL] it is given in the
    configuration and never rebuilds the cache, so in every state of a
    service, whatever was passed to [initialize] and whatever calls were
    made, the cache holds at most 100 entries and [getStatus] reports a
    [cacheSize] of at most 100. *)
Theorem cache_limits_fixed_by_constructor
    (workDir : string) (vectorizer : VectorizerConfig)
    (files : gmap string FileData) (s : Service) :
  rtc serviceStep (Service_new workDir vectorizer files) s ->
  maxSize (searchCache (this_state s)) = 100 ∧
  ttl (searchCache (this_state s)) = 60000 ∧
  (JsMap.size (cache (searchCache (this_state s))) <= 100)%nat ∧
  (m_cacheSize (getStatus_metrics (this_state s)) <= 100)%nat ∧
  ∀ given size lifetime,
    o_cacheSize given = Some size -> o_cacheTTL given = Some lifetime ->
    let s' := initialize (Some given) s in
    rc_cacheSize (this_config s') = size ∧ rc_cacheTTL (this_config s') = lifetime ∧
    maxSize (searchCache (this_state s')) = 100 ∧
    ttl (searchCache (this_state s')) = 60000.
Proof.
  intros Hrun.
  assert (Hinv : maxSize (searchCache (this_state s)) = 100 ∧
                 ttl (searchCache (this_state s)) = 60000 ∧
                 (JsMap.size (cache (searchCache (this_state s))) <= 100)%nat).
  { revert s Hrun.
    apply (rtc_ind_r (fun s =>
      maxSize (searchCache (this_state s)) = 100 ∧
      ttl (searchCache (this_state s)) = 60000 ∧
      (JsMap.size (cache (searchCache (this_state s))) <= 100)%nat)).
    { cbn. unfold JsMap.size. cbn. repeat split; lia. }
    intros s1 s2 Hrun Hstep (Hmax & Httl & Hsize).
    destruct Hstep as [getEmbeddings searchKnn tryWrite s1 st' Hstep
                      | tryWrite names s1 Hnames | given s1];
      cbn [this_state].
    - destruct (step_cache_limits _ _ _ _ _ Hstep) as (Hmax' & Httl' & Hsize').
      unfold cacheBound in Hsize'. rewrite Hmax in *.
      split; [done|]. split; [congruence|]. apply Hsize'.
      change (Z.to_nat (Z.max 1 100)) with 100%nat. lia.
    - destruct (shutdown_cache tryWrite names (this_state s1))
        as (Hmax' & Httl' & Hcache).
      split; [congruence|]. split; [congruence|].
      unfold JsMap.size in *. destruct Hcache as [-> | ->]; [done|cbn; lia].
    - done. }
  destruct Hinv as (Hmax & Httl & Hsize).
  split; [done|]. split; [done|]. split; [done|]. split; [done|].
  intros given size lifetime Hsz Hlt. cbn. by rewrite Hsz, Hlt.
Qed.

(** ** Instances of the further properties *)

Lemma SearchCache_size_bounded_witness :
  let c' := SearchCache_set cacheFull "docs" [6%Q; 1%Q] 2 [] 400 in
  (1 <= JsMap.size (cache c'))%nat ∧ (JsMap.size (cache c') <= 2)%nat.
Proof.
  destruct (SearchCache_size_bounded cacheFull "docs" [6%Q; 1%Q] 2 [] 400)
    as (Hone & Hle & _).
  - vm_compute. lia.
  - split; [exact Hone | exact Hle].
Defined.

Lemma SearchCache_set_then_get_witness :
  (SearchCache_get (SearchCache_set cacheFull "docs" [6%Q; 1%Q] 2 [] 400)
     "docs" [12 # 2; 1%Q] 2 500).1 = Some [].
Proof.
  destruct (SearchCache_set_then_get cacheFull "docs" [6%Q; 1%Q] [12 # 2; 1%Q] 2 []
              400 500) as (Hgot & _).
  - repeat constructor.
  - vm_compute. reflexivity.
  - exact Hgot.
Defined.

Lemma SearchCache_get_expired_witness :
  (SearchCache_get cacheFull "docs" [1%Q; 1%Q] 2 100000).1 = None ∧
  JsMap.size (cache (SearchCache_get cacheFull "docs" [1%Q; 1%Q] 2 100000).2) = 1%nat.
Proof.
  destruct (SearchCache_get_expired cacheFull "docs" [1%Q; 1%Q] 2
              {| ce_result := []; ce_timestamp := 100 |} 100000)
    as (Hmiss & _ & _ & Hsize & _).
  - by_decide.
  - reflexivity.
  - vm_compute. discriminate.
  - split; [exact Hmiss|]. exact (eq_add_S _ _ Hsize).
Defined.

Lemma SearchCache_counts_lookups_witness :
  cs_hitRateNumber (SearchCache_getStats (SearchCache_new 100 60000)) = 0%Q.
Proof.
  destruct (SearchCache_counts_lookups (SearchCache_new 100 60000) "docs" [1%Q] 2 [] 0)
    as (_ & _ & _ & _ & _ & _ & _ & Hzero).
  apply Hzero. reflexivity.
Defined.

Lemma recordMetric_running_mean_witness :
  totalSearches (stats (recordAll [10%Z; 20%Z] stEmpty)) = 2%nat ∧
  (avgSearchTime (stats (recordAll [10%Z; 20%Z] stEmpty)) == 15)%Q ∧
  recordMetric "add" 10%Z stEmpty = (Ok tt, stEmpty).
Proof.
  destruct (recordMetric_running_mean [10%Z; 20%Z] stEmpty "add" 10%Z)
    as (Hcount & _ & Hmean & Hother).
  split; [exact Hcount|]. split.
  - rewrite Hmean; [reflexivity|reflexivity|discriminate].
  - apply Hother. discriminate.
Defined.

Lemma search_repeated_within_ttl_witness :
  (search lengthEmbeddings exactKnn (askTwoAbove (9 # 10)) (demoClock 3000)
     stSearched).1
  = (search lengthEmbeddings exactKnn askTwo (demoClock 2000) stDocs).1 ∧
  (search lengthEmbeddings exactKnn (askTwoAbove (9 # 10)) (demoClock 3000)
     (exec (addDocuments lengthEmbeddings alwaysWritten [mkDoc "docs" "bb"] 2500) stSearched)).1
  = (search lengthEmbeddings exactKnn askTwo (demoClock 2000) stDocs).1.
Proof.
  destruct (search_repeated_within_ttl lengthEmbeddings exactKnn
              lengthEmbeddings exactKnn
              askTwo (askTwoAbove (9 # 10)) (demoClock 2000) (demoClock 3000)
              stDocs stSearched
              (okResults (search lengthEmbeddings exactKnn askTwo (demoClock 2000)
                            stDocs).1)
              (unitOfLength 2) (unitOfLength 2) [] [])
    as (Hsame & _ & _ & _ & _ & _ & _ & _ & _ & _ & Hadded).
  - vm_compute. reflexivity.
  - vm_compute. reflexivity.
  - reflexivity.
  - reflexivity.
  - apply Forall2_same_length_lookup_2; [done|]. intros i x y Hx Hy.
    rewrite Hx in Hy. injection Hy as <-. reflexivity.
  - reflexivity.
  - reflexivity.
  - vm_compute. reflexivity.
  - split.
    + rewrite Hsame. vm_compute. reflexivity.
    + rewrite Hadded. vm_compute. reflexivity.
Defined.

Lemma search_failure_effects_witness :
  exec (search strictEmbeddings exactKnn (mkOptions "docs" "" None None)
          (demoClock 2000)) stDocs
  = stDocs.
Proof.
  destruct (search_failure_effects strictEmbeddings exactKnn
              (mkOptions "docs" "" None None) (demoClock 2000) stDocs
              (exec (search strictEmbeddings exactKnn (mkOptions "docs" "" None None)
                       (demoClock 2000)) stDocs)
              EmbeddingApiError)
    as (_ & _ & _ & _ & Hcase).
  - vm_compute. reflexivity.
  - destruct Hcase as [_ Hstate]. exact Hstate.
Defined.


Lemma addDocumentsToKB_failure_witness :
  (addDocumentsToKB twoEmbeddings alwaysWritten "docs" [mkDoc "docs" "a"] 1000 stEmpty
     = (Throw TypeError, stOverrun) ∧
   disk stOverrun = ∅ ∧
   (∃ index, indices stOverrun !! "docs" = Some index ∧
             getCurrentCount index = 2%nat) ∧
   chunkMaps stOverrun !! "docs" = None) ∧
  (let r := addDocumentsToKB lengthEmbeddings failsOnTwoChunks "docs"
              [mkDoc "docs" "bb"] 2000 stOneDoc in
   r.1 = Throw WriteError ∧
   getCurrentCount <$> indices r.2 !! "docs" = Some 2%nat ∧
   getCurrentCount (indexFile r.2 "docs") = 2%nat ∧
   ordinalsOf (chunkFile r.2 "docs") = [0%nat]).
Proof.
  split.
  - destruct (addDocumentsToKB_failure twoEmbeddings alwaysWritten "docs"
                [mkDoc "docs" "a"] 1000 stEmpty) as (_ & _ & Hover & _).
    destruct (Hover [unitOfLength 1; unitOfLength 2])
      as (st' & index' & Hrun & Hindex & Hcount & Hchunks & _ & Hdisk).
    + reflexivity.
    + vm_compute. lia.
    + assert (Hst : st' = stOverrun).
      { unfold stOverrun, exec. by rewrite Hrun. }
      subst st'. split; [exact Hrun|]. split; [exact Hdisk|].
      split; [|exact Hchunks]. exists index'. split; [exact Hindex | exact Hcount].
  - destruct (addDocumentsToKB_failure lengthEmbeddings failsOnTwoChunks "docs"
                [mkDoc "docs" "bb"] 2000 stOneDoc) as (_ & _ & _ & Hwrites).
    destruct (Hwrites [unitOfLength 2]) as (chunkMap' & Hdom & Hrun).
    + reflexivity.
    + vm_compute. lia.
    + cbv zeta in Hrun |- *.
      assert (Hsize : size chunkMap' = 2%nat).
      { rewrite <- size_dom, Hdom. vm_compute. reflexivity. }
      rewrite Hrun. unfold failsOnTwoChunks. cbv beta iota.
      rewrite decide_True by exact Hsize.
      repeat split; vm_compute; reflexivity.
Defined.

Lemma addDocuments_footprint_witness :
  indices stDocs !! "other" = None ∧
  disk stDocs !! indexPath demoConfig "other" = None ∧
  disk stDocs !! "VectorStore/unrelated.txt" = None.
Proof.
  destruct (addDocuments_footprint lengthEmbeddings alwaysWritten threeDocs 1000 stEmpty)
    as (_ & _ & _ & Hmem & Hdisk & Hfiles).
  assert (Hkb : ∀ doc, doc ∈ threeDocs -> doc_knowledgeBase doc = "docs").
  { intros doc Hdoc. apply list_elem_of_In in Hdoc. cbn in Hdoc.
    destruct Hdoc as [<-|[<-|[<-|[]]]]; reflexivity. }
  split; [|split].
  - destruct (Hmem "other") as [Hidx _]; [|exact Hidx].
    intros doc Hdoc. rewrite (Hkb doc Hdoc). discriminate.
  - destruct (Hfiles "other") as [Hidx _]; [|exact Hidx].
    intros doc Hdoc. rewrite (Hkb doc Hdoc). intros Hsame.
    vm_compute in Hsame. discriminate Hsame.
  - apply Hdisk. intros doc Hdoc. rewrite (Hkb doc Hdoc).
    split; intros Heq; vm_compute in Heq; discriminate Heq.
Defined.

Lemma addDocuments_stops_at_first_failure_witness :
  addDocuments strictEmbeddings alwaysWritten mixedDocs 1000 stEmpty
    = (Throw EmbeddingApiError, stFirstGroup) ∧
  indices stFirstGroup !! "c" = None ∧
  disk stFirstGroup !! indexPath demoConfig "c" = None.
Proof.
  destruct (addDocuments_stops_at_first_failure strictEmbeddings alwaysWritten
              mixedDocs 1000 stEmpty stFirstGroup stFirstGroup
              [("a", [mkDoc "a" "x"])] [("c", [mkDoc "c" "y"])]
              "b" [mkDoc "b" ""] EmbeddingApiError)
    as (Hrun & _ & _ & _ & Hrest).
  - vm_compute. reflexivity.
  - vm_compute. reflexivity.
  - vm_compute. reflexivity.
  - split; [exact Hrun|].
    destruct (Hrest "c") as (Hidx & _ & Hfiles).
    + unfold JsMap.keys. cbn. apply list_elem_of_here.
    + split; [exact Hidx|]. apply Hfiles.
      intros kb [Hin | ->] Hsame.
      * apply list_elem_of_In in Hin. cbn in Hin. destruct Hin as [<-|[]].
        vm_compute in Hsame. discriminate Hsame.
      * vm_compute in Hsame. discriminate Hsame.
Defined.

Lemma addDocuments_single_knowledgeBase_witness :
  addDocuments lengthEmbeddings alwaysWritten threeDocs 1000 stEmpty
    = addDocumentsToKB lengthEmbeddings alwaysWritten "docs" threeDocs 1000 stEmpty.
Proof.
  destruct (addDocuments_single_knowledgeBase lengthEmbeddings alwaysWritten "docs" threeDocs 1000
              stEmpty) as [Hall _].
  - discriminate.
  - repeat constructor.
  - exact Hall.
Defined.

Lemma addDocumentsToKB_then_reload_witness :
  ∃ loaded loadedChunks,
    (getOrLoadIndex "docs" stReopened).1 = Ok (Some loaded) ∧
    chunkMaps (getOrLoadIndex "docs" stReopened).2 !! "docs" = Some loadedChunks ∧
    map fst (idx_points loaded) = [0; 1; 2]%nat ∧
    dom loadedChunks = (set_seq 0 3 : gset nat).
Proof.
  destruct (addDocumentsToKB_then_reload lengthEmbeddings alwaysWritten "docs" threeDocs 1000
              stEmpty stDocs stReopened)
    as (index & chunkMap & loaded & loadedChunks & Hidx & Hcm & Hload & _ & Hlc
        & Hpoints & _ & _ & Hdom & _).
  - vm_compute. reflexivity.
  - reflexivity.
  - reflexivity.
  - reflexivity.
  - reflexivity.
  - exists loaded, loadedChunks. split; [exact Hload|]. split; [exact Hlc|].
    rewrite Hpoints, Hdom.
    assert (Hi : indices stDocs !! "docs" = Some (indexFile stReopened "docs"))
      by (vm_compute; reflexivity).
    assert (Hc : chunkMaps stDocs !! "docs" = Some (chunkFile stReopened "docs"))
      by (vm_compute; reflexivity).
    rewrite Hi in Hidx. rewrite Hc in Hcm.
    injection Hidx as <-. injection Hcm as <-.
    split; [vm_compute; reflexivity|]. by_decide.
Defined.

Lemma addDocumentsToKB_overwrites_unloaded_witness :
  (∃ st' index,
     addDocumentsToKB lengthEmbeddings alwaysWritten "docs" [mkDoc "docs" "dd"] 3000 stReopened
       = (Ok tt, st') ∧
     disk st' !! indexPath demoConfig "docs" = Some (FIndex index) ∧
     map fst (idx_points index) = [0%nat]) ∧
  (∃ st' index,
     addDocumentsToKB lengthEmbeddings alwaysWritten "docs" [mkDoc "docs" "dd"] 3000
       (exec (getOrLoadIndex "docs") stReopened) = (Ok tt, st') ∧
     disk st' !! indexPath demoConfig "docs" = Some (FIndex index) ∧
     map fst (idx_points index) = [0; 1; 2; 3]%nat).
Proof.
  destruct (addDocumentsToKB_overwrites_unloaded lengthEmbeddings alwaysWritten "docs"
              [mkDoc "docs" "dd"] 3000 stReopened
              (indexFile stReopened "docs") (chunkFile stReopened "docs"))
    as [(st1 & index1 & chunkMap1 & Hrun1 & Hfile1 & _ & Hpoints1 & _)
        (st2 & index2 & chunkMap2 & Hrun2 & Hfile2 & _ & Hpoints2 & _)].
  - exact lengthEmbeddings_one_vector.
  - eexists. reflexivity.
  - reflexivity.
  - reflexivity.
  - reflexivity.
  - reflexivity.
  - vm_compute. reflexivity.
  - vm_compute. reflexivity.
  - split.
    + exists st1, index1. split; [exact Hrun1|]. split; [exact Hfile1|exact Hpoints1].
    + exists st2, index2. split; [exact Hrun2|]. split; [exact Hfile2|].
      rewrite Hpoints2. vm_compute. reflexivity.
Defined.

Lemma shutdown_saves_indices_witness :
  (shutdown alwaysWritten ["docs"] stOverrun).1 = Ok tt ∧
  indices (shutdown alwaysWritten ["docs"] stOverrun).2 = ∅ ∧
  (∃ index, disk (shutdown alwaysWritten ["docs"] stOverrun).2
              !! indexPath demoConfig "docs" = Some (FIndex index) ∧
            getCurrentCount index = 2%nat) ∧
  disk (shutdown alwaysWritten ["docs"] stOverrun).2 !! chunkPath demoConfig "docs"
    = None.
Proof.
  destruct (shutdown_saves_indices alwaysWritten ["docs"] stOverrun)
    as (_ & _ & Hchunks & _ & Hwritten & _).
  destruct Hwritten as (Hok & Hidx & _ & _ & Hsaved); [reflexivity|].
  split; [exact Hok|]. split; [exact Hidx|]. split.
  - eexists. split.
    + apply (Hsaved [] "docs" []); [reflexivity|vm_compute; reflexivity|].
      intros name Hin. by apply elem_of_nil in Hin.
    + vm_compute. reflexivity.
  - etrans; [exact (Hchunks "docs")|]. vm_compute. reflexivity.
Defined.

Lemma getStatus_lists_loaded_witness :
  getStatus_knowledgeBases stReopened = [] ∧
  ("docs", 3%nat) ∈ getStatus_knowledgeBases (exec (getOrLoadIndex "docs") stReopened).
Proof.
  destruct (getStatus_lists_loaded stReopened) as (_ & _ & _ & Hdisk).
  destruct (Hdisk "docs" (indexFile stReopened "docs") (chunkFile stReopened "docs"))
    as [_ Hlisted].
  - reflexivity.
  - vm_compute. reflexivity.
  - vm_compute. reflexivity.
  - split; [vm_compute; reflexivity|]. exact Hlisted.
Defined.

Lemma initialize_merges_configuration_witness :
  rc_vectorizer
    (this_config (initialize (Some demoOptions)
                    (Service_new "./VectorStore" demoVectorizer ∅)))
  = {| v_apiUrl := "http://localhost/v1"; v_apiKey := "key";
       v_model := "text-embedding-3-large"; v_dimensions := 1536 |}.
Proof.
  destruct (initialize_merges_configuration demoOptions
              (Service_new "./VectorStore" demoVectorizer ∅))
    as (_ & _ & _ & _ & _ & _ & _ & _ & _ & Hmodel & _).
  destruct (Hmodel "text-embedding-3-large") as [Hvec _].
  - reflexivity.
  - exact Hvec.
Defined.

Lemma cache_limits_fixed_by_constructor_witness :
  let s := initialize (Some demoOptions)
             (Service_new "./VectorStore" demoVectorizer ∅) in
  rc_cacheSize (this_config s) = 5 ∧ rc_cacheTTL (this_config s) = 1000 ∧
  maxSize (searchCache (this_state s)) = 100 ∧
  ttl (searchCache (this_state s)) = 60000.
Proof.
  destruct (cache_limits_fixed_by_constructor
              "./VectorStore" demoVectorizer ∅
              (initialize (Some demoOptions)
                 (Service_new "./VectorStore" demoVectorizer ∅)))
    as (Hmax & Httl & _ & _ & _).
  - apply rtc_once. apply serviceStep_initialize.
  - split; [reflexivity|]. split; [reflexivity|]. split; [exact Hmax | exact Httl].
Defined.

Lemma addDocumentsToKB_capacity_witness :
  ∃ st' index',
    addDocumentsToKB lengthEmbeddings alwaysWritten "docs" [mkDoc "docs" "cccc"] 3000
      stFull = (Ok tt, st') ∧
    indices st' !! "docs" = Some index' ∧
    getMaxElements index' = 259%nat ∧
    trace st' = [EvResizeIndex "docs" 259; EvAddPoint "docs" 2] ∧
    idx_points index'
      = [(0%nat, unitOfLength 1); (1%nat, unitOfLength 2); (2%nat, unitOfLength 4)].
Proof.
  destruct (addDocumentsToKB_capacity lengthEmbeddings alwaysWritten "docs"
              [mkDoc "docs" "cccc"] 3000 stFull [unitOfLength 4])
    as (st' & index' & chunkMap' & Hrun & Hi & _ & Hcap & Hpoints & _).
  - reflexivity.
  - reflexivity.
  - reflexivity.
  - reflexivity.
  - assert (Hfull : indices stFull !! "docs"
                    = Some (withPoints (setEf (initIndex 2 2) 150)
                              [(0%nat, unitOfLength 1); (1%nat, unitOfLength 2)]))
      by (vm_compute; reflexivity).
    rewrite Hfull in Hcap, Hpoints.
    cbn [from_option getMaxElements getCurrentCount withPoints setEf initIndex
         idx_maxElements idx_points length app Nat.add Nat.ltb Nat.leb] in Hcap, Hpoints.
    destruct Hcap as (_ & Hmax & Htrace).
    exists st', index'. repeat split; assumption.
Defined.

Lemma updateDocument_adds_duplicate_witness :
  ∃ st',
    updateDocument lengthEmbeddings alwaysWritten "doc-0"
      {| pd_content := Some "zz"; pd_knowledgeBase := Some "docs";
         pd_metadata := None |} 3000 stDocs = (Ok tt, st') ∧
    (listing <$> chunkMaps st' !! "docs")
      = Some [(0%nat, "doc-0", "a"); (1%nat, "doc-1", "bb"); (2%nat, "doc-2", "cccc");
              (3%nat, "doc-0", "zz")] ∧
    listing (chunkFile st' "docs")
      = [(0%nat, "doc-0", "a"); (1%nat, "doc-1", "bb"); (2%nat, "doc-2", "cccc");
         (3%nat, "doc-0", "zz")].
Proof.
  destruct (updateDocument_adds_duplicate lengthEmbeddings alwaysWritten "doc-0"
              {| pd_content := Some "zz"; pd_knowledgeBase := Some "docs";
                 pd_metadata := None |} 3000 stDocs "docs" "zz" (unitOfLength 2))
    as (_ & st' & chunkMap' & chunk & Hrun & _).
  - reflexivity.
  - by_decide.
  - reflexivity.
  - by_decide.
  - reflexivity.
  - reflexivity.
  - reflexivity.
  - exact (stDocs_consistent "docs").
  - exists st'. split; [exact Hrun|].
    assert (Hst' : st' = (updateDocument lengthEmbeddings alwaysWritten "doc-0"
              {| pd_content := Some "zz"; pd_knowledgeBase := Some "docs";
                 pd_metadata := None |} 3000 stDocs).2) by (by rewrite Hrun).
    rewrite Hst'. split; vm_compute; reflexivity.
Defined.
